(** * jest-runner: the test scheduler of [packages/jest-runner/src/index.js]

    A shallow embedding of [TestRunner.runTests] and of its two strategies,
    [_createInBandTestRun] and [_createParallelTestRun], as a transition
    system over an explicit scheduler state.

    JavaScript runs the scheduler on one thread: a piece of code runs until
    it returns or awaits, and what happens next is chosen by the event loop.
    The embedding follows that shape.  A run is a list of [Action]s; each
    action is one uninterrupted piece of the source (the handlers attached to
    a promise, the gate's release hook) or one move of the environment (a
    test execution settles, the watcher announces a change).  Everything the
    scheduler does to the outside world is appended to a trace of [Effect]s.
    The list of actions stands for the choices of the event loop and of the
    environment: a property of every run is a property of every list.

    Collaborators that live outside the file are modelled by their
    observable interface only:
    - [throat] (the concurrency gate) by its counter of free slots and its
      FIFO queue of parked calls; its release hook is attached to the gated
      promise before the caller can attach anything, so it runs first;
    - [Emittery] (the event bus) by the emitted event: [emit] delivers to
      the subscribers and its promise fulfils, so [await emit(...)] is a
      sequencing point and nothing more (a subscriber that throws is outside
      the model).  A piece of source that awaits [emit] is run to its end in
      one action: the effects of one test, and of one handler, come in the
      order of the source, but the model does not let the code of another
      test in at that [await], where the running program may (the hand-over
      of a test comes a turn of the microtask queue after its start event).
      What is stated below of the effects of different tests is stated
      through counts, through the order of the polls, of the start events
      and of the hand-overs among themselves, or through what one test or
      one handler does, none of which depends on it;
    - [runTest] and the [jest-worker] pool by the call and by the later
      settlement of the promise they return;
    - the watcher by the boolean it answers to [isInterrupted()] and by its
      ['change'] events, which set that boolean;
    - [exit] by the call and by the end of the process: no action is
      possible after it (the [exit] package ends the process once the
      output streams are drained; the model is the case where they are).

    Two smaller developments follow the scheduler: the fake timers of
    [packages/jest-util/src/FakeTimersLolex.js], a class around a clock of
    lolex, and two helpers of the reporters, [FormattedPath] and
    [wrapAnsiString] of [reporters/utils.js]. *)

From Stdlib Require Import ZArith Lia Sorted.
From stdpp Require Import base list strings.

(** ** Values *)

(** A test descriptor; the scheduler only forwards it. *)
Record Test := mkTest { path : string }.

(** A test result is opaque to the scheduler. *)
Definition Result := nat.

(** What a promise can be rejected with: [Promise.reject()] gives
    [undefined]; everything else the scheduler meets is an error object,
    of which only [name], [type] and [message] matter here. *)
Inductive JsValue :=
| JsUndefined
| JsError (name : string) (type : option string) (message : string).

(** [class CancelRun extends Error], with [this.name = 'CancelRun']. *)
Definition CancelRun : JsValue := JsError "CancelRun" None "".

(** What reading a property of [undefined] throws. *)
Definition TypeError : JsValue :=
  JsError "TypeError" None "Cannot read property 'type' of undefined".

Inductive Settled (A : Type) :=
| Fulfilled (a : A)
| Rejected (e : JsValue).
Arguments Fulfilled {A} a.
Arguments Rejected {A} e.

(** ** Effects

    Tests are named by their position in the input array. *)
Inductive Effect :=
| SetWorkerId                                (* process.env.JEST_WORKER_ID = '1' *)
| WorkerNew (numWorkers maxRetries : nat)    (* new Worker(TEST_WORKER_PATH, ...) *)
| IsInterrupted (i : nat) (b : bool)         (* watcher.isInterrupted(), asked for test i *)
| EmitStart (i : nat)                        (* emit('test-file-start', test) *)
| EmitSuccess (i : nat) (result : Result)    (* emit('test-file-success', test, result) *)
| EmitFailure (i : nat) (err : JsValue)      (* emit('test-file-failure', test, err) *)
| RunTest (i : nat)                          (* runTest(test.path, ...) *)
| WorkerCall (i : nat)                       (* worker.worker({...}) *)
| WorkerEnd                                  (* worker.end() *)
| ConsoleError (message : string)            (* console.error(...) *)
| Exit (code : Z).                           (* exit(code) *)

(** The effects that belong to test [i]. *)
Definition about (i : nat) (e : Effect) : bool :=
  match e with
  | IsInterrupted j _ | EmitStart j | EmitSuccess j _ | EmitFailure j _
  | RunTest j | WorkerCall j => Nat.eqb i j
  | _ => false
  end.

Definition is_start (i : nat) (e : Effect) : bool :=
  match e with EmitStart j => Nat.eqb i j | _ => false end.

Definition is_terminal (i : nat) (e : Effect) : bool :=
  match e with
  | EmitSuccess j _ | EmitFailure j _ => Nat.eqb i j
  | _ => false
  end.

Definition is_success (i : nat) (e : Effect) : bool :=
  match e with EmitSuccess j _ => Nat.eqb i j | _ => false end.

Definition is_failure (i : nat) (e : Effect) : bool :=
  match e with EmitFailure j _ => Nat.eqb i j | _ => false end.

Definition is_execution (i : nat) (e : Effect) : bool :=
  match e with RunTest j | WorkerCall j => Nat.eqb i j | _ => false end.

Definition is_pool (e : Effect) : bool :=
  match e with WorkerNew _ _ | WorkerCall _ | WorkerEnd => true | _ => false end.

Definition is_end (e : Effect) : bool :=
  match e with WorkerEnd => true | _ => false end.

Definition is_exit (e : Effect) : bool :=
  match e with Exit _ => true | _ => false end.

Definition count (f : Effect -> bool) (tr : list Effect) : nat :=
  length (List.filter f tr).

(** The order in which the watcher was asked, start events were emitted and
    executions were handed out. *)
Definition attempts (tr : list Effect) : list nat :=
  omap (fun e => match e with IsInterrupted i _ => Some i | _ => None end) tr.

Definition starts (tr : list Effect) : list nat :=
  omap (fun e => match e with EmitStart i => Some i | _ => None end) tr.

Definition dispatches (tr : list Effect) : list nat :=
  omap (fun e => match e with RunTest i | WorkerCall i => Some i | _ => None end) tr.

(** ** Handlers

    A handler performs effects and then either returns a value or has
    ended the process. *)
Inductive Res (A : Type) :=
| Val (a : A)
| Halt (code : Z).
Arguments Val {A} a.
Arguments Halt {A} code.

Definition M (A : Type) : Type := list Effect * Res A.

Definition ret {A} (a : A) : M A := ([], Val a).

Definition bind {A B} (m : M A) (f : A -> M B) : M B :=
  match m with
  | (l, Val a) => let '(l', b) := f a in (l ++ l', b)
  | (l, Halt c) => (l, Halt c)
  end.

Notation "'let*' x := m 'in' k" := (bind m (fun x => k))
  (at level 10, x name, m at level 100, k at level 200).
Notation "m >>> k" := (bind m (fun _ => k))
  (at level 100, k at level 200, right associativity).

Definition perform (e : Effect) : M unit := ([e], Val tt).

(** [await this.eventEmitter.emit(...)] *)
Definition emit (e : Effect) : M (Settled unit) := ([e], Val (Fulfilled tt)).

(** [exit(code)] *)
Definition exit {A} (code : Z) : M A := ([Exit code], Halt code).

(** [p.then(f)] and [p.catch(f)], for a promise [p] that has settled. *)
Definition then_ {A B} (p : M (Settled A)) (f : A -> M (Settled B)) : M (Settled B) :=
  let* s := p in
  match s with
  | Fulfilled a => f a
  | Rejected e => ret (Rejected e)
  end.

Definition catch_ {A} (p : M (Settled A)) (f : JsValue -> M (Settled A)) : M (Settled A) :=
  let* s := p in
  match s with
  | Fulfilled a => ret (Fulfilled a)
  | Rejected e => f e
  end.

(** [p.then(f, g)] *)
Definition then2 {A B} (p : Settled A) (f : A -> M (Settled B)) (g : JsValue -> M (Settled B))
  : M (Settled B) :=
  match p with
  | Fulfilled a => f a
  | Rejected e => g e
  end.

(** [err.type]: a property read, which throws on [undefined]. *)
Definition get_type (err : JsValue) : Settled (option string) :=
  match err with
  | JsUndefined => Rejected TypeError
  | JsError _ ty _ => Fulfilled ty
  end.

(** ** The concurrency gate

    [throat(n)]: a counter of free slots and a FIFO queue of parked calls.
    A call takes a slot if one is free and is parked otherwise; when the
    promise of a running call settles, [release] gives the slot back and
    hands it at once to the oldest parked call. *)
Module Throat.

Record t := mk { size : nat; queue : list nat }.

Definition make (n : nat) : t := mk n [].

(** [run(fn)]: [true] when [fn] runs now. *)
Definition run (g : t) (i : nat) : t * bool :=
  match size g with
  | O => (mk O (queue g ++ [i]), false)
  | S n => (mk n (queue g), true)
  end.

(** [release()]: the call that is taken off the queue and run, if any. *)
Definition release (g : t) : t * option nat :=
  match queue g with
  | [] => (mk (S (size g)) [], None)
  | j :: q => (mk (size g) q, Some j)
  end.

End Throat.

(** ** Scheduler state *)

(** Where one test stands.  [reacted]: the [then]/[catch] handlers attached
    to its promise have run.  [released]: the gate has taken its slot
    back. *)
Inductive Phase :=
| Queued                                            (* parked in the gate *)
| Running                                           (* start emitted, execution pending *)
| Refused (reacted released : bool)                 (* the watcher was interrupted at its turn *)
| Returned (r : Settled Result) (reacted released : bool).  (* its execution has settled *)

Record State := mkState {
  watcher : bool;                       (* watcher.isInterrupted() *)
  gate : Throat.t;                      (* mutex *)
  tasks : list Phase;                   (* one entry per test handed to the gate *)
  race : option (Settled unit);         (* Promise.race([runAllTests, onInterrupt]) *)
  run_promise : option (Settled unit);  (* the promise runTests returns *)
  exited : option Z;                    (* the process has ended with this status *)
  trace : list Effect
}.

Definition set_gate (g : Throat.t) (s : State) : State :=
  mkState (watcher s) g (tasks s) (race s) (run_promise s) (exited s) (trace s).

Definition set_watcher (b : bool) (s : State) : State :=
  mkState b (gate s) (tasks s) (race s) (run_promise s) (exited s) (trace s).

Definition set_race (r : option (Settled unit)) (s : State) : State :=
  mkState (watcher s) (gate s) (tasks s) r (run_promise s) (exited s) (trace s).

Definition set_run_promise (r : option (Settled unit)) (s : State) : State :=
  mkState (watcher s) (gate s) (tasks s) (race s) r (exited s) (trace s).

Definition set_exited (c : option Z) (s : State) : State :=
  mkState (watcher s) (gate s) (tasks s) (race s) (run_promise s) c (trace s).

Definition log (evs : list Effect) (s : State) : State :=
  mkState (watcher s) (gate s) (tasks s) (race s) (run_promise s) (exited s)
    (trace s ++ evs).

Definition push_task (s : State) : State :=
  mkState (watcher s) (gate s) (tasks s ++ [Queued]) (race s) (run_promise s)
    (exited s) (trace s).

(** Test [i] moves to phase [p], performing [evs]. *)
Definition upd (i : nat) (p : Phase) (evs : list Effect) (s : State) : State :=
  mkState (watcher s) (gate s) (<[i:=p]> (tasks s)) (race s) (run_promise s)
    (exited s) (trace s ++ evs).

Definition phase (s : State) (i : nat) : Phase := default Queued (tasks s !! i).

Definition reacted (p : Phase) : bool :=
  match p with
  | Refused r _ | Returned _ r _ => r
  | _ => false
  end.

(** The test occupies a slot of the gate. *)
Definition holds (p : Phase) : bool :=
  match p with
  | Running => true
  | Refused _ released | Returned _ _ released => negb released
  | Queued => false
  end.

Definition is_running (p : Phase) : bool :=
  match p with Running => true | _ => false end.

Definition holding (s : State) : nat := length (List.filter holds (tasks s)).

(** Executions handed out and not yet settled. *)
Definition in_flight (s : State) : nat := length (List.filter is_running (tasks s)).

(** ** Actions *)
Inductive Action :=
| Settle (i : nat) (r : Settled Result)  (* environment: the execution of test i settles *)
| React (i : nat)                        (* the then/catch handlers of test i run *)
| Release (i : nat)                      (* the gate's release hook of test i runs *)
| WatcherChange (interrupted : bool)     (* environment: the watcher emits 'change' *)
| Cleanup.                               (* the handlers attached to the race run *)

Definition is_watcher_change (a : Action) : bool :=
  match a with WatcherChange _ => true | _ => false end.

Record GlobalConfig := mkGlobalConfig { maxWorkers : nat }.
Record TestRunnerOptions := mkOptions { serial : bool }.

(** ** The sequential strategy: [_createInBandTestRun] *)
Module InBand.

(** The first link of the chain:
    [async () => { if (watcher.isInterrupted()) throw new CancelRun();
                   await emit('test-file-start', test); return runTest(...) }].
    Every link before it ends in a [catch] whose handler only emits, so
    [promise] is fulfilled when the gate lets this link run. *)
Definition begin (i : nat) (s : State) : State :=
  if watcher s
  then upd i (Refused false false) [IsInterrupted i true] s
  else upd i Running [IsInterrupted i false; EmitStart i; RunTest i] s.

(** One round of [tests.reduce]: [mutex(() => promise.then(...)...)]. *)
Definition mutex_call (s : State) (t : Test) : State :=
  let i := length (tasks s) in
  let s1 := push_task s in
  match Throat.run (gate s1) i with
  | (g, true) => begin i (set_gate g s1)
  | (g, false) => set_gate g s1
  end.

Definition init (w : bool) : State :=
  mkState w (Throat.make 1) [] None None None [SetWorkerId].

(** The state when [_createInBandTestRun] returns its promise.  With no
    test the promise is the seed [Promise.resolve()]. *)
Definition start (tests : list Test) (w : bool) : State :=
  let s := fold_left mutex_call tests (init w) in
  match tests with
  | [] => set_run_promise (Some (Fulfilled tt)) s
  | _ => s
  end.

(** [.then(result => emit('test-file-success', test, result))
     .catch(err => emit('test-file-failure', test, err))] *)
Definition chain (i : nat) (r : Settled Result) : M (Settled unit) :=
  catch_ (then_ (ret r) (fun result => emit (EmitSuccess i result)))
         (fun err => emit (EmitFailure i err)).

(** What the first link settled with. *)
Definition settled_with (p : Phase) : option (Settled Result * bool * bool) :=
  match p with
  | Refused re rl => Some (Rejected CancelRun, re, rl)
  | Returned r re rl => Some (r, re, rl)
  | _ => None
  end.

Definition mark (p : Phase) (re rl : bool) : Phase :=
  match p with
  | Refused _ _ => Refused re rl
  | Returned r _ _ => Returned r re rl
  | _ => p
  end.

Definition step (tests : list Test) (s : State) (a : Action) : option State :=
  match exited s with
  | Some _ => None
  | None =>
    match a with
    | Settle i r =>
        match tasks s !! i with
        | Some Running => Some (upd i (Returned r false false) [] s)
        | _ => None
        end
    | React i =>
        match tasks s !! i with
        | Some p =>
            match settled_with p with
            | Some (r, false, false) =>
                match chain i r with
                | (evs, Val v) =>
                    let s1 := upd i (mark p true false) evs s in
                    Some (if Nat.eqb (S i) (length tests)
                          then set_run_promise (Some v) s1 else s1)
                | (evs, Halt c) =>
                    Some (set_exited (Some c) (upd i (mark p true false) evs s))
                end
            | _ => None
            end
        | None => None
        end
    | Release i =>
        match tasks s !! i with
        | Some p =>
            match settled_with p with
            | Some (_, true, false) =>
                let s1 := upd i (mark p true true) [] s in
                match Throat.release (gate s1) with
                | (g, Some j) => Some (begin j (set_gate g s1))
                | (g, None) => Some (set_gate g s1)
                end
            | _ => None
            end
        | None => None
        end
    | WatcherChange b => Some (set_watcher b s)
    | Cleanup => None
    end
  end.

End InBand.

(** ** The parallel strategy: [_createParallelTestRun] *)
Module Parallel.

Definition maxRetries : nat := 3.

Definition fatal_message : string :=
  "A worker process has quit unexpectedly! Most likely this is an initialization error.".

(** The body handed to the gate by [runTestInWorker]:
    [async () => { if (watcher.isInterrupted()) return Promise.reject();
                   await emit('test-file-start', test);
                   return worker.worker({...}) }]. *)
Definition body (i : nat) (s : State) : State :=
  if watcher s
  then upd i (Refused false false) [IsInterrupted i true] s
  else upd i Running [IsInterrupted i false; EmitStart i; WorkerCall i] s.

(** One round of [tests.map]: [runTestInWorker(test)]. *)
Definition mutex_call (s : State) (t : Test) : State :=
  let i := length (tasks s) in
  let s1 := push_task s in
  match Throat.run (gate s1) i with
  | (g, true) => body i (set_gate g s1)
  | (g, false) => set_gate g s1
  end.

Definition init (gc : GlobalConfig) (w : bool) : State :=
  mkState w (Throat.make (maxWorkers gc)) [] None None None
    [WorkerNew (maxWorkers gc) maxRetries].

(** The state when [_createParallelTestRun] reaches its [return].
    [Promise.all([])] is fulfilled from the start. *)
Definition start (gc : GlobalConfig) (tests : list Test) (w : bool) : State :=
  let s := fold_left mutex_call tests (init gc w) in
  match tests with
  | [] => set_race (Some (Fulfilled tt)) s
  | _ => s
  end.

Definition is_fatal (ty : option string) : bool :=
  match ty with
  | Some t => String.eqb t "ProcessTerminatedError"
  | None => false
  end.

(** [onError] *)
Definition onError (err : JsValue) (i : nat) : M (Settled unit) :=
  emit (EmitFailure i err) >>>
  match get_type err with
  | Rejected e => ret (Rejected e)
  | Fulfilled ty =>
      if is_fatal ty
      then perform (ConsoleError fatal_message) >>> exit 1
      else ret (Fulfilled tt)
  end.

(** [runTestInWorker(test).then(result => emit('test-file-success', ...))
                          .catch(error => onError(error, test))] *)
Definition chain (i : nat) (r : Settled Result) : M (Settled unit) :=
  catch_ (then_ (ret r) (fun result => emit (EmitSuccess i result)))
         (fun error => onError error i).

(** What the promise of the gated body settled with. *)
Definition settled_with (p : Phase) : option (Settled Result * bool * bool) :=
  match p with
  | Refused re rl => Some (Rejected JsUndefined, re, rl)
  | Returned r re rl => Some (r, re, rl)
  | _ => None
  end.

Definition mark := InBand.mark.

(** [const cleanup = () => worker.end()] *)
Definition cleanup : M (Settled unit) := ([WorkerEnd], Val (Fulfilled tt)).

(** [Promise.all] over the per-test promises, seen from the race: it only
    matters while the race is pending, and then no per-test promise has
    been rejected yet. *)
Definition settle_all (tests : list Test) (v : Settled unit) (s : State) : State :=
  match race s with
  | Some _ => s
  | None =>
      match v with
      | Rejected e => set_race (Some (Rejected e)) s
      | Fulfilled _ =>
          if Nat.eqb (length (tasks s)) (length tests) && forallb reacted (tasks s)
          then set_race (Some (Fulfilled tt)) s
          else s
      end
  end.

Definition step (tests : list Test) (s : State) (a : Action) : option State :=
  match exited s with
  | Some _ => None
  | None =>
    match a with
    | Settle i r =>
        match tasks s !! i with
        | Some Running => Some (upd i (Returned r false false) [] s)
        | _ => None
        end
    | Release i =>
        match tasks s !! i with
        | Some p =>
            match settled_with p with
            | Some (_, false, false) =>
                let s1 := upd i (mark p false true) [] s in
                match Throat.release (gate s1) with
                | (g, Some j) => Some (body j (set_gate g s1))
                | (g, None) => Some (set_gate g s1)
                end
            | _ => None
            end
        | None => None
        end
    | React i =>
        match tasks s !! i with
        | Some p =>
            match settled_with p with
            | Some (r, false, true) =>
                match chain i r with
                | (evs, Val v) =>
                    Some (settle_all tests v (upd i (mark p true true) evs s))
                | (evs, Halt c) =>
                    Some (set_exited (Some c) (upd i (mark p true true) evs s))
                end
            | _ => None
            end
        | None => None
        end
    | WatcherChange b =>
        let s1 := set_watcher b s in
        Some (if b
              then match race s1 with
                   | None => set_race (Some (Rejected CancelRun)) s1
                   | Some _ => s1
                   end
              else s1)
    | Cleanup =>
        match race s, run_promise s with
        | Some r, None =>
            match then2 r (fun _ => cleanup) (fun _ => cleanup) with
            | (evs, Val v) => Some (set_run_promise (Some v) (log evs s))
            | (evs, Halt c) => Some (set_exited (Some c) (log evs s))
            end
        | _, _ => None
        end
    end
  end.

End Parallel.

(** ** [runTests] *)

Definition start (gc : GlobalConfig) (tests : list Test) (w : bool)
  (options : TestRunnerOptions) : State :=
  if serial options then InBand.start tests w else Parallel.start gc tests w.

Definition step (tests : list Test) (options : TestRunnerOptions)
  (s : State) (a : Action) : option State :=
  if serial options then InBand.step tests s a else Parallel.step tests s a.

Fixpoint exec (tests : list Test) (options : TestRunnerOptions)
  (s : State) (acts : list Action) : option State :=
  match acts with
  | [] => Some s
  | a :: acts' =>
      match step tests options s a with
      | Some s' => exec tests options s' acts'
      | None => None
      end
  end.

(** [runTests(tests, watcher, options)], followed by the actions [acts]. *)
Definition runTests (gc : GlobalConfig) (tests : list Test) (w : bool)
  (options : TestRunnerOptions) (acts : list Action) : option State :=
  exec tests options (start gc tests w options) acts.

(** Nothing is left to do but to wait for the watcher. *)
Definition quiescent (tests : list Test) (options : TestRunnerOptions) (s : State) : Prop :=
  forall a, is_watcher_change a = false -> step tests options s a = None.


(** ** The two strategies side by side

    The gated bodies of the two strategies differ in what they hand the
    test to and in what a cancelled turn is rejected with. *)

Definition exec_effect (serial : bool) (i : nat) : Effect :=
  if serial then RunTest i else WorkerCall i.

Definition cancel_reason (serial : bool) : JsValue :=
  if serial then CancelRun else JsUndefined.

Definition enter (serial : bool) (i : nat) (s : State) : State :=
  if serial then InBand.begin i s else Parallel.body i s.

Definition terminal (i : nat) (r : Settled Result) : Effect :=
  match r with
  | Fulfilled result => EmitSuccess i result
  | Rejected e => EmitFailure i e
  end.

(** What test [i] has done so far, as told by its phase. *)
Definition history (serial : bool) (i : nat) (p : Phase) : list Effect :=
  match p with
  | Queued => []
  | Running => [IsInterrupted i false; EmitStart i; exec_effect serial i]
  | Refused re _ =>
      IsInterrupted i true ::
      (if re then [EmitFailure i (cancel_reason serial)] else [])
  | Returned r re _ =>
      [IsInterrupted i false; EmitStart i; exec_effect serial i] ++
      (if re then [terminal i r] else [])
  end.

(** The turns at which the watcher was not interrupted. *)
Definition accepted (tr : list Effect) : list nat :=
  omap (fun e => match e with IsInterrupted i false => Some i | _ => None end) tr.

(** How many tests have had their turn at the gate so far. *)
Definition turns (s : State) : nat :=
  length (tasks s) - length (Throat.queue (gate s)).

(** ** The invariant of the gate and of the trace

    [K] is the width of the gate.  The invariant holds while the tests are
    being handed to the gate and at every later moment. *)
Record Inv (serial : bool) (K : nat) (s : State) : Prop := mkInv {
  inv_hist : forall i, List.filter (about i) (trace s) = history serial i (phase s i);
  inv_queue_len : length (Throat.queue (gate s)) <= length (tasks s);
  inv_queue : Throat.queue (gate s) = seq (turns s) (length (Throat.queue (gate s)));
  inv_queued : forall i p, tasks s !! i = Some p -> (p = Queued <-> turns s <= i);
  inv_slots : Throat.size (gate s) + holding s = K;
  inv_full : Throat.queue (gate s) <> [] -> Throat.size (gate s) = 0;
  inv_attempts : attempts (trace s) = seq 0 (turns s);
  inv_starts : starts (trace s) = accepted (trace s);
  inv_dispatches : dispatches (trace s) = accepted (trace s)
}.

(** Effects that mention no test but [i]. *)
Definition only (i : nat) (e : Effect) : bool :=
  match e with
  | IsInterrupted j _ | EmitStart j | EmitSuccess j _ | EmitFailure j _
  | RunTest j | WorkerCall j => Nat.eqb i j
  | _ => true
  end.

(** The state just before the gate lets test [j] in: [g] is the gate once
    the slot is taken. *)
Record Pre (serial : bool) (K : nat) (s : State) (g : Throat.t) (j : nat) : Prop := mkPre {
  pre_hist : forall i, List.filter (about i) (trace s) = history serial i (phase s i);
  pre_next : tasks s !! j = Some Queued;
  pre_len : S j + length (Throat.queue g) = length (tasks s);
  pre_queue : Throat.queue g = seq (S j) (length (Throat.queue g));
  pre_queued : forall i p, tasks s !! i = Some p -> (p = Queued <-> j <= i);
  pre_slots : S (Throat.size g + holding s) = K;
  pre_full : Throat.queue g <> [] -> Throat.size g = 0;
  pre_attempts : attempts (trace s) = seq 0 j;
  pre_starts : starts (trace s) = accepted (trace s);
  pre_dispatches : dispatches (trace s) = accepted (trace s)
}.

Definition mutex_call (serial : bool) (s : State) (t : Test) : State :=
  if serial then InBand.mutex_call s t else Parallel.mutex_call s t.

Definition fatal (e : JsValue) : bool :=
  match e with
  | JsUndefined => false
  | JsError _ ty _ => Parallel.is_fatal ty
  end.

Definition settled_with (serial : bool) (p : Phase) : option (Settled Result * bool * bool) :=
  if serial then InBand.settled_with p else Parallel.settled_with p.

Definition width (gc : GlobalConfig) (options : TestRunnerOptions) : nat :=
  if serial options then 1 else maxWorkers gc.

(** ** The invariant of the promises

    It holds from the moment the strategy returns its promise. *)
Record Live (ser : bool) (n : nat) (s : State) : Prop := mkLive {
  live_len : length (tasks s) = n;
  live_promise : run_promise s = None \/ run_promise s = Some (Fulfilled tt);
  live_running : exited s = None -> count is_exit (trace s) = 0;
  live_exited : forall c, exited s = Some c ->
    ser = false /\ c = 1%Z /\
    exists tr i e,
      fatal e = true /\
      trace s = tr ++ [EmitFailure i e; ConsoleError Parallel.fatal_message; Exit 1] /\
      count is_exit tr = 0 /\
      tasks s !! i = Some (Returned (Rejected e) true true);
  live_seq : ser = true ->
    count is_pool (trace s) = 0 /\
    (n = 0 \/ reacted (phase s (n - 1)) = true -> run_promise s <> None);
  live_par : ser = false ->
    count is_end (trace s) = match run_promise s with Some _ => 1 | None => 0 end /\
    (run_promise s <> None -> race s <> None) /\
    (exited s = None -> (forall i, i < n -> reacted (phase s i) = true) ->
     race s <> None)
}.

(** While the tests are handed to the gate nothing has settled yet. *)
Record Boot (ser : bool) (s : State) : Prop := mkBoot {
  boot_promise : run_promise s = None;
  boot_race : race s = None;
  boot_exited : exited s = None;
  boot_exit : count is_exit (trace s) = 0;
  boot_end : count is_end (trace s) = 0;
  boot_pool : ser = true -> count is_pool (trace s) = 0;
  boot_reacted : forall i, reacted (phase s i) = false
}.

(** ** The order of the two hooks of a settled test

    In the sequential strategy the handlers run inside the gated body, so
    the slot is given back after them; in the parallel strategy the gate's
    release hook was attached first and runs before them. *)
Definition wf (ser : bool) (p : Phase) : bool :=
  match p with
  | Refused re rl | Returned _ re rl => if ser then implb rl re else implb re rl
  | _ => true
  end.

Definition Wf (ser : bool) (s : State) : Prop :=
  forall i p, tasks s !! i = Some p -> wf ser p = true.

Definition idle (p : Phase) : bool :=
  match p with
  | Queued => true
  | Running => false
  | Refused re rl | Returned _ re rl => re && rl
  end.

(** A check of quiescence that computes. *)
Definition quiescentb (options : TestRunnerOptions) (s : State) : bool :=
  match exited s with
  | Some _ => true
  | None =>
      forallb idle (tasks s) &&
      (serial options ||
       match race s, run_promise s with
       | Some _, None => false
       | _, _ => true
       end)
  end.

Definition started (p : Phase) : bool :=
  match p with Running | Returned _ _ _ => true | _ => false end.

(** ** Sample errors and runs *)

Definition fatal_error : JsValue :=
  JsError "Error" (Some "ProcessTerminatedError") "worker crashed".

Definition plain_error : JsValue := JsError "Error" (Some "Error") "expected 1, got 2".

(** The watcher is never seen to be cleared. *)
Definition stays_interrupted (acts : list Action) : bool :=
  forallb (fun a => match a with WatcherChange false => false | _ => true end) acts.

(** No test has been let in so far. *)
Definition Shut (s : State) : Prop := watcher s = true /\ accepted (trace s) = [].

Definition two_tests : list Test := [mkTest "a.test.js"; mkTest "b.test.js"].

(** A sequential run that finds the watcher interrupted from the start. *)
Definition cancelled_in_band : State :=
  Eval vm_compute in
    default (InBand.init true)
      (runTests (mkGlobalConfig 2) two_tests true (mkOptions true)
         [React 0; Release 0; React 1; Release 1]).

(** A parallel run that completes. *)
Definition completed_parallel : State :=
  Eval vm_compute in
    default (Parallel.init (mkGlobalConfig 1) false)
      (runTests (mkGlobalConfig 1) two_tests false (mkOptions false)
         [Settle 0 (Fulfilled 7); Release 0; React 0;
          Settle 1 (Rejected plain_error); Release 1; React 1; Cleanup]).

(** A parallel run that is cancelled while the second test waits at the gate. *)
Definition cancelled_parallel : State :=
  Eval vm_compute in
    default (Parallel.init (mkGlobalConfig 1) false)
      (runTests (mkGlobalConfig 1) two_tests false (mkOptions false)
         [WatcherChange true; Cleanup; Settle 0 (Fulfilled 7); Release 0; React 0;
          Release 1; React 1]).

(** Three tests on two workers, the third one let in when the first
    finishes. *)
Definition three_tests : list Test :=
  [mkTest "a.test.js"; mkTest "b.test.js"; mkTest "c.test.js"].

Definition busy_parallel : State :=
  Eval vm_compute in
    default (Parallel.init (mkGlobalConfig 2) false)
      (runTests (mkGlobalConfig 2) three_tests false (mkOptions false)
         [Settle 0 (Fulfilled 7); Release 0]).

Definition busy_in_band : State :=
  Eval vm_compute in
    default (InBand.init false)
      (runTests (mkGlobalConfig 2) three_tests false (mkOptions true)
         [Settle 0 (Fulfilled 7); React 0; Release 0]).

Definition is_run_test (i : nat) (e : Effect) : bool :=
  match e with RunTest j => Nat.eqb i j | _ => false end.

(** Two tests in flight, the rejection of the first about to be handled. *)
Definition fault_pending : State :=
  Eval vm_compute in
    default (Parallel.init (mkGlobalConfig 2) false)
      (runTests (mkGlobalConfig 2) two_tests false (mkOptions false)
         [Settle 0 (Rejected fatal_error); Release 0]).

(** One worker: the first test has just been rejected with a fatal fault,
    the second one waits at the gate. *)
Definition fault_queued : State :=
  Eval vm_compute in
    default (Parallel.init (mkGlobalConfig 1) false)
      (runTests (mkGlobalConfig 1) two_tests false (mkOptions false)
         [Settle 0 (Rejected fatal_error)]).

Definition ordinary (e : JsValue) : bool :=
  match e with
  | JsUndefined => false
  | JsError _ ty _ => negb (Parallel.is_fatal ty)
  end.

(** A test has just failed in a sequential and in a parallel run. *)
Definition failed_in_band : State :=
  Eval vm_compute in
    default (InBand.init false)
      (runTests (mkGlobalConfig 2) two_tests false (mkOptions true)
         [Settle 0 (Rejected plain_error)]).

Definition failed_parallel : State :=
  Eval vm_compute in
    default (Parallel.init (mkGlobalConfig 2) false)
      (runTests (mkGlobalConfig 2) two_tests false (mkOptions false)
         [Settle 0 (Rejected plain_error); Release 0]).

(** The same two runs, gone on to their end. *)
Definition recovered_in_band : State :=
  Eval vm_compute in
    default (InBand.init false)
      (runTests (mkGlobalConfig 2) two_tests false (mkOptions true)
         [Settle 0 (Rejected plain_error); React 0; Release 0;
          Settle 1 (Fulfilled 7); React 1; Release 1]).

Definition recovered_parallel : State :=
  Eval vm_compute in
    default (Parallel.init (mkGlobalConfig 2) false)
      (runTests (mkGlobalConfig 2) two_tests false (mkOptions false)
         [Settle 0 (Rejected plain_error); Release 0; React 0;
          Settle 1 (Fulfilled 7); Release 1; React 1; Cleanup]).

(** ** Termination

    Every action but a change of the watcher uses up some of what is left
    to do. *)
Definition weight (p : Phase) : nat :=
  match p with
  | Queued => 4
  | Running => 3
  | Refused re rl | Returned _ re rl =>
      (if re then 0 else 1) + (if rl then 0 else 1)
  end.

Definition fuel (s : State) : nat :=
  list_sum (map weight (tasks s)) +
  match run_promise s with None => 1 | Some _ => 0 end.

Definition busy (a : Action) : bool := negb (is_watcher_change a).

Definition is_console (e : Effect) : bool :=
  match e with ConsoleError _ => true | _ => false end.

(** What the handler of a rejection of test [i] does when it escalates. *)
Definition escalation (i : nat) (e : Effect) : bool :=
  is_failure i e || is_console e || is_exit e.

(** ** One action, seen from outside

    What an action of either strategy does to the tests, the gate, the
    trace and the promise of the run. *)

Definition handlers (ser : bool) (i : nat) (r : Settled Result) : M (Settled unit) :=
  if ser then InBand.chain i r else Parallel.chain i r.

Inductive StepCase (ser : bool) (n : nat) (s s' : State) : Action -> Prop :=
| case_settle i r :
    tasks s !! i = Some Running ->
    s' = upd i (Returned r false false) [] s ->
    StepCase ser n s s' (Settle i r)
| case_react i p r :
    tasks s !! i = Some p ->
    settled_with ser p = Some (r, false, negb ser) ->
    tasks s' = <[i := InBand.mark p true (negb ser)]> (tasks s) ->
    trace s' = trace s ++ fst (handlers ser i r) ->
    gate s' = gate s ->
    watcher s' = watcher s ->
    run_promise s' = (if ser && Nat.eqb (S i) n then Some (Fulfilled tt) else run_promise s) ->
    StepCase ser n s s' (React i)
| case_release i p r :
    tasks s !! i = Some p ->
    settled_with ser p = Some (r, ser, false) ->
    s' = match Throat.release (gate s) with
         | (g, Some j) => enter ser j (set_gate g (upd i (InBand.mark p ser true) [] s))
         | (g, None) => set_gate g (upd i (InBand.mark p ser true) [] s)
         end ->
    StepCase ser n s s' (Release i)
| case_watcher b :
    tasks s' = tasks s -> trace s' = trace s -> gate s' = gate s ->
    watcher s' = b -> run_promise s' = run_promise s ->
    StepCase ser n s s' (WatcherChange b)
| case_cleanup :
    ser = false ->
    tasks s' = tasks s -> trace s' = trace s ++ [WorkerEnd] -> gate s' = gate s ->
    watcher s' = watcher s ->
    StepCase ser n s s' Cleanup.

(** The test an effect belongs to. *)
Definition test_of (e : Effect) : option nat :=
  match e with
  | IsInterrupted i _ | EmitStart i | EmitSuccess i _ | EmitFailure i _
  | RunTest i | WorkerCall i => Some i
  | _ => None
  end.

Definition indices (tr : list Effect) : list nat := omap test_of tr.

(** What a strategy does before it looks at the tests. *)
Definition is_boot (e : Effect) : bool :=
  match e with SetWorkerId | WorkerNew _ _ => true | _ => false end.

(** Sequential strategy: the one test that holds the slot is the one that
    had its turn last. *)
Definition Latest (s : State) : Prop :=
  forall i p, tasks s !! i = Some p -> holds p = true -> S i = turns s.

(** The executions that have settled are the ones the environment settled. *)
Definition Settled_by (acts : list Action) (s : State) : Prop :=
  forall i r re rl, tasks s !! i = Some (Returned r re rl) -> In (Settle i r) acts.

(** A run with no test at all, sequential and parallel. *)
Definition no_tests_in_band : State :=
  Eval vm_compute in
    default (InBand.init false)
      (runTests (mkGlobalConfig 2) [] false (mkOptions true) [WatcherChange true]).

Definition no_tests_parallel : State :=
  Eval vm_compute in
    default (Parallel.init (mkGlobalConfig 2) false)
      (runTests (mkGlobalConfig 2) [] false (mkOptions false) [WatcherChange true; Cleanup]).

(** The state kept by a run with no test. *)
Definition Empty_run (gc : GlobalConfig) (ser : bool) (s : State) : Prop :=
  tasks s = [] /\ exited s = None /\
  (ser = true -> trace s = [SetWorkerId] /\ run_promise s = Some (Fulfilled tt)) /\
  (ser = false ->
   race s = Some (Fulfilled tt) /\
   ((run_promise s = None /\ trace s = [WorkerNew (maxWorkers gc) 3]) \/
    (run_promise s = Some (Fulfilled tt) /\
     trace s = [WorkerNew (maxWorkers gc) 3; WorkerEnd]))).

(** ** A parallel run that is left alone

    The watcher is never interrupted and no execution is rejected with
    [undefined]. *)
Definition calm (a : Action) : bool :=
  match a with
  | WatcherChange true => false
  | Settle _ (Rejected JsUndefined) => false
  | _ => true
  end.

Definition proper (p : Phase) : bool :=
  match p with
  | Refused _ _ => false
  | Returned (Rejected JsUndefined) _ _ => false
  | _ => true
  end.

(** Some test has not been handled yet. *)
Definition Pending (s : State) : Prop :=
  watcher s = false /\ race s = None /\ run_promise s = None /\
  forall i p, tasks s !! i = Some p -> proper p = true.

Definition Calm (s : State) : Prop :=
  watcher s = false /\
  (forall i p, tasks s !! i = Some p -> proper p = true) /\
  (race s = None \/
   (race s = Some (Fulfilled tt) /\
    forall i p, tasks s !! i = Some p -> reacted p = true)) /\
  (run_promise s <> None -> race s <> None /\ exists tr, trace s = tr ++ [WorkerEnd]).

(** * jest-util: the fake timers of [packages/jest-util/src/FakeTimersLolex.js]

    The class wraps a clock of lolex.  What it does to the outside is
    recorded as a list of calls: on lolex ([install]), on the clock that
    [install] returned, and on the console of the test environment.  A
    clock is named by the number of clocks installed before it.  What the
    class reads from the outside ([Date.now()], the [now] of the clock, the
    answer of [countTimers()]) comes with the method that reads it.

    A method can end in three ways.  It returns; or lolex throws in the
    call that runs the timers ([tick], [runAll], [runToLast],
    [runMicrotasks]: a negative tick, the loop limit reached, a timer
    callback that throws) and the exception passes through the method to its
    caller; or the method calls a method of an [undefined] [_clock], a
    [TypeError] of the class's own making.  Whether lolex throws comes with
    the method, as the other answers of the outside do; the calls that run
    no timer ([install], [uninstall], [reset], [setSystemTime],
    [countTimers]) are taken to return.  The third way is the [None] of the
    monad. *)
Module FakeTimers.

Inductive Call :=
| Install (loopLimit now : Z)
| Uninstall (c : nat)
| ClockNow (c : nat)
| ClockReset (c : nat)
| RunAll (c : nat)
| RunToLast (c : nat)
| Tick (c : nat) (msToRun : Z)
| RunMicrotasks (c : nat)
| ClockSetSystemTime (c : nat) (now : option Z)
| CountTimers (c : nat)
| Warn.

Record t := mk {
  _clock : option nat;
  _fakingTime : bool;
  _maxLoops : Z;
  clocks : nat;
  calls : list Call
}.

(** How a piece of code ends: with a value, or with an exception of lolex. *)
Inductive Completion (A : Type) :=
| Returns (a : A)
| Throws.
Arguments Returns {A} a.
Arguments Throws {A}.

Definition F (A : Type) : Type := t -> option (Completion A * t).

Definition ret {A} (a : A) : F A := fun s => Some (Returns a, s).

Definition bind {A B} (m : F A) (k : A -> F B) : F B :=
  fun s =>
    match m s with
    | Some (Returns a, s') => k a s'
    | Some (Throws, s') => Some (Throws, s')
    | None => None
    end.

Notation "'let+' x := m 'in' k" := (bind m (fun x => k))
  (at level 10, x name, m at level 200, k at level 200, only parsing).

Definition call (c : Call) : F unit :=
  fun s => Some (Returns tt,
                 mk (_clock s) (_fakingTime s) (_maxLoops s) (clocks s) (calls s ++ [c])).

(** A call on the clock that runs timers: [threw] tells whether lolex threw. *)
Definition run (c : Call) (threw : bool) : F unit :=
  fun s => Some (if threw then Throws else Returns tt,
                 mk (_clock s) (_fakingTime s) (_maxLoops s) (clocks s) (calls s ++ [c])).

(** [this._clock], about to be used as the receiver of a call. *)
Definition clock : F nat :=
  fun s => match _clock s with Some c => Some (Returns c, s) | None => None end.

Definition fakingTime : F bool := fun s => Some (Returns (_fakingTime s), s).

Definition set_fakingTime (b : bool) : F unit :=
  fun s => Some (Returns tt, mk (_clock s) b (_maxLoops s) (clocks s) (calls s)).

(** [this._clock = this._lolex.install({loopLimit: this._maxLoops, now, ...})] *)
Definition install (now : Z) : F unit :=
  fun s => Some (Returns tt,
                 mk (Some (clocks s)) (_fakingTime s) (_maxLoops s) (S (clocks s))
                    (calls s ++ [Install (_maxLoops s) now])).

(** [constructor({global, config, maxLoops})]: [maxLoops || 100000]. *)
Definition new (maxLoops : option Z) : t :=
  mk None false
     (match maxLoops with
      | Some n => if (n =? 0)%Z then 100000%Z else n
      | None => 100000%Z
      end)
     0 [].

Definition _checkFakeTimers : F bool :=
  let+ faking := fakingTime in
  if negb faking then let+ _ := call Warn in ret faking else ret faking.

Definition clearAllTimers : F unit :=
  let+ faking := fakingTime in
  if faking then let+ c := clock in call (ClockReset c) else ret tt.

Definition useRealTimers : F unit :=
  let+ faking := fakingTime in
  if faking
  then let+ c := clock in let+ _ := call (Uninstall c) in set_fakingTime false
  else ret tt.

Definition dispose : F unit := useRealTimers.

Definition runAllTimers (threw : bool) : F unit :=
  let+ ok := _checkFakeTimers in
  if ok then let+ c := clock in run (RunAll c) threw else ret tt.

Definition runOnlyPendingTimers (threw : bool) : F unit :=
  let+ ok := _checkFakeTimers in
  if ok then let+ c := clock in run (RunToLast c) threw else ret tt.

Definition advanceTimersByTime (msToRun : Z) (threw : bool) : F unit :=
  let+ ok := _checkFakeTimers in
  if ok then let+ c := clock in run (Tick c msToRun) threw else ret tt.

Definition runAllTicks (threw : bool) : F unit :=
  let+ ok := _checkFakeTimers in
  if ok then let+ c := clock in run (RunMicrotasks c) threw else ret tt.

Definition useFakeTimers (dateNow : Z) : F unit :=
  let+ faking := fakingTime in
  if negb faking
  then let+ _ := install dateNow in set_fakingTime true
  else ret tt.

(** [clockNow] is what [const {now} = this._clock] reads. *)
Definition reset (clockNow : Z) : F unit :=
  let+ ok := _checkFakeTimers in
  if ok
  then let+ c := clock in
       let+ _ := call (ClockNow c) in
       let+ _ := call (ClockReset c) in
       let+ c' := clock in
       call (ClockSetSystemTime c' (Some clockNow))
  else ret tt.

Definition setSystemTime (now : option Z) : F unit :=
  let+ ok := _checkFakeTimers in
  if ok then let+ c := clock in call (ClockSetSystemTime c now) else ret tt.

(** [dateNow] is what [Date.now()] answers. *)
Definition getRealSystemTime (dateNow : Z) : F Z := ret dateNow.

(** [counted] is what [this._clock.countTimers()] answers. *)
Definition getTimerCount (counted : Z) : F Z :=
  let+ ok := _checkFakeTimers in
  if ok then let+ c := clock in let+ _ := call (CountTimers c) in ret counted
  else ret 0%Z.

(** A use of the object: one method call after the other.  [threw] tells
    whether lolex threw when the method had it run the timers. *)
Inductive Method :=
| ClearAllTimers
| Dispose
| RunAllTimers (threw : bool)
| RunOnlyPendingTimers (threw : bool)
| AdvanceTimersByTime (msToRun : Z) (threw : bool)
| RunAllTicks (threw : bool)
| UseRealTimers
| UseFakeTimers (dateNow : Z)
| Reset (clockNow : Z)
| SetSystemTime (now : option Z)
| GetRealSystemTime (dateNow : Z)
| GetTimerCount (counted : Z).

Definition skip (m : F unit) : F (option Z) := let+ _ := m in ret None.

Definition invoke (m : Method) : F (option Z) :=
  match m with
  | ClearAllTimers => skip clearAllTimers
  | Dispose => skip dispose
  | RunAllTimers threw => skip (runAllTimers threw)
  | RunOnlyPendingTimers threw => skip (runOnlyPendingTimers threw)
  | AdvanceTimersByTime ms threw => skip (advanceTimersByTime ms threw)
  | RunAllTicks threw => skip (runAllTicks threw)
  | UseRealTimers => skip useRealTimers
  | UseFakeTimers dateNow => skip (useFakeTimers dateNow)
  | Reset clockNow => skip (reset clockNow)
  | SetSystemTime now => skip (setSystemTime now)
  | GetRealSystemTime dateNow => let+ n := getRealSystemTime dateNow in ret (Some n)
  | GetTimerCount counted => let+ n := getTimerCount counted in ret (Some n)
  end.

(** The caller goes on after an exception of lolex. *)
Fixpoint exec (ms : list Method) (s : t) : option t :=
  match ms with
  | [] => Some s
  | m :: ms' =>
      match invoke m s with
      | Some (_, s') => exec ms' s'
      | None => None
      end
  end.

(** The discipline of the calls: [live] is the clock that is installed at
    the moment, [next] the name of the clock that [install] returns next. *)
Definition track (st : option nat * nat) (c : Call) : option (option nat * nat) :=
  let (live, next) := st in
  match c with
  | Install _ _ =>
      match live with None => Some (Some next, S next) | Some _ => None end
  | Uninstall c =>
      match live with
      | Some l => if Nat.eqb c l then Some (None, next) else None
      | None => None
      end
  | Warn =>
      match live with None => Some st | Some _ => None end
  | ClockNow c | ClockReset c | RunAll c | RunToLast c | Tick c _
  | RunMicrotasks c | ClockSetSystemTime c _ | CountTimers c =>
      match live with
      | Some l => if Nat.eqb c l then Some st else None
      | None => None
      end
  end.

Fixpoint tracks (st : option nat * nat) (cs : list Call) : option (option nat * nat) :=
  match cs with
  | [] => Some st
  | c :: cs' =>
      match track st c with
      | Some st' => tracks st' cs'
      | None => None
      end
  end.

(** The clock in use, if any. *)
Definition live (s : t) : option nat := if _fakingTime s then _clock s else None.

(** What holds of the object between two method calls. *)
Definition Ok (s : t) : Prop :=
  tracks (None, 0) (calls s) = Some (live s, clocks s) /\
  (_fakingTime s = true -> _clock s <> None).

(** The methods that warn when the timers are not faked. *)
Definition checks (m : Method) : bool :=
  match m with
  | ClearAllTimers | Dispose | UseRealTimers | UseFakeTimers _
  | GetRealSystemTime _ => false
  | _ => true
  end.

(** Whether lolex threw in the call of [m] that ran the timers. *)
Definition lolex_threw (m : Method) : bool :=
  match m with
  | RunAllTimers threw | RunOnlyPendingTimers threw
  | AdvanceTimersByTime _ threw | RunAllTicks threw => threw
  | _ => false
  end.

Definition is_install (c : Call) : bool :=
  match c with Install _ _ => true | _ => false end.

End FakeTimers.

(** * jest-cli: the helpers of the reporters ([reporters/utils.js])

    A string is the list of its UTF-16 code units, so that [length] is the
    [length] of JavaScript; a width is an integer.  The functions of Node's
    [path] module and [slash] are parameters. *)
Module Utils.

Definition Str := list N.

Definition ellipsis : N := 8230.
Definition solidus : N := 47.
Definition line_feed : N := 10.

(** [String.prototype.slice(start, end)] for integer arguments. *)
Definition slice (s : Str) (b e : Z) : Str :=
  let len := Z.of_nat (length s) in
  let from := if (b <? 0)%Z then Z.max (len + b) 0 else Z.min b len in
  let to := if (e <? 0)%Z then Z.max (len + e) 0 else Z.min e len in
  take (Z.to_nat (to - from)) (drop (Z.to_nat from) s).

Definition len (s : Str) : Z := Z.of_nat (length s).

(** What a component renders: text in a style. *)
Inductive Element :=
| Dim (children : Str)
| Bold (children : Str).

Definition children (e : Element) : Str :=
  match e with Dim s | Bold s => s end.

(** The text of a fragment, styles apart. *)
Definition text (es : list Element) : Str := concat (map children es).

Record Config := mkConfig { cwd : option Str; rootDir : Str }.

Section Paths.

Variable path_relative : Str -> Str -> Str.
Variable path_dirname : Str -> Str.
Variable path_basename : Str -> Str.
Variable slash : Str -> Str.

(** [relativePath]: [config.cwd || config.rootDir]; the pair is
    [{basename, dirname}]. *)
Definition relativePath (config : Config) (testPath : Str) : Str * Str :=
  let from := match cwd config with
              | Some (c :: cs) => c :: cs
              | _ => rootDir config
              end in
  let testPath := path_relative from testPath in
  let dirname := path_dirname testPath in
  let basename := path_basename testPath in
  (basename, dirname).

Definition FormattedPath (pad : Z) (config : Config) (testPath : Str) (columns : Z)
  : list Element :=
  let maxLength := (columns - pad)%Z in
  let relative := relativePath config testPath in
  let basename := fst relative in
  let dirname := snd relative in
  let dirname := slash dirname in
  if (len (dirname ++ [solidus] ++ basename) <=? maxLength)%Z
  then [Dim (dirname ++ [solidus]); Bold basename]
  else
    let basenameLength := len basename in
    if (basenameLength + 4 <? maxLength)%Z
    then
      let dirnameLength := (maxLength - 4 - basenameLength)%Z in
      let dirname := ellipsis :: slice dirname (len dirname - dirnameLength) (len dirname) in
      [Dim (dirname ++ [solidus]); Bold basename]
    else if (basenameLength + 4 =? maxLength)%Z
    then [Dim [ellipsis; solidus]; Bold basename]
    else [Bold (ellipsis :: slice basename (len basename - maxLength - 4) (len basename))].

End Paths.

End Utils.

(** ** [wrapAnsiString]

    The loops of the function are bounded by [fuel]; running out of it is
    [None]. *)
Module Wrap.

Import Utils.

Inductive Kind := KString | KAnsi.

Definition Token : Type := Kind * Str.

Definition is_escape (c : N) : bool := (c =? 27)%N || (c =? 155)%N.
Definition is_digit (c : N) : bool := (48 <=? c)%N && (c <=? 57)%N.
Definition is_bracket (c : N) : bool := (c =? 91)%N.
Definition is_m (c : N) : bool := (c =? 109)%N.

(** [/[\u001b\u009b]\[\d{1,2}m/] at the head of [l]: the length of the
    match.  The quantifier is greedy; since [m] is no digit, giving back
    the second digit never helps. *)
Definition match_here (l : Str) : option nat :=
  match l with
  | e :: b :: d :: x :: rest =>
      if is_escape e && is_bracket b && is_digit d
      then if is_digit x
           then match rest with
                | m :: _ => if is_m m then Some 5 else None
                | [] => None
                end
           else if is_m x then Some 4 else None
      else None
  | _ => None
  end.

(** The leftmost match in [l], which starts at index [i] of the string. *)
Fixpoint search (l : Str) (i : nat) : option (nat * nat) :=
  match match_here l with
  | Some n => Some (i, n)
  | None =>
      match l with
      | [] => None
      | _ :: l' => search l' (S i)
      end
  end.

(** [ANSI_REGEXP.exec(string)] with the regular expression's [lastIndex]:
    [match.index] and [match[0]]. *)
Definition exec (string : Str) (lastIndex : nat) : option (nat * Str) :=
  match search (drop lastIndex string) lastIndex with
  | Some (index, n) => Some (index, take n (drop index string))
  | None => None
  end.

(** [while ((match = ANSI_REGEXP.exec(string))) { ... }] *)
Fixpoint scan (fuel : nat) (string : Str) (tokens : list Token) (lastIndex : nat)
  : option (list Token * nat) :=
  match fuel with
  | 0 => None
  | S fuel' =>
      match exec string lastIndex with
      | Some (index, ansi) =>
          let tokens :=
            if negb (Nat.eqb index lastIndex)
            then tokens ++ [(KString, slice string (Z.of_nat lastIndex) (Z.of_nat index))]
            else tokens in
          let tokens := tokens ++ [(KAnsi, ansi)] in
          scan fuel' string tokens (index + length ansi)
      | None => Some (tokens, lastIndex)
      end
  end.

(** [lines[lines.length - 1] += x] *)
Fixpoint append_last (lines : list Str) (x : Str) : list Str :=
  match lines with
  | [] => []
  | [l] => [l ++ x]
  | l :: ls => l :: append_last ls x
  end.

(** [while (token.length) { ... }] *)
Fixpoint fill (fuel : nat) (terminalWidth : Z) (token : Str)
    (lines : list Str) (lastLineLength : Z) : option (list Str * Z) :=
  match fuel with
  | 0 => None
  | S fuel' =>
      if Nat.eqb (length token) 0
      then Some (lines, lastLineLength)
      else
        let chunk := slice token 0 (terminalWidth - lastLineLength) in
        let remaining := slice token (terminalWidth - lastLineLength) (len token) in
        let lines := append_last lines chunk in
        let lastLineLength := (lastLineLength + len chunk)%Z in
        let token := remaining in
        if negb (Nat.eqb (length token) 0)
        then fill fuel' terminalWidth token (lines ++ [[]]) 0
        else fill fuel' terminalWidth token lines lastLineLength
  end.

(** The callback of [tokens.reduce]; [lastLineLength] is the variable it
    closes over. *)
Definition reducer (fuel : nat) (terminalWidth : Z)
    (acc : option (list Str * Z)) (t : Token) : option (list Str * Z) :=
  match acc with
  | None => None
  | Some (lines, lastLineLength) =>
      match t with
      | (KString, token) =>
          if (terminalWidth <? lastLineLength + len token)%Z
          then fill fuel terminalWidth token lines lastLineLength
          else Some (append_last lines token, (lastLineLength + len token)%Z)
      | (KAnsi, token) => Some (append_last lines token, lastLineLength)
      end
  end.

(** [lines.join(sep)] *)
Fixpoint join (sep : Str) (lines : list Str) : Str :=
  match lines with
  | [] => []
  | [l] => l
  | l :: ls => l ++ sep ++ join sep ls
  end.

(** The tokens of [string]: the loop, then the rest of the string. *)
Definition tokenize (fuel : nat) (string : Str) : option (list Token) :=
  match scan fuel string [] 0 with
  | None => None
  | Some (tokens, lastIndex) =>
      Some (if negb (Z.of_nat lastIndex =? len string - 1)%Z
            then tokens ++ [(KString, slice string (Z.of_nat lastIndex) (len string))]
            else tokens)
  end.

Definition wrapAnsiString (fuel : nat) (string : Str) (terminalWidth : Z) : option Str :=
  if (terminalWidth =? 0)%Z
  then Some string
  else
    match tokenize fuel string with
    | None => None
    | Some tokens =>
        match fold_left (reducer fuel terminalWidth) tokens (Some ([[]], 0%Z)) with
        | Some (lines, _) => Some (join [line_feed] lines)
        | None => None
        end
    end.

(** A line made of escape sequences and of [n] code units of text. *)
Inductive Line : Str -> Z -> Prop :=
| line_empty : Line [] 0
| line_text l n t : Line l n -> Line (l ++ t) (n + len t)
| line_escape l n a : Line l n -> match_here a = Some (length a) -> Line (l ++ a) n.

(** Where the last escape sequence of [string] ends; 0 when it has none. *)
Definition last_escape_end (string : Str) : nat :=
  match scan (S (length string)) string [] 0 with
  | Some (_, lastIndex) => lastIndex
  | None => 0
  end.

(** What the function keeps of [string]. *)
Definition kept (string : Str) : Str :=
  if decide (S (last_escape_end string) = length string)
  then take (last_escape_end string) string
  else string.

(** The tokens of [string], with fuel enough for the loop. *)
Definition tokens_of (string : Str) : list Token :=
  default [] (tokenize (S (length string)) string).

(** How much of a list of tokens is text. *)
Definition text_length (tokens : list Token) : Z :=
  fold_right (fun t n => match t with (KString, x) => (len x + n)%Z | _ => n end) 0%Z tokens.

(** An [ansi] token is one whole escape sequence. *)
Definition token_ok (t : Token) : Prop :=
  match t with
  | (KAnsi, a) => match_here a = Some (length a)
  | (KString, _) => True
  end.

(** The lines so far: all but the last are full, the last holds
    [lastLineLength] code units of text. *)
Definition Wrapped (terminalWidth : Z) (lines : list Str) (lastLineLength : Z) : Prop :=
  (0 <= lastLineLength <= terminalWidth)%Z /\
  exists init l,
    lines = init ++ [l] /\ Line l lastLineLength /\
    Forall (fun x => Line x terminalWidth) init.

(** The text on the lines so far, a full line counted by the width. *)
Definition text_of (terminalWidth : Z) (lines : list Str) (lastLineLength : Z) : Z :=
  (Z.of_nat (length lines - 1) * terminalWidth + lastLineLength)%Z.

(** Fuel enough for the inner loop. *)
Definition need (terminalWidth : Z) (token : Str) (lastLineLength : Z) : nat :=
  2 * length token + (if (lastLineLength =? terminalWidth)%Z then 1 else 0) + 1.

End Wrap.

(** ** Lists *)

Lemma filter_length_insert {A} (f : A -> bool) (l : list A) i x y :
  l !! i = Some x ->
  length (List.filter f (<[i:=y]> l)) + (if f x then 1 else 0)
  = length (List.filter f l) + (if f y then 1 else 0).
Proof.
  revert i. induction l as [|a l IH]; intros [|i] H; simplify_eq/=.
  - destruct (f x), (f y); simpl; lia.
  - specialize (IH _ H). destruct (f a); simpl; lia.
Qed.

Lemma filter_length_same {A} (f : A -> bool) (l : list A) i x y :
  l !! i = Some x -> f x = f y ->
  length (List.filter f (<[i:=y]> l)) = length (List.filter f l).
Proof.
  intros H E. pose proof (filter_length_insert f l i x y H) as L.
  rewrite E in L. destruct (f y); lia.
Qed.

Lemma filter_length_snoc {A} (f : A -> bool) (l : list A) x :
  f x = false -> length (List.filter f (l ++ [x])) = length (List.filter f l).
Proof.
  intros E. rewrite List.filter_app, length_app. simpl. rewrite E. simpl. lia.
Qed.

Lemma seq_snoc (a k : nat) : seq a (S k) = seq a k ++ [a + k].
Proof. rewrite seq_S. reflexivity. Qed.

Lemma count_app (f : Effect -> bool) (l1 l2 : list Effect) :
  count f (l1 ++ l2) = count f l1 + count f l2.
Proof. unfold count. rewrite List.filter_app, length_app. reflexivity. Qed.

(** ** The gate invariant is kept *)

Lemma about_only i k e : only i e = true -> k <> i -> about k e = false.
Proof.
  destruct e; simpl; auto; intros E N; apply Nat.eqb_eq in E; subst;
    apply Nat.eqb_neq; auto.
Qed.

Lemma filter_about_only i k evs :
  forallb (only i) evs = true -> k <> i -> List.filter (about k) evs = [].
Proof.
  induction evs as [|e evs IH]; simpl; auto.
  intros H N. apply andb_true_iff in H as [H1 H2].
  rewrite (about_only i k e H1 N). auto.
Qed.

Lemma phase_upd s i p evs k :
  i < length (tasks s) ->
  phase (upd i p evs s) k = if decide (k = i) then p else phase s k.
Proof.
  intros L. unfold phase, upd. simpl. case_decide.
  - subst. rewrite list_lookup_insert_eq; auto.
  - rewrite list_lookup_insert_ne; auto.
Qed.

Lemma phase_lookup s i p : tasks s !! i = Some p -> phase s i = p.
Proof. unfold phase. intros ->. reflexivity. Qed.

Lemma hist_upd serial s i p evs :
  (forall k, List.filter (about k) (trace s) = history serial k (phase s k)) ->
  i < length (tasks s) ->
  forallb (only i) evs = true ->
  history serial i p = history serial i (phase s i) ++ List.filter (about i) evs ->
  forall k, List.filter (about k) (trace (upd i p evs s))
            = history serial k (phase (upd i p evs s) k).
Proof.
  intros H L O E k. rewrite phase_upd by auto. simpl.
  rewrite List.filter_app, H. case_decide.
  - subst. rewrite E. reflexivity.
  - rewrite (filter_about_only i k evs O) by auto. apply app_nil_r.
Qed.

(** A test that holds its slot moves on: the gate and the order of the
    turns are not concerned. *)
Lemma inv_upd serial K s i p p' evs :
  Inv serial K s ->
  tasks s !! i = Some p ->
  p <> Queued -> p' <> Queued ->
  holds p' = holds p ->
  forallb (only i) evs = true ->
  history serial i p' = history serial i p ++ List.filter (about i) evs ->
  attempts evs = [] -> starts evs = [] -> dispatches evs = [] ->
  Inv serial K (upd i p' evs s).
Proof.
  intros I Hi Np Np' Hh O E A1 A2 A3.
  assert (i < length (tasks s)) as L by (eapply lookup_lt_Some; eauto).
  assert (turns (upd i p' evs s) = turns s) as Ad
    by (unfold turns; simpl; rewrite length_insert; reflexivity).
  assert (accepted evs = []) as A4.
  { clear -A1. induction evs as [|e evs IH]; auto. destruct e; simpl in *;
      try discriminate; auto. }
  destruct I. constructor; rewrite ?Ad; simpl; rewrite ?length_insert; auto.
  - apply hist_upd; auto. rewrite (phase_lookup _ _ _ Hi). auto.
  - intros k q Hk. destruct (decide (k = i)) as [->|N].
    + rewrite list_lookup_insert_eq in Hk by auto. simplify_eq.
      split; [contradiction|]. intros Q. apply (inv_queued0 _ _ Hi) in Q. contradiction.
    + rewrite list_lookup_insert_ne in Hk by auto. auto.
  - unfold holding. simpl. rewrite (filter_length_same holds _ _ p p'); auto.
  - unfold attempts in *. rewrite omap_app, A1, app_nil_r. auto.
  - unfold starts, accepted in *. rewrite !omap_app, A2, A4, !app_nil_r. auto.
  - unfold dispatches, accepted in *. rewrite !omap_app, A3, A4, !app_nil_r. auto.
Qed.

Lemma enter_eq serial j s :
  enter serial j s =
  if watcher s
  then upd j (Refused false false) [IsInterrupted j true] s
  else upd j Running [IsInterrupted j false; EmitStart j; exec_effect serial j] s.
Proof. destruct serial; reflexivity. Qed.

Lemma inv_enter serial K s g j :
  Pre serial K s g j -> Inv serial K (enter serial j (set_gate g s)).
Proof.
  intros [Hh Hj Hl Hq Hd Hs Hf Ha Hst Hdi].
  assert (j < length (tasks s)) as L by (eapply lookup_lt_Some; eauto).
  rewrite enter_eq. simpl.
  set (p' := if watcher s then Refused false false else Running).
  set (evs := if watcher s then [IsInterrupted j true]
              else [IsInterrupted j false; EmitStart j; exec_effect serial j]).
  assert ((if watcher s
           then upd j (Refused false false) [IsInterrupted j true] (set_gate g s)
           else upd j Running [IsInterrupted j false; EmitStart j; exec_effect serial j]
                  (set_gate g s)) = upd j p' evs (set_gate g s)) as ->
    by (unfold p', evs; destruct (watcher s); reflexivity).
  assert (turns (upd j p' evs (set_gate g s)) = S j) as Ad
    by (unfold turns; simpl; rewrite length_insert; lia).
  assert (p' <> Queued /\ holds p' = true) as [Np Hp]
    by (unfold p'; destruct (watcher s); split; auto; discriminate).
  assert (forallb (only j) evs = true) as O.
  { unfold evs. destruct (watcher s), serial; simpl; rewrite ?Nat.eqb_refl; reflexivity. }
  assert (history serial j p' = List.filter (about j) evs) as E.
  { unfold evs, p'. destruct (watcher s), serial; simpl; rewrite ?Nat.eqb_refl; reflexivity. }
  assert (attempts evs = [j]) as A1 by (unfold evs; destruct (watcher s), serial; reflexivity).
  assert (starts evs = accepted evs /\ dispatches evs = accepted evs) as [A2 A3]
    by (unfold evs; destruct (watcher s), serial; split; reflexivity).
  constructor; rewrite ?Ad; simpl; rewrite ?length_insert; auto; try lia.
  - apply (hist_upd serial (set_gate g s)); auto.
    unfold phase. simpl. rewrite Hj. simpl. auto.
  - intros k q Hk. destruct (decide (k = j)) as [->|N].
    + rewrite list_lookup_insert_eq in Hk by auto. simplify_eq. split; [contradiction | lia].
    + rewrite list_lookup_insert_ne in Hk by auto. rewrite (Hd _ _ Hk). lia.
  - unfold holding in *. simpl.
    pose proof (filter_length_insert holds (tasks s) j Queued p' Hj) as F.
    rewrite Hp in F. simpl in F. lia.
  - change (0 :: seq 1 j) with (seq 0 (S j)).
    unfold attempts in *. rewrite omap_app, Ha, A1, seq_snoc. reflexivity.
  - unfold starts, accepted in *. rewrite !omap_app, Hst, A2. reflexivity.
  - unfold dispatches, accepted in *. rewrite !omap_app, Hdi, A3. reflexivity.
Qed.

Lemma phase_push s k : phase (push_task s) k = phase s k.
Proof.
  unfold phase, push_task. simpl.
  destruct (decide (k < length (tasks s))) as [L|L].
  - rewrite lookup_app_l by auto. reflexivity.
  - rewrite lookup_app_r by lia. rewrite (lookup_ge_None_2 (tasks s)) by lia.
    destruct (k - length (tasks s)); reflexivity.
Qed.

Lemma lookup_push (l : list Phase) i p :
  (l ++ [Queued]) !! i = Some p ->
  (i < length l /\ l !! i = Some p) \/ (i = length l /\ p = Queued).
Proof.
  intros H. destruct (decide (i < length l)) as [L|L].
  - rewrite lookup_app_l in H by auto. auto.
  - rewrite lookup_app_r in H by lia.
    destruct (i - length l) eqn:E; simpl in H; [|discriminate].
    simplify_eq. right. split; auto. lia.
Qed.

Lemma inv_mutex_call serial K s t :
  Inv serial K s -> Inv serial K (mutex_call serial s t).
Proof.
  intros I.
  assert (mutex_call serial s t =
          match Throat.run (gate s) (length (tasks s)) with
          | (g, true) => enter serial (length (tasks s)) (set_gate g (push_task s))
          | (g, false) => set_gate g (push_task s)
          end) as -> by (destruct serial; reflexivity).
  destruct I as [Hh Hl Hq Hd Hs Hf Ha Hst Hdi].
  unfold Throat.run. destruct (Throat.size (gate s)) as [|n'] eqn:Sz.
  - (* no free slot: the call is parked *)
    assert (turns (set_gate (Throat.mk 0 (Throat.queue (gate s) ++ [length (tasks s)]))
                        (push_task s)) = turns s) as Ad
      by (unfold turns; simpl; rewrite !length_app; simpl; lia).
    constructor; rewrite ?Ad; simpl; rewrite ?length_app; simpl; auto; try lia.
    + intros k. specialize (Hh k). rewrite <- (phase_push s k) in Hh. exact Hh.
    + rewrite Nat.add_1_r, seq_snoc, <- Hq. f_equal. f_equal. unfold turns. lia.
    + intros k q Hk. apply lookup_push in Hk as [[L Hk]|[-> ->]]; auto.
      split; auto. intros _. unfold turns. lia.
    + unfold holding in *. simpl. rewrite filter_length_snoc by reflexivity. lia.
  - (* a free slot: the body runs at once *)
    assert (Throat.queue (gate s) = []) as Q.
    { destruct (Throat.queue (gate s)) eqn:E; auto.
      assert (S n' = 0) by (apply Hf; discriminate). discriminate. }
    assert (turns s = length (tasks s)) as Ad
      by (unfold turns; rewrite Q; simpl; lia).
    apply inv_enter. constructor; simpl; rewrite ?length_app; simpl; auto; try lia.
    + intros k. specialize (Hh k). rewrite <- (phase_push s k) in Hh. exact Hh.
    + rewrite lookup_app_r by lia. rewrite Nat.sub_diag. reflexivity.
    + rewrite Q. simpl. lia.
    + rewrite Q. reflexivity.
    + intros k q Hk. apply lookup_push in Hk as [[L Hk]|[-> ->]].
      * rewrite (Hd _ _ Hk), Ad. lia.
      * split; auto.
    + unfold holding in *. simpl. rewrite filter_length_snoc by reflexivity. lia.
    + rewrite Q. intros C. contradiction.
    + rewrite Ha, Ad. reflexivity.
Qed.

Lemma holds_not_queued p : holds p = true -> p <> Queued.
Proof. intros H ->. discriminate. Qed.

(** The release hook: the slot of test [i] goes back to the gate, which
    hands it to the oldest parked call. *)
Lemma inv_release serial K s i p p' :
  Inv serial K s ->
  tasks s !! i = Some p ->
  holds p = true -> holds p' = false -> p' <> Queued ->
  history serial i p' = history serial i p ->
  Inv serial K
    (match Throat.release (gate s) with
     | (g, Some j) => enter serial j (set_gate g (upd i p' [] s))
     | (g, None) => set_gate g (upd i p' [] s)
     end).
Proof.
  intros I Hi Hp Hp' Np' E.
  assert (i < length (tasks s)) as L by (eapply lookup_lt_Some; eauto).
  pose proof (holds_not_queued _ Hp) as Np.
  destruct I as [Hh Hl Hq Hd Hs Hf Ha Hst Hdi].
  assert (i < turns s) as Li.
  { destruct (decide (turns s <= i)) as [C|C]; [|lia].
    apply (Hd _ _ Hi) in C. contradiction. }
  assert (S (holding (upd i p' [] s)) = holding s) as Hold.
  { unfold holding. simpl.
    pose proof (filter_length_insert holds (tasks s) i p p' Hi) as F.
    rewrite Hp, Hp' in F. lia. }
  assert (forall k, List.filter (about k) (trace (upd i p' [] s))
                    = history serial k (phase (upd i p' [] s) k)) as Hh'.
  { apply hist_upd; auto. rewrite (phase_lookup _ _ _ Hi), E. simpl.
    rewrite app_nil_r. reflexivity. }
  unfold Throat.release. destruct (Throat.queue (gate s)) as [|j q] eqn:Q.
  - assert (turns (set_gate (Throat.mk (S (Throat.size (gate s))) []) (upd i p' [] s))
            = turns s) as Ad
      by (unfold turns; simpl; rewrite length_insert, Q; reflexivity).
    constructor; rewrite ?Ad; auto.
    + simpl. lia.
    + intros k r Hk. simpl in Hk. destruct (decide (k = i)) as [->|N].
      * rewrite list_lookup_insert_eq in Hk by auto. simplify_eq.
        split; [contradiction | lia].
      * rewrite list_lookup_insert_ne in Hk by auto. auto.
    + simpl. change (holding _) with (holding (upd i p' [] s)). lia.
    + simpl. intros C. contradiction.
    + simpl. rewrite app_nil_r. auto.
    + simpl. rewrite app_nil_r. auto.
    + simpl. rewrite app_nil_r. auto.
  - simpl in Hq. injection Hq as Hj Hq'.
    assert (turns s + S (length q) = length (tasks s)) as Len
      by (unfold turns; rewrite Q; simpl in *; lia).
    apply inv_enter. constructor; simpl; rewrite ?length_insert, ?app_nil_r; auto; try lia.
    + intros k. specialize (Hh' k). simpl in Hh'. rewrite app_nil_r in Hh'. exact Hh'.
    + rewrite list_lookup_insert_ne by lia.
      destruct (tasks s !! j) as [r|] eqn:Hr.
      * f_equal. apply (Hd _ _ Hr). lia.
      * apply lookup_ge_None in Hr. lia.
    + rewrite Hj. exact Hq'.
    + intros k r Hk. destruct (decide (k = i)) as [->|N].
      * rewrite list_lookup_insert_eq in Hk by auto. simplify_eq.
        split; [contradiction | lia].
      * rewrite list_lookup_insert_ne in Hk by auto. rewrite (Hd _ _ Hk). lia.
    + rewrite Ha, Hj. reflexivity.
Qed.

Lemma inv_frame serial K s s' :
  gate s' = gate s -> tasks s' = tasks s -> trace s' = trace s ->
  Inv serial K s -> Inv serial K s'.
Proof.
  destruct s, s'. simpl. intros -> -> -> [Hh Hl Hq Hd Hs Hf Ha Hst Hdi].
  constructor; auto.
Qed.

Lemma inv_log_end serial K s : Inv serial K s -> Inv serial K (log [WorkerEnd] s).
Proof.
  intros [Hh Hl Hq Hd Hs Hf Ha Hst Hdi]. constructor; auto.
  - intros i. simpl. rewrite List.filter_app. simpl. rewrite app_nil_r. apply Hh.
  - simpl. unfold attempts in *. rewrite omap_app. simpl. rewrite app_nil_r. apply Ha.
  - simpl. unfold starts, accepted in *. rewrite !omap_app. simpl.
    rewrite !app_nil_r. apply Hst.
  - simpl. unfold dispatches, accepted in *. rewrite !omap_app. simpl.
    rewrite !app_nil_r. apply Hdi.
Qed.

(** What the handlers of a settled test do to the trace. *)
Lemma inband_chain i r :
  InBand.chain i r = ([terminal i r], Val (Fulfilled tt)).
Proof. destruct r; reflexivity. Qed.

Lemma parallel_chain i r :
  Parallel.chain i r =
  match r with
  | Fulfilled result => ([EmitSuccess i result], Val (Fulfilled tt))
  | Rejected JsUndefined => ([EmitFailure i JsUndefined], Val (Rejected TypeError))
  | Rejected e =>
      if fatal e
      then ([EmitFailure i e; ConsoleError Parallel.fatal_message; Exit 1], Halt 1%Z)
      else ([EmitFailure i e], Val (Fulfilled tt))
  end.
Proof.
  destruct r as [a|[|nm ty msg]]; try reflexivity.
  unfold Parallel.chain, Parallel.onError, fatal. simpl.
  destruct (Parallel.is_fatal ty); reflexivity.
Qed.

Lemma chain_events (serial : bool) i r evs x :
  (if serial then InBand.chain i r else Parallel.chain i r) = (evs, x) ->
  forallb (only i) evs = true /\ List.filter (about i) evs = [terminal i r] /\
  attempts evs = [] /\ starts evs = [] /\ dispatches evs = [].
Proof.
  destruct serial.
  - rewrite inband_chain. intros [= <- <-].
    destruct r; simpl; rewrite Nat.eqb_refl; auto.
  - rewrite parallel_chain. destruct r as [a|[|nm ty msg]].
    + intros [= <- <-]. simpl. rewrite Nat.eqb_refl. auto.
    + intros [= <- <-]. simpl. rewrite Nat.eqb_refl. auto.
    + destruct (fatal _); intros [= <- <-]; simpl; rewrite Nat.eqb_refl; auto.
Qed.

Lemma settled_with_inv serial p r re rl :
  settled_with serial p = Some (r, re, rl) ->
  (p = Refused re rl /\ r = Rejected (cancel_reason serial)) \/ p = Returned r re rl.
Proof.
  destruct serial, p; simpl; intros H; simplify_eq; auto.
Qed.

(** The handlers of test [i] run while it still holds ([rl = false], the
    sequential order) or after it gave back ([rl = true], the parallel
    order) its slot. *)
Lemma inv_react serial K s i p r rl evs x :
  Inv serial K s ->
  tasks s !! i = Some p ->
  settled_with serial p = Some (r, false, rl) ->
  (if serial then InBand.chain i r else Parallel.chain i r) = (evs, x) ->
  Inv serial K (upd i (InBand.mark p true rl) evs s).
Proof.
  intros I Hi Hs Hc.
  apply chain_events in Hc as (O & F & A1 & A2 & A3).
  apply settled_with_inv in Hs as [[-> ->]| ->].
  - apply (inv_upd serial K s i (Refused false rl)); auto; try discriminate.
    rewrite F. reflexivity.
  - apply (inv_upd serial K s i (Returned r false rl)); auto; try discriminate.
    rewrite F. simpl. reflexivity.
Qed.

Lemma inv_settle serial K s i r :
  Inv serial K s -> tasks s !! i = Some Running ->
  Inv serial K (upd i (Returned r false false) [] s).
Proof.
  intros I Hi. apply (inv_upd serial K s i Running); auto; discriminate.
Qed.

Lemma inv_step K tests options s a s' :
  Inv (serial options) K s -> step tests options s a = Some s' ->
  Inv (serial options) K s'.
Proof.
  intros I. unfold step. destruct (serial options) eqn:Ser.
  - (* sequential *)
    unfold InBand.step. destruct (exited s); [discriminate|].
    destruct a as [i r|i|i|b|].
    + destruct (tasks s !! i) as [[]|] eqn:Hi; try discriminate.
      intros [= <-]. apply inv_settle; auto.
    + destruct (tasks s !! i) as [p|] eqn:Hi; try discriminate.
      destruct (InBand.settled_with p) as [[[r re] rl]|] eqn:Hs; try discriminate.
      destruct re, rl; try discriminate.
      destruct (InBand.chain i r) as [evs [v|c]] eqn:Hc; intros [= <-].
      * assert (Inv true K (upd i (InBand.mark p true false) evs s)) as I'
          by (eapply (inv_react true); eauto).
        match goal with |- context [if ?b then _ else _] => destruct b end; auto.
        eapply inv_frame; [..|exact I']; reflexivity.
      * eapply inv_frame; [..|eapply (inv_react true); eauto]; reflexivity.
    + destruct (tasks s !! i) as [p|] eqn:Hi; try discriminate.
      destruct (InBand.settled_with p) as [[[r re] rl]|] eqn:Hs; try discriminate.
      destruct re, rl; try discriminate.
      pose proof (inv_release true K s i p (InBand.mark p true true) I Hi) as R.
      apply (settled_with_inv true) in Hs as [[-> ->]| ->];
        (simpl in R; specialize (R eq_refl eq_refl ltac:(discriminate) eq_refl);
         simpl; destruct (Throat.release (gate s)) as [g [j|]]; intros [= <-]; exact R).
    + intros [= <-]. eapply inv_frame; [..|exact I]; reflexivity.
    + discriminate.
  - (* parallel *)
    unfold Parallel.step. destruct (exited s); [discriminate|].
    destruct a as [i r|i|i|b|].
    + destruct (tasks s !! i) as [[]|] eqn:Hi; try discriminate.
      intros [= <-]. apply inv_settle; auto.
    + destruct (tasks s !! i) as [p|] eqn:Hi; try discriminate.
      destruct (Parallel.settled_with p) as [[[r re] rl]|] eqn:Hs; try discriminate.
      destruct re, rl; try discriminate.
      destruct (Parallel.chain i r) as [evs [v|c]] eqn:Hc; intros [= <-].
      * assert (Inv false K (upd i (InBand.mark p true true) evs s)) as I'
          by (eapply (inv_react false); eauto).
        unfold Parallel.settle_all, Parallel.mark.
        destruct (race _); auto.
        destruct v; [destruct (_ && _)|]; auto;
          (eapply inv_frame; [..|exact I']; reflexivity).
      * eapply inv_frame; [..|eapply (inv_react false); eauto]; reflexivity.
    + destruct (tasks s !! i) as [p|] eqn:Hi; try discriminate.
      destruct (Parallel.settled_with p) as [[[r re] rl]|] eqn:Hs; try discriminate.
      destruct re, rl; try discriminate.
      pose proof (inv_release false K s i p (InBand.mark p false true) I Hi) as R.
      apply (settled_with_inv false) in Hs as [[-> ->]| ->];
        (simpl in R; specialize (R eq_refl eq_refl ltac:(discriminate) eq_refl);
         simpl; destruct (Throat.release (gate s)) as [g [j|]]; intros [= <-]; exact R).
    + intros [= <-]. destruct b; simpl; [destruct (race s)|];
        (eapply inv_frame; [..|exact I]; reflexivity).
    + destruct (race s) as [r|]; try discriminate.
      destruct (run_promise s); try discriminate.
      destruct r; simpl; intros [= <-];
        (eapply inv_frame; [..|apply inv_log_end; exact I]; reflexivity).
Qed.

Lemma inv_exec K tests options acts : forall s s',
  Inv (serial options) K s -> exec tests options s acts = Some s' ->
  Inv (serial options) K s'.
Proof.
  induction acts as [|a acts IH]; simpl; intros s s' I H.
  - injection H as <-. exact I.
  - destruct (step tests options s a) as [s1|] eqn:E; [|discriminate].
    eapply IH; [|exact H]. eapply inv_step; eauto.
Qed.

Lemma inv_fold serial K tests : forall s,
  Inv serial K s -> Inv serial K (fold_left (mutex_call serial) tests s).
Proof.
  induction tests as [|t tests IH]; simpl; intros s I; auto.
  apply IH. apply inv_mutex_call. exact I.
Qed.

Lemma inv_init serial K w e :
  (forall i, about i e = false) ->
  attempts [e] = [] -> starts [e] = [] -> dispatches [e] = [] ->
  Inv serial K (mkState w (Throat.make K) [] None None None [e]).
Proof.
  intros A A1 A2 A3.
  assert (accepted [e] = []) as A4 by (destruct e; try reflexivity; discriminate A1).
  constructor; simpl.
  - intros i. rewrite A. reflexivity.
  - lia.
  - reflexivity.
  - intros i p H. rewrite lookup_nil in H. discriminate.
  - unfold holding. simpl. lia.
  - intros C. contradiction.
  - exact A1.
  - change (starts [e] = accepted [e]). congruence.
  - change (dispatches [e] = accepted [e]). congruence.
Qed.

Lemma inv_start gc tests w options :
  Inv (serial options) (width gc options) (start gc tests w options).
Proof.
  unfold start, width. destruct (serial options).
  - unfold InBand.start.
    assert (Inv true 1 (fold_left InBand.mutex_call tests (InBand.init w))) as I
      by (apply (inv_fold true), inv_init; reflexivity).
    destruct tests; auto. eapply inv_frame; [..|exact I]; reflexivity.
  - unfold Parallel.start.
    assert (Inv false (maxWorkers gc)
              (fold_left Parallel.mutex_call tests (Parallel.init gc w))) as I
      by (apply (inv_fold false), inv_init; reflexivity).
    destruct tests; auto. eapply inv_frame; [..|exact I]; reflexivity.
Qed.

Theorem reachable_inv gc tests w options acts s :
  runTests gc tests w options acts = Some s ->
  Inv (serial options) (width gc options) s.
Proof.
  intros H. eapply inv_exec; [apply inv_start | exact H].
Qed.

(** ** The promise invariant is kept *)

Lemma forallb_reacted s :
  forallb reacted (tasks s) = true <->
  (forall i, i < length (tasks s) -> reacted (phase s i) = true).
Proof.
  unfold phase. rewrite forallb_forall. split.
  - intros H i L. destruct (lookup_lt_is_Some_2 _ _ L) as [p Hp]. rewrite Hp. simpl.
    apply H. apply list_elem_of_In. eapply list_elem_of_lookup_2; eauto.
  - intros H p Hp. apply list_elem_of_In, list_elem_of_lookup in Hp as [i Hi].
    specialize (H i (lookup_lt_Some _ _ _ Hi)). rewrite Hi in H. exact H.
Qed.

(** A test moves on without its handlers running and without touching the
    promises. *)
Lemma live_upd ser n s i p' evs :
  Live ser n s ->
  exited s = None ->
  (reacted p' = true -> reacted (phase s i) = true) ->
  count is_exit evs = 0 -> count is_end evs = 0 ->
  (ser = true -> count is_pool evs = 0) ->
  Live ser n (upd i p' evs s).
Proof.
  intros [Hl Hp Hr He Hs Hq] Ex Re C1 C2 C3.
  assert (forall k, reacted (phase (upd i p' evs s) k) = true ->
                    reacted (phase s k) = true) as Mono.
  { intros k. destruct (decide (i < length (tasks s))) as [L|L].
    - rewrite phase_upd by auto. case_decide; subst; auto.
    - unfold phase, upd. simpl. rewrite list_insert_ge by lia. auto. }
  constructor; simpl; auto.
  - rewrite length_insert. auto.
  - intros _. rewrite count_app, C1, Hr; auto.
  - intros c Hc. rewrite Ex in Hc. discriminate.
  - intros S. destruct (Hs S) as [P1 P2]. split.
    + rewrite count_app, P1, C3; auto.
    + intros [Hz|R]; apply P2; auto.
  - intros S. destruct (Hq S) as (P1 & P2 & P3). split; [|split]; auto.
    rewrite count_app, P1, C2. lia.
Qed.

Lemma live_frame ser n s s' :
  tasks s' = tasks s -> trace s' = trace s -> race s' = race s ->
  run_promise s' = run_promise s -> exited s' = exited s ->
  Live ser n s -> Live ser n s'.
Proof.
  destruct s, s'. simpl. intros -> -> -> -> -> H. destruct H. constructor; auto.
Qed.

Lemma enter_upd ser j s :
  exists p' evs,
    enter ser j s = upd j p' evs s /\ reacted p' = false /\
    count is_exit evs = 0 /\ count is_end evs = 0 /\
    (ser = true -> count is_pool evs = 0).
Proof.
  rewrite enter_eq. destruct (watcher s).
  - exists (Refused false false), [IsInterrupted j true]. auto.
  - exists Running, [IsInterrupted j false; EmitStart j; exec_effect ser j].
    repeat split; auto; destruct ser; auto; discriminate.
Qed.

Lemma live_enter ser n s g j :
  Live ser n s -> exited s = None ->
  Live ser n (enter ser j (set_gate g s)).
Proof.
  intros H Ex.
  destruct (enter_upd ser j (set_gate g s)) as (p' & evs & -> & R & C1 & C2 & C3).
  apply live_upd; auto.
  - eapply live_frame; [..|exact H]; reflexivity.
  - rewrite R. discriminate.
Qed.

Lemma reacted_mark p re rl : 
  p <> Queued -> p <> Running -> reacted (InBand.mark p re rl) = re.
Proof. destruct p; simpl; auto; contradiction. Qed.

Lemma settled_with_phase (ser : bool) p r re rl :
  settled_with ser p = Some (r, re, rl) ->
  p <> Queued /\ p <> Running /\ reacted p = re.
Proof. destruct ser, p; simpl; intros H; simplify_eq; auto. Qed.

Lemma parallel_chain_val i r evs v :
  Parallel.chain i r = (evs, Val v) ->
  evs = [terminal i r] /\
  (v = Fulfilled tt \/ (r = Rejected JsUndefined /\ v = Rejected TypeError)).
Proof.
  rewrite parallel_chain. destruct r as [a|[|nm ty msg]].
  - intros [= <- <-]. auto.
  - intros [= <- <-]. auto.
  - destruct (fatal _); intros [= <- <-]. auto.
Qed.

Lemma parallel_chain_halt i r evs c :
  Parallel.chain i r = (evs, Halt c) ->
  exists e, r = Rejected e /\ fatal e = true /\ c = 1%Z /\
    evs = [EmitFailure i e; ConsoleError Parallel.fatal_message; Exit 1].
Proof.
  rewrite parallel_chain. destruct r as [a|[|nm ty msg]]; try discriminate.
  destruct (fatal _) eqn:F; intros [= <- <-]. eauto.
Qed.

Lemma live_settle ser n s i r :
  Live ser n s -> exited s = None -> tasks s !! i = Some Running ->
  Live ser n (upd i (Returned r false false) [] s).
Proof. intros H Ex Hi. apply live_upd; auto. discriminate. Qed.

Lemma live_release ser n s i p :
  Live ser n s -> exited s = None -> tasks s !! i = Some p ->
  forall re, reacted p = re -> p <> Queued -> p <> Running ->
  Live ser n
    (match Throat.release (gate s) with
     | (g, Some j) => enter ser j (set_gate g (upd i (InBand.mark p re true) [] s))
     | (g, None) => set_gate g (upd i (InBand.mark p re true) [] s)
     end).
Proof.
  intros H Ex Hi re R N1 N2.
  assert (Live ser n (upd i (InBand.mark p re true) [] s)) as H1.
  { apply live_upd; auto. rewrite (phase_lookup _ _ _ Hi), reacted_mark by auto.
    congruence. }
  destruct (Throat.release (gate s)) as [g [j|]].
  - apply live_enter; auto.
  - eapply live_frame; [..|exact H1]; reflexivity.
Qed.

Lemma live_react_seq n s i p r evs v :
  Live true n s -> exited s = None -> tasks s !! i = Some p ->
  InBand.settled_with p = Some (r, false, false) ->
  InBand.chain i r = (evs, Val v) ->
  Live true n
    (if Nat.eqb (S i) n
     then set_run_promise (Some v) (upd i (InBand.mark p true false) evs s)
     else upd i (InBand.mark p true false) evs s).
Proof.
  intros [Hl Hp Hr He Hs Hq] Ex Hi Hw Hc.
  rewrite inband_chain in Hc. injection Hc as <- <-.
  assert (i < length (tasks s)) as L by (eapply lookup_lt_Some; eauto).
  destruct (Hs eq_refl) as [P1 P2].
  assert (count is_exit [terminal i r] = 0) as C1 by (destruct r; reflexivity).
  assert (count is_pool [terminal i r] = 0) as C2 by (destruct r; reflexivity).
  destruct (Nat.eqb (S i) n) eqn:E.
  - constructor; simpl; auto.
    + rewrite length_insert. auto.
    + intros _. rewrite count_app, C1, Hr; auto.
    + intros c Hx. rewrite Ex in Hx. discriminate.
    + intros _. split; [|discriminate]. rewrite count_app, P1, C2. auto.
    + discriminate.
  - apply Nat.eqb_neq in E. constructor; simpl; auto.
    + rewrite length_insert. auto.
    + intros _. rewrite count_app, C1, Hr; auto.
    + intros c Hx. rewrite Ex in Hx. discriminate.
    + intros _. split; [rewrite count_app, P1, C2; auto|].
      intros [Hz|R]; apply P2; [lia|]. right.
      rewrite phase_upd in R by auto. case_decide; [lia | exact R].
    + discriminate.
Qed.

Lemma live_react_par tests s i p r evs v :
  Live false (length tests) s -> exited s = None -> tasks s !! i = Some p ->
  Parallel.settled_with p = Some (r, false, true) ->
  Parallel.chain i r = (evs, Val v) ->
  Live false (length tests)
    (Parallel.settle_all tests v (upd i (Parallel.mark p true true) evs s)).
Proof.
  intros [Hl Hp Hr He Hs Hq] Ex Hi Hw Hc.
  apply parallel_chain_val in Hc as [-> Hv].
  destruct (Hq eq_refl) as (P1 & P2 & P3).
  assert (count is_exit [terminal i r] = 0) as C1 by (destruct r; reflexivity).
  assert (count is_end [terminal i r] = 0) as C2 by (destruct r; reflexivity).
  set (s1 := upd i (Parallel.mark p true true) [terminal i r] s).
  assert (tasks (Parallel.settle_all tests v s1) = tasks s1 /\
          trace (Parallel.settle_all tests v s1) = trace s1 /\
          run_promise (Parallel.settle_all tests v s1) = run_promise s1 /\
          exited (Parallel.settle_all tests v s1) = exited s1 /\
          (race s1 <> None -> race (Parallel.settle_all tests v s1) <> None)) as (T1 & T2 & T3 & T4 & T5).
  { unfold Parallel.settle_all. destruct (race s1) eqn:R.
    { repeat split; auto. rewrite R. discriminate. }
    destruct v; [match goal with |- context [if ?b then _ else _] => destruct b end|];
      simpl; repeat split; auto; discriminate. }
  constructor; rewrite ?T1, ?T2, ?T3, ?T4; simpl; auto.
  - rewrite length_insert. auto.
  - intros _. rewrite count_app, C1, Hr; auto.
  - intros c Hx. rewrite Ex in Hx. discriminate.
  - discriminate.
  - intros _. split; [|split].
    + rewrite count_app, P1, C2. lia.
    + intros A. apply T5. simpl. auto.
    + intros _ A.
      assert (forallb reacted (tasks s1) = true) as F.
      { apply forallb_reacted. intros k Lk.
        assert (k < length tests) as Lk'
          by (unfold s1 in Lk; simpl in Lk; rewrite length_insert in Lk; lia).
        specialize (A k Lk'). unfold phase in *. rewrite T1 in A. exact A. }
      clear T1 T2 T3 T4 T5 A. unfold Parallel.settle_all.
      destruct (race s1) eqn:R; [rewrite R; discriminate|].
      destruct v; [|discriminate].
      rewrite F.
      assert (length (tasks s1) = length tests) as ->
        by (unfold s1; simpl; rewrite length_insert; exact Hl).
      rewrite Nat.eqb_refl. simpl. discriminate.
Qed.

Lemma live_halt (tests : list Test) s i p r evs c :
  Live false (length tests) s -> exited s = None -> tasks s !! i = Some p ->
  Parallel.settled_with p = Some (r, false, true) ->
  Parallel.chain i r = (evs, Halt c) ->
  Live false (length tests)
    (set_exited (Some c) (upd i (Parallel.mark p true true) evs s)).
Proof.
  intros [Hl Hp Hr He Hs Hq] Ex Hi Hw Hc.
  apply parallel_chain_halt in Hc as (e & -> & F & -> & ->).
  assert (i < length (tasks s)) as L by (eapply lookup_lt_Some; eauto).
  destruct (Hq eq_refl) as (P1 & P2 & P3).
  assert (p = Returned (Rejected e) false true) as ->.
  { apply (settled_with_inv false) in Hw as [[-> Hu]| ->]; auto.
    injection Hu as ->. discriminate F. }
  constructor; simpl; auto.
  - rewrite length_insert. auto.
  - discriminate.
  - intros c [= <-]. repeat split; auto.
    exists (trace s), i, e. repeat split; auto.
    rewrite list_lookup_insert_eq by auto. reflexivity.
  - discriminate.
  - intros _. split; [|split]; auto; try discriminate.
    rewrite count_app, P1. unfold count. simpl. lia.
Qed.

Lemma live_step gc tests options s a s' :
  Inv (serial options) (width gc options) s ->
  Live (serial options) (length tests) s ->
  step tests options s a = Some s' ->
  Live (serial options) (length tests) s'.
Proof.
  intros I H. unfold step. destruct (serial options) eqn:Ser.
  - unfold InBand.step. destruct (exited s) eqn:Ex; [discriminate|].
    destruct a as [i r|i|i|b|].
    + destruct (tasks s !! i) as [[]|] eqn:Hi; try discriminate.
      intros [= <-]. apply live_settle; auto.
    + destruct (tasks s !! i) as [p|] eqn:Hi; try discriminate.
      destruct (InBand.settled_with p) as [[[r re] rl]|] eqn:Hs; try discriminate.
      destruct re, rl; try discriminate.
      destruct (InBand.chain i r) as [evs [v|c]] eqn:Hc; intros [= <-].
      * eapply live_react_seq; eauto.
      * rewrite inband_chain in Hc. discriminate.
    + destruct (tasks s !! i) as [p|] eqn:Hi; try discriminate.
      destruct (InBand.settled_with p) as [[[r re] rl]|] eqn:Hs; try discriminate.
      destruct re, rl; try discriminate.
      destruct (settled_with_phase true _ _ _ _ Hs) as (N1 & N2 & R).
      pose proof (live_release true _ s i p H Ex Hi true R N1 N2) as L.
      simpl. destruct (Throat.release (gate s)) as [g [j|]]; intros [= <-]; exact L.
    + intros [= <-]. eapply live_frame; [..|exact H]; reflexivity.
    + discriminate.
  - unfold Parallel.step. destruct (exited s) eqn:Ex; [discriminate|].
    destruct a as [i r|i|i|b|].
    + destruct (tasks s !! i) as [[]|] eqn:Hi; try discriminate.
      intros [= <-]. apply live_settle; auto.
    + destruct (tasks s !! i) as [p|] eqn:Hi; try discriminate.
      destruct (Parallel.settled_with p) as [[[r re] rl]|] eqn:Hs; try discriminate.
      destruct re, rl; try discriminate.
      destruct (Parallel.chain i r) as [evs [v|c]] eqn:Hc; intros [= <-].
      * eapply live_react_par; eauto.
      * eapply live_halt; eauto.
    + destruct (tasks s !! i) as [p|] eqn:Hi; try discriminate.
      destruct (Parallel.settled_with p) as [[[r re] rl]|] eqn:Hs; try discriminate.
      destruct re, rl; try discriminate.
      destruct (settled_with_phase false _ _ _ _ Hs) as (N1 & N2 & R).
      pose proof (live_release false _ s i p H Ex Hi false R N1 N2) as L.
      simpl. destruct (Throat.release (gate s)) as [g [j|]]; intros [= <-]; exact L.
    + intros [= <-]. destruct H as [Hl Hp Hr He Hs Hq].
      destruct (Hq eq_refl) as (P1 & P2 & P3).
      destruct b; simpl; [destruct (race s) eqn:R|];
        constructor; simpl; auto; try discriminate;
        intros _; repeat split; auto; try discriminate; rewrite ?R; auto.
    + destruct (race s) as [r|] eqn:R; try discriminate.
      destruct (run_promise s) eqn:P; try discriminate.
      destruct H as [Hl Hp Hr He Hs Hq].
      destruct (Hq eq_refl) as (P1 & P2 & P3).
      assert (then2 r (fun _ => Parallel.cleanup) (fun _ => Parallel.cleanup)
              = ([WorkerEnd], Val (Fulfilled tt))) as -> by (destruct r; reflexivity).
      intros [= <-]. constructor; simpl; auto; try discriminate.
      * intros _. rewrite count_app, Hr; auto.
      * intros c Hx. rewrite Ex in Hx. discriminate.
      * intros _. rewrite count_app, P1, P. split; [reflexivity|].
        split; intros; rewrite R; discriminate.
Qed.

Lemma boot_upd ser s i p' evs :
  Boot ser s -> reacted p' = false ->
  count is_exit evs = 0 -> count is_end evs = 0 ->
  (ser = true -> count is_pool evs = 0) ->
  Boot ser (upd i p' evs s).
Proof.
  intros [B1 B2 B3 B4 B5 B6 B7] R C1 C2 C3. constructor; simpl; auto.
  - rewrite count_app. lia.
  - rewrite count_app. lia.
  - intros S. rewrite count_app, B6, C3; auto.
  - intros k. destruct (decide (i < length (tasks s))) as [L|L].
    + rewrite phase_upd by auto. case_decide; auto.
    + unfold phase, upd. simpl. rewrite list_insert_ge by lia. apply B7.
Qed.

Lemma boot_push ser s g : Boot ser s -> Boot ser (set_gate g (push_task s)).
Proof.
  intros [B1 B2 B3 B4 B5 B6 B7]. constructor; auto.
  intros k. specialize (B7 k). rewrite <- (phase_push s k) in B7. exact B7.
Qed.

Lemma boot_mutex_call ser s t :
  Boot ser s ->
  Boot ser (mutex_call ser s t) /\
  length (tasks (mutex_call ser s t)) = S (length (tasks s)).
Proof.
  intros B.
  assert (mutex_call ser s t =
          match Throat.run (gate s) (length (tasks s)) with
          | (g, true) => enter ser (length (tasks s)) (set_gate g (push_task s))
          | (g, false) => set_gate g (push_task s)
          end) as -> by (destruct ser; reflexivity).
  destruct (Throat.run (gate s) (length (tasks s))) as [g [|]].
  - destruct (enter_upd ser (length (tasks s)) (set_gate g (push_task s)))
      as (p' & evs & -> & R & C1 & C2 & C3).
    split.
    + apply boot_upd; auto. apply boot_push; auto.
    + simpl. rewrite length_insert, length_app. simpl. lia.
  - split.
    + apply boot_push; auto.
    + simpl. rewrite length_app. simpl. lia.
Qed.

Lemma boot_fold ser tests : forall s,
  Boot ser s ->
  Boot ser (fold_left (mutex_call ser) tests s) /\
  length (tasks (fold_left (mutex_call ser) tests s)) = length (tasks s) + length tests.
Proof.
  induction tests as [|t tests IH]; simpl; intros s B.
  - split; auto.
  - destruct (boot_mutex_call ser s t B) as [B' L].
    destruct (IH _ B') as [B'' L']. split; auto. lia.
Qed.

Lemma live_of_boot ser n s :
  Boot ser s -> length (tasks s) = n -> 0 < n -> Live ser n s.
Proof.
  intros [B1 B2 B3 B4 B5 B6 B7] L N. constructor; auto.
  - intros c Hx. rewrite B3 in Hx. discriminate.
  - intros S. split; auto. intros [Hz|R]; [lia|]. rewrite B7 in R. discriminate.
  - intros _. rewrite B1, B5. repeat split; auto; try contradiction.
    intros _ A. specialize (A 0 N). rewrite B7 in A. discriminate.
Qed.

Lemma live_of_boot_seq s :
  Boot true s -> length (tasks s) = 0 ->
  Live true 0 (set_run_promise (Some (Fulfilled tt)) s).
Proof.
  intros [B1 B2 B3 B4 B5 B6 B7] L. constructor; simpl; auto; try discriminate.
  intros c Hx. rewrite B3 in Hx. discriminate.
Qed.

Lemma live_of_boot_par s :
  Boot false s -> length (tasks s) = 0 ->
  Live false 0 (set_race (Some (Fulfilled tt)) s).
Proof.
  intros [B1 B2 B3 B4 B5 B6 B7] L. constructor; simpl; auto; try discriminate.
  - intros c Hx. rewrite B3 in Hx. discriminate.
  - intros _. rewrite B1, B5. repeat split; auto; discriminate.
Qed.

Lemma live_start gc tests w options :
  Live (serial options) (length tests) (start gc tests w options).
Proof.
  unfold start. destruct (serial options).
  - unfold InBand.start.
    destruct (boot_fold true tests (InBand.init w)) as [B L].
    { constructor; auto. }
    fold (mutex_call true) in *. simpl in L.
    destruct tests as [|t tests].
    + apply live_of_boot_seq; auto.
    + apply live_of_boot; auto. simpl. lia.
  - unfold Parallel.start.
    destruct (boot_fold false tests (Parallel.init gc w)) as [B L].
    { constructor; auto. discriminate. }
    fold (mutex_call false) in *. simpl in L.
    destruct tests as [|t tests].
    + apply live_of_boot_par; auto.
    + apply live_of_boot; auto. simpl. lia.
Qed.

Lemma live_exec gc tests options acts : forall s s',
  Inv (serial options) (width gc options) s ->
  Live (serial options) (length tests) s ->
  exec tests options s acts = Some s' ->
  Live (serial options) (length tests) s'.
Proof.
  induction acts as [|a acts IH]; simpl; intros s s' I L H.
  - injection H as <-. exact L.
  - destruct (step tests options s a) as [s1|] eqn:E; [|discriminate].
    eapply IH; [| |exact H].
    + eapply inv_step; eauto.
    + eapply live_step; eauto.
Qed.

Theorem reachable_live gc tests w options acts s :
  runTests gc tests w options acts = Some s ->
  Live (serial options) (length tests) s.
Proof.
  intros H. eapply live_exec; [apply inv_start | apply live_start | exact H].
Qed.

(** ** The hook order is kept *)

Lemma wf_upd ser s i p evs : Wf ser s -> wf ser p = true -> Wf ser (upd i p evs s).
Proof.
  intros W P k q. simpl. intros H.
  destruct (decide (i < length (tasks s))) as [L|L].
  - destruct (decide (k = i)) as [->|N].
    + rewrite list_lookup_insert_eq in H by auto. congruence.
    + rewrite list_lookup_insert_ne in H by auto. eapply W; eauto.
  - rewrite list_insert_ge in H by lia. eapply W; eauto.
Qed.

Lemma wf_frame ser s s' : tasks s' = tasks s -> Wf ser s -> Wf ser s'.
Proof. unfold Wf. intros ->. auto. Qed.

Lemma wf_enter ser s g j : Wf ser s -> Wf ser (enter ser j (set_gate g s)).
Proof.
  intros W. rewrite enter_eq. destruct (watcher (set_gate g s));
    apply wf_upd; try exact W; destruct ser; reflexivity.
Qed.

Lemma wf_mutex_call ser s t : Wf ser s -> Wf ser (mutex_call ser s t).
Proof.
  intros W.
  assert (Wf ser (push_task s)) as W1.
  { intros i p H. simpl in H. apply lookup_push in H as [[_ H]|[_ ->]]; eauto. }
  assert (mutex_call ser s t =
          match Throat.run (gate s) (length (tasks s)) with
          | (g, true) => enter ser (length (tasks s)) (set_gate g (push_task s))
          | (g, false) => set_gate g (push_task s)
          end) as -> by (destruct ser; reflexivity).
  destruct (Throat.run (gate s) (length (tasks s))) as [g [|]].
  - apply wf_enter. exact W1.
  - eapply wf_frame; [|exact W1]. reflexivity.
Qed.

Lemma wf_start gc tests w options : Wf (serial options) (start gc tests w options).
Proof.
  assert (forall ser s, Wf ser s -> Wf ser (fold_left (mutex_call ser) tests s)) as F.
  { intros ser. induction tests as [|t tests IH]; simpl; auto.
    intros s W. apply IH, wf_mutex_call, W. }
  assert (forall ser s, tasks s = [] -> Wf ser s) as E.
  { intros ser s T i p H. rewrite T, lookup_nil in H. discriminate. }
  unfold start. destruct (serial options).
  - unfold InBand.start.
    assert (Wf true (fold_left InBand.mutex_call tests (InBand.init w))) as W
      by (apply (F true), E; reflexivity).
    destruct tests; auto.
  - unfold Parallel.start.
    assert (Wf false (fold_left Parallel.mutex_call tests (Parallel.init gc w))) as W
      by (apply (F false), E; reflexivity).
    destruct tests; auto.
Qed.

Lemma wf_step tests options s a s' :
  Wf (serial options) s -> step tests options s a = Some s' -> Wf (serial options) s'.
Proof.
  intros W. unfold step. destruct (serial options) eqn:Ser.
  - unfold InBand.step. destruct (exited s); [discriminate|].
    destruct a as [i r|i|i|b|]; try discriminate.
    + destruct (tasks s !! i) as [[]|]; try discriminate.
      intros [= <-]. apply wf_upd; auto.
    + destruct (tasks s !! i) as [p|] eqn:Hi; try discriminate.
      destruct (InBand.settled_with p) as [[[r re] rl]|] eqn:Hs; try discriminate.
      destruct re, rl; try discriminate.
      assert (wf true (InBand.mark p true false) = true) as M by (destruct p; auto).
      destruct (InBand.chain i r) as [evs [v|c]]; intros [= <-].
      * assert (Wf true (upd i (InBand.mark p true false) evs s)) as W1
          by (apply wf_upd; auto).
        match goal with |- context [if ?b then _ else _] => destruct b end; exact W1.
      * exact (wf_upd true s i _ evs W M).
    + destruct (tasks s !! i) as [p|] eqn:Hi; try discriminate.
      destruct (InBand.settled_with p) as [[[r re] rl]|] eqn:Hs; try discriminate.
      destruct re, rl; try discriminate.
      assert (wf true (InBand.mark p true true) = true) as M by (destruct p; auto).
      simpl. destruct (Throat.release (gate s)) as [g [j|]]; intros [= <-].
      * apply (wf_enter true), wf_upd; auto.
      * exact (wf_upd true s i _ [] W M).
    + intros [= <-]. exact W.
  - unfold Parallel.step. destruct (exited s); [discriminate|].
    destruct a as [i r|i|i|b|].
    + destruct (tasks s !! i) as [[]|]; try discriminate.
      intros [= <-]. apply wf_upd; auto.
    + destruct (tasks s !! i) as [p|] eqn:Hi; try discriminate.
      destruct (Parallel.settled_with p) as [[[r re] rl]|] eqn:Hs; try discriminate.
      destruct re, rl; try discriminate.
      assert (wf false (InBand.mark p true true) = true) as M by (destruct p; auto).
      destruct (Parallel.chain i r) as [evs [v|c]]; intros [= <-].
      * assert (Wf false (upd i (InBand.mark p true true) evs s)) as W1
          by (apply wf_upd; auto).
        unfold Parallel.settle_all, Parallel.mark.
        destruct (race _); [exact W1|].
        destruct v; [|exact W1].
        match goal with |- context [if ?b then _ else _] => destruct b end; exact W1.
      * exact (wf_upd false s i _ evs W M).
    + destruct (tasks s !! i) as [p|] eqn:Hi; try discriminate.
      destruct (Parallel.settled_with p) as [[[r re] rl]|] eqn:Hs; try discriminate.
      destruct re, rl; try discriminate.
      assert (wf false (InBand.mark p false true) = true) as M by (destruct p; auto).
      simpl. destruct (Throat.release (gate s)) as [g [j|]]; intros [= <-].
      * apply (wf_enter false), wf_upd; auto.
      * exact (wf_upd false s i _ [] W M).
    + intros [= <-]. destruct b; simpl; [destruct (race s)|]; exact W.
    + destruct (race s) as [r|]; try discriminate.
      destruct (run_promise s); try discriminate.
      destruct r; simpl; intros [= <-]; exact W.
Qed.

Theorem reachable_wf gc tests w options acts s :
  runTests gc tests w options acts = Some s -> Wf (serial options) s.
Proof.
  unfold runTests. generalize (wf_start gc tests w options).
  generalize (start gc tests w options). induction acts as [|a acts IH]; simpl.
  - intros s0 W [= <-]. exact W.
  - intros s0 W. destruct (step tests options s0 a) as [s1|] eqn:E; [|discriminate].
    apply IH. eapply wf_step; eauto.
Qed.

(** ** Reading the trace of one test off its phase *)

Lemma filter_filter_implies {A} (f g : A -> bool) (l : list A) :
  (forall x, f x = true -> g x = true) ->
  List.filter f (List.filter g l) = List.filter f l.
Proof.
  intros H. induction l as [|x l IH]; simpl; auto.
  destruct (g x) eqn:G; simpl.
  - destruct (f x); rewrite IH; reflexivity.
  - destruct (f x) eqn:F; auto. apply H in F. congruence.
Qed.

Lemma filter_history f ser K s i :
  Inv ser K s ->
  (forall e, f e = true -> about i e = true) ->
  List.filter f (trace s) = List.filter f (history ser i (phase s i)).
Proof.
  intros I H. rewrite <- (inv_hist _ _ _ I i).
  symmetry. apply filter_filter_implies. exact H.
Qed.

Lemma is_start_about i e : is_start i e = true -> about i e = true.
Proof. destruct e; simpl; auto; discriminate. Qed.
Lemma is_terminal_about i e : is_terminal i e = true -> about i e = true.
Proof. destruct e; simpl; auto; discriminate. Qed.
Lemma is_success_about i e : is_success i e = true -> about i e = true.
Proof. destruct e; simpl; auto; discriminate. Qed.
Lemma is_failure_about i e : is_failure i e = true -> about i e = true.
Proof. destruct e; simpl; auto; discriminate. Qed.
Lemma is_execution_about i e : is_execution i e = true -> about i e = true.
Proof. destruct e; simpl; auto; discriminate. Qed.

Create HintDb about.

#[local] Hint Resolve is_start_about is_terminal_about is_success_about
  is_failure_about is_execution_about : about.

(** ** Quiescence *)

Lemma quiescent_idle tests options s :
  Wf (serial options) s -> exited s = None -> quiescent tests options s ->
  forall i p, tasks s !! i = Some p -> idle p = true.
Proof.
  intros W Ex Q i p Hi.
  pose proof (W i p Hi) as Wp.
  pose proof (Q (Settle i (Fulfilled 0)) eq_refl) as Q1.
  pose proof (Q (React i) eq_refl) as Q2.
  pose proof (Q (Release i) eq_refl) as Q3.
  unfold step in *.
  destruct (serial options); unfold InBand.step, Parallel.step in *;
    rewrite Ex, Hi in *;
    destruct p as [| |re rl|r re rl]; simpl in *; auto; try discriminate;
    destruct re, rl; simpl in *; auto; try discriminate;
    try (destruct (Throat.release (gate s)) as [g [j|]]; discriminate);
    try (destruct r; discriminate);
    try (destruct (Parallel.chain i r) as [evs [v|c]]; discriminate).
Qed.

Lemma filter_length_zero {A} (f : A -> bool) (l : list A) :
  (forall i x, l !! i = Some x -> f x = false) -> length (List.filter f l) = 0.
Proof.
  induction l as [|x l IH]; simpl; auto. intros H.
  rewrite (H 0 x eq_refl). apply IH. intros i y Hy. apply (H (S i) y Hy).
Qed.

Lemma idle_not_holds p : idle p = true -> holds p = false.
Proof.
  destruct p as [| |re rl|r re rl]; simpl; auto; try discriminate;
    destruct re, rl; simpl; auto; discriminate.
Qed.

(** With a gate of positive width, a quiescent run has handled every test. *)
Lemma quiescent_done K tests options s :
  Inv (serial options) K s -> Wf (serial options) s -> 1 <= K ->
  exited s = None -> quiescent tests options s ->
  forall i, i < length (tasks s) -> reacted (phase s i) = true.
Proof.
  intros I W HK Ex Q i L.
  pose proof (quiescent_idle tests options s W Ex Q) as Idle.
  assert (holding s = 0) as H0.
  { apply filter_length_zero. intros k p Hk. apply idle_not_holds. eauto. }
  destruct I as [Hh Hl Hq Hd Hs Hf Ha Hst Hdi].
  assert (Throat.queue (gate s) = []) as Q0.
  { destruct (Throat.queue (gate s)) eqn:E; auto.
    assert (Throat.size (gate s) = 0) by (apply Hf; discriminate). lia. }
  destruct (lookup_lt_is_Some_2 _ _ L) as [p Hp].
  rewrite (phase_lookup _ _ _ Hp).
  pose proof (Idle _ _ Hp) as Ip.
  destruct p as [| |re rl|r re rl]; simpl in *; try discriminate.
  - assert (turns s <= i) as C by (apply (Hd _ _ Hp); reflexivity).
    unfold turns in C. rewrite Q0 in C. simpl in C. lia.
  - destruct re; auto.
  - destruct re; auto.
Qed.

Lemma quiescentb_sound tests options s :
  quiescentb options s = true -> quiescent tests options s.
Proof.
  unfold quiescentb, quiescent, step. intros H a Ha.
  destruct (serial options); unfold InBand.step, Parallel.step;
    destruct (exited s); auto;
    simpl in H; apply andb_true_iff in H as [H1 H2];
    rewrite forallb_forall in H1;
    assert (forall i p, tasks s !! i = Some p -> idle p = true) as Idle
      by (intros i p Hi; apply H1, list_elem_of_In; eapply list_elem_of_lookup_2; eauto);
    destruct a as [i r|i|i|b|]; try discriminate; auto;
    try (destruct (tasks s !! i) as [p|] eqn:Hi; auto;
         specialize (Idle _ _ Hi);
         destruct p as [| |re rl|r' re rl]; simpl in *; auto; try discriminate;
         destruct re, rl; simpl in *; auto; discriminate).
  destruct (race s), (run_promise s); auto; discriminate.
Qed.

Ltac hist_compute :=
  unfold count, history, exec_effect, cancel_reason, terminal; simpl;
  rewrite ?Nat.eqb_refl; simpl.

Lemma phase_idle tests options s i :
  Wf (serial options) s -> exited s = None -> quiescent tests options s ->
  idle (phase s i) = true.
Proof.
  intros W Ex Q. unfold phase. destruct (tasks s !! i) as [p|] eqn:Hi; simpl; auto.
  eapply quiescent_idle; eauto.
Qed.

Lemma history_start ser i p :
  count (is_start i) (history ser i p) = if started p then 1 else 0.
Proof.
  destruct ser, p as [| |[|] rl|[a|e] [|] rl]; hist_compute; reflexivity.
Qed.

Lemma history_terminal ser i p :
  count (is_terminal i) (history ser i p) = if reacted p then 1 else 0.
Proof.
  destruct ser, p as [| |[|] rl|[a|e] [|] rl]; hist_compute; reflexivity.
Qed.

(** ** The claims *)

(** C1 (as amended).  In both strategies a test gets at most one start
    event and at most one terminal event, whatever the run; and when a run
    that was not ended by [exit] has nothing left to do, every test that got
    a start event has got exactly one terminal event.  A sequential run is
    never ended by [exit]. *)
Theorem C1_terminal_event gc tests w options acts s i :
  runTests gc tests w options acts = Some s ->
  count (is_start i) (trace s) <= 1 /\
  count (is_terminal i) (trace s) <= 1 /\
  (exited s = None -> quiescent tests options s ->
   count (is_start i) (trace s) = 1 -> count (is_terminal i) (trace s) = 1) /\
  (serial options = true -> exited s = None).
Proof.
  intros H.
  pose proof (reachable_inv _ _ _ _ _ _ H) as I.
  pose proof (reachable_wf _ _ _ _ _ _ H) as W.
  pose proof (reachable_live _ _ _ _ _ _ H) as L.
  unfold count at 1 2 3 4.
  rewrite (filter_history (is_start i) _ _ s i I) by auto with about.
  rewrite (filter_history (is_terminal i) _ _ s i I) by auto with about.
  fold (count (is_start i) (history (serial options) i (phase s i))).
  fold (count (is_terminal i) (history (serial options) i (phase s i))).
  rewrite history_start, history_terminal.
  split; [|split; [|split]].
  - destruct (started _); lia.
  - destruct (reacted _); lia.
  - intros Ex Q. pose proof (phase_idle tests options s i W Ex Q) as Idle.
    destruct (phase s i) as [| |re rl|r re rl]; simpl in *; try discriminate.
    apply andb_true_iff in Idle as [-> _]. auto.
  - intros Ser. destruct (exited s) as [c|] eqn:Ex; auto.
    destruct (live_exited _ _ _ L c Ex) as [F _]. congruence.
Qed.

(** C1, a run that settles. *)
Lemma C1_terminal_event_witness :
  count (is_start 1)
    [WorkerNew 1 3; IsInterrupted 0 false; EmitStart 0; WorkerCall 0;
     IsInterrupted 1 false; EmitStart 1; WorkerCall 1; EmitSuccess 0 7;
     EmitFailure 1 plain_error; WorkerEnd] <= 1 /\
  count (is_terminal 1)
    [WorkerNew 1 3; IsInterrupted 0 false; EmitStart 0; WorkerCall 0;
     IsInterrupted 1 false; EmitStart 1; WorkerCall 1; EmitSuccess 0 7;
     EmitFailure 1 plain_error; WorkerEnd] = 1.
Proof.
  pose (acts := [Settle 0 (Fulfilled 7); Release 0; React 0;
                 Settle 1 (Rejected plain_error); Release 1; React 1; Cleanup]).
  destruct (C1_terminal_event (mkGlobalConfig 1) [mkTest "a"; mkTest "b"] false
              (mkOptions false) acts
              (mkState false (Throat.mk 1 [])
                 [Returned (Fulfilled 7) true true;
                  Returned (Rejected plain_error) true true]
                 (Some (Fulfilled tt)) (Some (Fulfilled tt)) None
                 [WorkerNew 1 3; IsInterrupted 0 false; EmitStart 0; WorkerCall 0;
                  IsInterrupted 1 false; EmitStart 1; WorkerCall 1; EmitSuccess 0 7;
                  EmitFailure 1 plain_error; WorkerEnd])
              1 eq_refl) as (A & B & C & _).
  split; [exact A|].
  apply C; [reflexivity | apply quiescentb_sound; reflexivity | reflexivity].
Defined.

(** C1 as stated fails: with two tests in flight, a fatal fault on the
    first ends the process; the second has had its start event and never
    gets a terminal one. *)
Lemma C1_counterexample :
  exists s,
    runTests (mkGlobalConfig 2) [mkTest "a"; mkTest "b"] false (mkOptions false)
      [Settle 0 (Rejected fatal_error); Release 0; React 0] = Some s /\
    quiescent [mkTest "a"; mkTest "b"] (mkOptions false) s /\
    exited s = Some 1%Z /\
    count (is_start 1) (trace s) = 1 /\
    count (is_terminal 1) (trace s) = 0.
Proof.
  eexists. split; [reflexivity|].
  split; [apply quiescentb_sound; reflexivity|].
  repeat split.
Qed.

Lemma shut_upd s i p evs : Shut s -> accepted evs = [] -> Shut (upd i p evs s).
Proof.
  intros [W A] E. split; auto. simpl. unfold accepted in *.
  rewrite omap_app, A, E. reflexivity.
Qed.

Lemma shut_enter ser s g j : Shut s -> Shut (enter ser j (set_gate g s)).
Proof.
  intros [W A]. rewrite enter_eq. simpl. rewrite W.
  apply (shut_upd (set_gate g s)); [split; auto | reflexivity].
Qed.

Lemma shut_mutex_call ser s t : Shut s -> Shut (mutex_call ser s t).
Proof.
  intros S.
  assert (mutex_call ser s t =
          match Throat.run (gate s) (length (tasks s)) with
          | (g, true) => enter ser (length (tasks s)) (set_gate g (push_task s))
          | (g, false) => set_gate g (push_task s)
          end) as -> by (destruct ser; reflexivity).
  destruct (Throat.run (gate s) (length (tasks s))) as [g [|]].
  - apply shut_enter. exact S.
  - exact S.
Qed.

Lemma shut_start gc tests options : Shut (start gc tests true options).
Proof.
  assert (forall ser s, Shut s -> Shut (fold_left (mutex_call ser) tests s)) as F.
  { intros ser. induction tests as [|t tests IH]; simpl; auto.
    intros s S. apply IH, shut_mutex_call, S. }
  unfold start. destruct (serial options).
  - unfold InBand.start.
    assert (Shut (fold_left InBand.mutex_call tests (InBand.init true))) as S
      by (apply (F true); split; reflexivity).
    destruct tests; exact S.
  - unfold Parallel.start.
    assert (Shut (fold_left Parallel.mutex_call tests (Parallel.init gc true))) as S
      by (apply (F false); split; reflexivity).
    destruct tests; exact S.
Qed.

Lemma accepted_terminal i r : accepted [terminal i r] = [].
Proof. destruct r; reflexivity. Qed.

Lemma shut_step tests options s a s' :
  Shut s -> step tests options s a = Some s' ->
  match a with WatcherChange false => false | _ => true end = true ->
  Shut s'.
Proof.
  intros S. unfold step. destruct (serial options).
  - unfold InBand.step. destruct (exited s); [discriminate|].
    destruct a as [i r|i|i|b|]; try discriminate.
    + destruct (tasks s !! i) as [[]|]; try discriminate.
      intros [= <-] _. apply shut_upd; auto.
    + destruct (tasks s !! i) as [p|] eqn:Hi; try discriminate.
      destruct (InBand.settled_with p) as [[[r re] rl]|] eqn:Hs; try discriminate.
      destruct re, rl; try discriminate.
      rewrite inband_chain. intros [= <-] _.
      assert (Shut (upd i (InBand.mark p true false) [terminal i r] s)) as S1
        by (apply shut_upd; auto using accepted_terminal).
      match goal with |- context [if ?b then _ else _] => destruct b end; exact S1.
    + destruct (tasks s !! i) as [p|] eqn:Hi; try discriminate.
      destruct (InBand.settled_with p) as [[[r re] rl]|] eqn:Hs; try discriminate.
      destruct re, rl; try discriminate.
      assert (Shut (upd i (InBand.mark p true true) [] s)) as S1
        by (apply shut_upd; auto).
      simpl. destruct (Throat.release (gate s)) as [g [j|]]; intros [= <-] _.
      * apply (shut_enter true). exact S1.
      * exact S1.
    + destruct b; [|discriminate]. intros [= <-] _. destruct S. split; auto.
  - unfold Parallel.step. destruct (exited s); [discriminate|].
    destruct a as [i r|i|i|b|].
    + destruct (tasks s !! i) as [[]|]; try discriminate.
      intros [= <-] _. apply shut_upd; auto.
    + destruct (tasks s !! i) as [p|] eqn:Hi; try discriminate.
      destruct (Parallel.settled_with p) as [[[r re] rl]|] eqn:Hs; try discriminate.
      destruct re, rl; try discriminate.
      destruct (Parallel.chain i r) as [evs [v|c]] eqn:Hc; intros [= <-] _.
      * apply parallel_chain_val in Hc as [-> _].
        assert (Shut (upd i (InBand.mark p true true) [terminal i r] s)) as S1
          by (apply shut_upd; auto using accepted_terminal).
        unfold Parallel.settle_all, Parallel.mark.
        destruct (race _); [exact S1|].
        destruct v; [|exact S1].
        match goal with |- context [if ?b then _ else _] => destruct b end; exact S1.
      * apply parallel_chain_halt in Hc as (e & _ & _ & _ & ->).
        apply (shut_upd s i); [exact S | reflexivity].
    + destruct (tasks s !! i) as [p|] eqn:Hi; try discriminate.
      destruct (Parallel.settled_with p) as [[[r re] rl]|] eqn:Hs; try discriminate.
      destruct re, rl; try discriminate.
      assert (Shut (upd i (InBand.mark p false true) [] s)) as S1
        by (apply shut_upd; auto).
      simpl. destruct (Throat.release (gate s)) as [g [j|]]; intros [= <-] _.
      * apply (shut_enter false). exact S1.
      * exact S1.
    + destruct b; [|discriminate]. intros [= <-] _. destruct S as [W A].
      simpl. destruct (race s); split; auto.
    + destruct (race s) as [r|]; try discriminate.
      destruct (run_promise s); try discriminate.
      destruct S as [W A].
      destruct r; simpl; intros [= <-] _; split; auto; simpl;
        unfold accepted in *; rewrite omap_app, A; reflexivity.
Qed.

Lemma shut_exec tests options acts : forall s s',
  Shut s -> exec tests options s acts = Some s' ->
  stays_interrupted acts = true -> Shut s'.
Proof.
  induction acts as [|a acts IH]; simpl; intros s s' S H St.
  - injection H as <-. exact S.
  - destruct (step tests options s a) as [s1|] eqn:E; [|discriminate].
    apply andb_true_iff in St as [St1 St2].
    eapply IH; [|exact H|exact St2]. eapply shut_step; eauto.
Qed.

Lemma accepted_nil_not_in tr i : accepted tr = [] -> ~ In (IsInterrupted i false) tr.
Proof.
  induction tr as [|e tr IH]; simpl; [tauto|].
  intros A [E|I]; [subst e; discriminate A|].
  apply IH; auto. destruct e as [| |j [|]| | | | | | | |]; simpl in A; auto. discriminate.
Qed.

Lemma history_in ser K s i e :
  Inv ser K s -> In e (history ser i (phase s i)) -> In e (trace s).
Proof.
  intros I H. rewrite <- (inv_hist _ _ _ I i) in H.
  apply List.filter_In in H. tauto.
Qed.

Lemma in_history ser K s i e :
  Inv ser K s -> In e (trace s) -> about i e = true ->
  In e (history ser i (phase s i)).
Proof.
  intros I H A. rewrite <- (inv_hist _ _ _ I i). apply List.filter_In. auto.
Qed.

Lemma history_cancelled ser i p :
  In (IsInterrupted i true) (history ser i p) -> exists re rl, p = Refused re rl.
Proof.
  destruct p as [| |re rl|r re rl]; simpl; eauto.
  - tauto.
  - intros [H|[H|[H|[]]]]; try discriminate. destruct ser; discriminate.
  - intros [H|[H|[H|H]]]; try discriminate.
    + destruct ser; discriminate.
    + destruct re; simpl in H; [|tauto]. destruct H as [H|[]]. destruct r; discriminate.
Qed.

Lemma history_not_accepted ser i p :
  ~ In (IsInterrupted i false) (history ser i p) -> started p = false.
Proof. destruct p; simpl; auto; intros H; exfalso; apply H; auto. Qed.

(** C2 (as amended).  A test at whose turn the watcher is found
    interrupted gets no start event and no success event and is never
    executed; what it does get is one failure event, carrying [CancelRun] in
    the sequential strategy and [undefined] in the parallel one.  In
    particular, when the watcher is interrupted before the run starts and is
    not cleared, no start and no success event fires at all. *)
Theorem C2_cancelled_test gc tests w options acts s :
  runTests gc tests w options acts = Some s ->
  (forall i, In (IsInterrupted i true) (trace s) ->
     count (is_start i) (trace s) = 0 /\
     count (is_success i) (trace s) = 0 /\
     count (is_execution i) (trace s) = 0 /\
     (List.filter (is_failure i) (trace s) = [] \/
      List.filter (is_failure i) (trace s)
      = [EmitFailure i (cancel_reason (serial options))]) /\
     (exited s = None -> quiescent tests options s ->
      List.filter (is_failure i) (trace s)
      = [EmitFailure i (cancel_reason (serial options))])) /\
  (w = true -> stays_interrupted acts = true ->
   forall i, count (is_start i) (trace s) = 0 /\ count (is_success i) (trace s) = 0).
Proof.
  intros H.
  pose proof (reachable_inv _ _ _ _ _ _ H) as I.
  pose proof (reachable_wf _ _ _ _ _ _ H) as W.
  split.
  - intros i Hin.
    apply (in_history _ _ s i _ I) in Hin; [|simpl; apply Nat.eqb_refl].
    pose proof (phase_idle tests options s i W) as Idle.
    unfold count.
    rewrite (filter_history (is_start i) _ _ s i I) by auto with about.
    rewrite (filter_history (is_success i) _ _ s i I) by auto with about.
    rewrite (filter_history (is_execution i) _ _ s i I) by auto with about.
    rewrite (filter_history (is_failure i) _ _ s i I) by auto with about.
    destruct (history_cancelled _ _ _ Hin) as (re & rl & E). rewrite E in *.
    destruct re; hist_compute; repeat split; auto.
    intros Ex Q. specialize (Idle Ex Q). simpl in Idle. discriminate.
  - intros -> St i.
    assert (Shut s) as [_ A]
      by (eapply shut_exec; [apply shut_start | exact H | exact St]).
    assert (started (phase s i) = false) as S.
    { apply (history_not_accepted (serial options) i). intros C.
      apply (accepted_nil_not_in _ i A). eapply history_in; eauto. }
    unfold count.
    rewrite (filter_history (is_start i) _ _ s i I) by auto with about.
    rewrite (filter_history (is_success i) _ _ s i I) by auto with about.
    destruct (phase s i) as [| |re rl|r re rl]; try discriminate; auto.
    destruct re; hist_compute; auto.
Qed.

Lemma C2_cancelled_test_witness :
  count (is_start 0) (trace cancelled_in_band) = 0 /\
  List.filter (is_failure 0) (trace cancelled_in_band) = [EmitFailure 0 CancelRun] /\
  count (is_start 1) (trace cancelled_in_band) = 0.
Proof.
  destruct (C2_cancelled_test (mkGlobalConfig 2) two_tests true (mkOptions true)
              [React 0; Release 0; React 1; Release 1] cancelled_in_band eq_refl)
    as [A B].
  destruct (A 0) as (A1 & _ & _ & _ & A2).
  { vm_compute. tauto. }
  split; [exact A1|]. split.
  - apply A2; [reflexivity | apply quiescentb_sound; reflexivity].
  - apply (B eq_refl eq_refl 1).
Defined.

(** C2 as stated fails in both strategies: the test whose turn finds the
    watcher interrupted does get an event, a failure event. *)
Lemma C2_counterexample :
  (exists s,
     runTests (mkGlobalConfig 1) [mkTest "a"] true (mkOptions true) [React 0] = Some s /\
     In (IsInterrupted 0 true) (trace s) /\
     In (EmitFailure 0 CancelRun) (trace s)) /\
  (exists s,
     runTests (mkGlobalConfig 1) [mkTest "a"] true (mkOptions false)
       [Release 0; React 0] = Some s /\
     In (IsInterrupted 0 true) (trace s) /\
     In (EmitFailure 0 JsUndefined) (trace s)).
Proof.
  split; (eexists; split; [reflexivity|]; simpl; tauto).
Qed.

(** C3 (as amended).  In a parallel run [worker.end()] is called at most
    once, and it has been called exactly when the promise of the run is
    settled; so a run that is not ended by [exit] and has nothing left to do
    has torn the pool down exactly once.  The fatal path is the exception:
    the handler that meets a fatal fault calls [exit] itself, and it does not
    tear the pool down. *)
Theorem C3_teardown gc tests w acts s :
  runTests gc tests w (mkOptions false) acts = Some s ->
  count is_end (trace s) <= 1 /\
  (run_promise s <> None <-> count is_end (trace s) = 1) /\
  (exited s = None -> quiescent tests (mkOptions false) s -> 1 <= maxWorkers gc ->
   count is_end (trace s) = 1) /\
  (forall i e s', tasks s !! i = Some (Returned (Rejected e) false true) ->
     fatal e = true -> step tests (mkOptions false) s (React i) = Some s' ->
     exited s' = Some 1%Z /\ count is_end (trace s') = count is_end (trace s)).
Proof.
  intros H.
  pose proof (reachable_inv _ _ _ _ _ _ H) as I.
  pose proof (reachable_wf _ _ _ _ _ _ H) as W.
  pose proof (reachable_live _ _ _ _ _ _ H) as L.
  destruct (live_par _ _ _ L eq_refl) as (P1 & P2 & P3).
  rewrite P1. split; [|split; [|split]].
  - destruct (run_promise s); lia.
  - destruct (run_promise s); split; auto; try discriminate. intros C. contradiction.
  - intros Ex Q HK.
    assert (race s <> None) as R.
    { apply P3; auto. intros i Li. eapply (quiescent_done _ tests (mkOptions false)); eauto.
      rewrite (live_len _ _ _ L). exact Li. }
    pose proof (Q Cleanup eq_refl) as QC. unfold step in QC. simpl in QC.
    unfold Parallel.step in QC. rewrite Ex in QC.
    destruct (race s) as [r|]; [|contradiction].
    destruct (run_promise s); auto. destruct r; discriminate.
  - intros i e s' Hi F. unfold step. simpl. unfold Parallel.step.
    destruct (exited s); [discriminate|]. rewrite Hi. simpl.
    rewrite parallel_chain. destruct e as [|nm ty msg]; [discriminate|].
    rewrite F. intros [= <-]. simpl. split; auto.
    rewrite count_app. unfold count at 2. simpl. lia.
Qed.

Lemma C3_teardown_witness :
  count is_end (trace completed_parallel) = 1 /\
  count is_end (trace cancelled_parallel) = 1.
Proof.
  split.
  - apply (C3_teardown (mkGlobalConfig 1) two_tests false
             [Settle 0 (Fulfilled 7); Release 0; React 0;
              Settle 1 (Rejected plain_error); Release 1; React 1; Cleanup]
             completed_parallel eq_refl);
      [reflexivity | apply quiescentb_sound; reflexivity | simpl; lia].
  - apply (C3_teardown (mkGlobalConfig 1) two_tests false
             [WatcherChange true; Cleanup; Settle 0 (Fulfilled 7); Release 0; React 0;
              Release 1; React 1]
             cancelled_parallel eq_refl);
      [reflexivity | apply quiescentb_sound; reflexivity | simpl; lia].
Defined.

(** C3 as stated fails on the fatal path: the process ends and the pool
    has not been torn down. *)
Lemma C3_counterexample :
  exists s,
    runTests (mkGlobalConfig 1) [mkTest "a"] false (mkOptions false)
      [Settle 0 (Rejected fatal_error); Release 0; React 0] = Some s /\
    exited s = Some 1%Z /\
    count is_end (trace s) = 0.
Proof. eexists. split; [reflexivity|]. split; reflexivity. Qed.

Lemma in_flight_holding s : in_flight s <= holding s.
Proof.
  unfold in_flight, holding. induction (tasks s) as [|p l IH]; simpl; auto.
  destruct p as [| |re rl|r re rl]; simpl; try lia.
  - destruct (negb rl); simpl; lia.
  - destruct (negb rl); simpl; lia.
Qed.

(** C6.  In a parallel run the gate is as wide as [maxWorkers]: the free
    slots and the tests that hold one always add up to it, so at no moment
    are more than [maxWorkers] executions in flight. *)
Theorem C6_bounded_in_flight gc tests w acts s :
  runTests gc tests w (mkOptions false) acts = Some s ->
  Throat.size (gate s) + holding s = maxWorkers gc /\
  in_flight s <= maxWorkers gc.
Proof.
  intros H. pose proof (reachable_inv _ _ _ _ _ _ H) as I.
  assert (Throat.size (gate s) + holding s = maxWorkers gc) as S
    by exact (inv_slots _ _ _ I).
  pose proof (in_flight_holding s). split; [exact S | lia].
Qed.

Lemma C6_bounded_in_flight_witness :
  Throat.size (gate busy_parallel) + holding busy_parallel = 2 /\
  in_flight busy_parallel <= 2.
Proof.
  exact (C6_bounded_in_flight (mkGlobalConfig 2) three_tests false
           [Settle 0 (Fulfilled 7); Release 0] busy_parallel eq_refl).
Defined.

Lemma accepted_sublist tr : accepted tr `sublist_of` attempts tr.
Proof.
  induction tr as [|e tr IH]; simpl; [constructor|].
  destruct e as [| |j [|]| | | | | | | |]; simpl; auto.
  - apply sublist_cons. exact IH.
  - apply sublist_skip. exact IH.
Qed.

Lemma seq_sublist m n : m <= n -> seq 0 m `sublist_of` seq 0 n.
Proof.
  intros L. replace n with (m + (n - m)) by lia.
  rewrite seq_app. apply sublist_inserts_r. reflexivity.
Qed.

(** C7.  In both strategies the tests are tried in the order of the input
    array, one after the other with none skipped; each start event is
    followed by the hand-over of that test, so start events and hand-overs
    come in the same order, which is the input order.  In the sequential
    strategy the gate has one slot, and at most one test is executing. *)
Theorem C7_input_order gc tests w options acts s :
  runTests gc tests w options acts = Some s ->
  attempts (trace s) = seq 0 (turns s) /\
  turns s <= length tests /\
  dispatches (trace s) = starts (trace s) /\
  starts (trace s) `sublist_of` seq 0 (length tests) /\
  (serial options = true ->
   Throat.size (gate s) + holding s = 1 /\ in_flight s <= 1).
Proof.
  intros H.
  pose proof (reachable_inv _ _ _ _ _ _ H) as I.
  pose proof (reachable_live _ _ _ _ _ _ H) as L.
  destruct I as [Hh Hl Hq Hd Hs Hf Ha Hst Hdi].
  assert (turns s <= length tests) as A
    by (rewrite <- (live_len _ _ _ L); unfold turns; lia).
  split; [exact Ha|]. split; [exact A|]. split; [congruence|]. split.
  - rewrite Hst. transitivity (attempts (trace s)).
    + apply accepted_sublist.
    + rewrite Ha. apply seq_sublist, A.
  - intros Ser. unfold width in Hs. rewrite Ser in Hs.
    pose proof (in_flight_holding s). split; [exact Hs | lia].
Qed.

Lemma C7_input_order_witness :
  attempts (trace busy_parallel) = [0; 1; 2] /\
  dispatches (trace busy_parallel) = starts (trace busy_parallel) /\
  attempts (trace busy_in_band) = [0; 1] /\
  in_flight busy_in_band <= 1.
Proof.
  destruct (C7_input_order (mkGlobalConfig 2) three_tests false (mkOptions false)
              [Settle 0 (Fulfilled 7); Release 0] busy_parallel eq_refl)
    as (A1 & _ & A2 & _).
  destruct (C7_input_order (mkGlobalConfig 2) three_tests false (mkOptions true)
              [Settle 0 (Fulfilled 7); React 0; Release 0] busy_in_band eq_refl)
    as (B1 & _ & _ & _ & B2).
  destruct (B2 eq_refl) as [_ B3].
  repeat split; assumption.
Defined.

Lemma is_run_test_about i e : is_run_test i e = true -> about i e = true.
Proof. destruct e; simpl; auto; discriminate. Qed.

(** C10.  A sequential run never touches the worker pool: it does not
    construct it, hand a test to it or end it; every test that gets a start
    event is executed by a call of [runTest]. *)
Theorem C10_in_band_no_pool gc tests w acts s :
  runTests gc tests w (mkOptions true) acts = Some s ->
  count is_pool (trace s) = 0 /\
  forall i, count (is_run_test i) (trace s) = count (is_start i) (trace s).
Proof.
  intros H.
  pose proof (reachable_inv _ _ _ _ _ _ H) as I.
  pose proof (reachable_live _ _ _ _ _ _ H) as L.
  split; [apply (live_seq _ _ _ L eq_refl)|].
  intros i. unfold count.
  rewrite (filter_history (is_start i) _ _ s i I) by auto with about.
  rewrite (filter_history (is_run_test i) _ _ s i I) by apply is_run_test_about.
  simpl. destruct (phase s i) as [| |[|] rl|[a|e] [|] rl]; hist_compute; reflexivity.
Qed.

Lemma C10_in_band_no_pool_witness :
  count is_pool (trace busy_in_band) = 0 /\
  count (is_run_test 1) (trace busy_in_band) = 1.
Proof.
  destruct (C10_in_band_no_pool (mkGlobalConfig 2) three_tests false
              [Settle 0 (Fulfilled 7); React 0; Release 0] busy_in_band eq_refl)
    as [A B].
  split; [exact A|]. rewrite (B 1). reflexivity.
Defined.

Lemma fatal_tag e :
  fatal e = true <->
  exists name message, e = JsError name (Some "ProcessTerminatedError") message.
Proof.
  split.
  - destruct e as [|nm [ty|] msg]; simpl; try discriminate.
    intros E. apply String.eqb_eq in E. subst. eauto.
  - intros (nm & msg & ->). reflexivity.
Qed.

Lemma halted tests options s c a : exited s = Some c -> step tests options s a = None.
Proof.
  intros E. unfold step, InBand.step, Parallel.step. rewrite E.
  destruct (serial options); reflexivity.
Qed.

Lemma release_next ser K s g j :
  Inv ser K s -> Throat.release (gate s) = (g, Some j) -> tasks s !! j = Some Queued.
Proof.
  intros [Hh Hl Hq Hd Hs Hf Ha Hst Hdi]. unfold Throat.release.
  destruct (Throat.queue (gate s)) as [|j' q] eqn:Q; [discriminate|].
  intros [= <- <-]. simpl in Hq, Hl. injection Hq as Hj Hq'.
  assert (turns s + S (length q) = length (tasks s)) as Len
    by (unfold turns; rewrite Q; simpl in *; lia).
  destruct (tasks s !! j') as [r|] eqn:Hr.
  - f_equal. apply (Hd _ _ Hr). lia.
  - apply lookup_ge_None in Hr. lia.
Qed.

Lemma count_zero_not_in (f : Effect -> bool) tr x :
  count f tr = 0 -> f x = true -> ~ In x tr.
Proof.
  unfold count. induction tr as [|y tr IH]; simpl; [tauto|].
  intros C F [->|H].
  - rewrite F in C. discriminate.
  - destruct (f y); [discriminate|]. apply IH; auto.
Qed.

Lemma in_sublist {A} (x : A) (l : list A) : In x l -> [x] `sublist_of` l.
Proof.
  induction l as [|y l IH]; simpl; [tauto|].
  intros [->|H].
  - apply sublist_skip, sublist_nil_l.
  - apply sublist_cons, IH, H.
Qed.

(** C4 (as amended).  In a parallel run a rejection is a fatal pool fault
    exactly when the [type] of the error is ['ProcessTerminatedError'],
    whatever its name and its message.  The handler of such a rejection
    emits the failure event of the test, then logs the diagnostic, then calls
    [exit] with status 1; the handler of any other rejection does not call
    [exit].  [exit] is called in no other place and with no other status:
    where the trace holds an [exit], it holds before it, in this order, the
    hand-over of a test, the failure event of that test with a fatal fault,
    and the diagnostic.  Dispatch does not stop at the fatal rejection: the
    slot of the failing test goes back to the gate before its handler runs,
    so the test that waits first at the gate is let in and, the watcher not
    being interrupted, handed to the pool before [exit] is called. *)
Theorem C4_fatal_fault gc tests w acts s :
  runTests gc tests w (mkOptions false) acts = Some s ->
  (forall i e,
     exited s = None ->
     tasks s !! i = Some (Returned (Rejected e) false true) ->
     In (WorkerCall i) (trace s) /\
     exists s' evs,
       step tests (mkOptions false) s (React i) = Some s' /\
       trace s' = trace s ++ evs /\
       ((exists name message, e = JsError name (Some "ProcessTerminatedError") message) ->
        List.filter (escalation i) evs
        = [EmitFailure i e; ConsoleError Parallel.fatal_message; Exit 1] /\
        exited s' = Some 1%Z) /\
       ((forall name message, e <> JsError name (Some "ProcessTerminatedError") message) ->
        count is_exit evs = 0 /\ exited s' = None)) /\
  (forall c,
     In (Exit c) (trace s) ->
     c = 1%Z /\ exited s = Some 1%Z /\
     exists i name message,
       [WorkerCall i;
        EmitFailure i (JsError name (Some "ProcessTerminatedError") message);
        ConsoleError Parallel.fatal_message; Exit 1] `sublist_of` trace s) /\
  (forall i e j q,
     exited s = None ->
     tasks s !! i = Some (Returned (Rejected e) false false) ->
     fatal e = true ->
     Throat.queue (gate s) = j :: q ->
     watcher s = false ->
     ~ In (WorkerCall j) (trace s) /\
     exists s1 s2,
       step tests (mkOptions false) s (Release i) = Some s1 /\
       step tests (mkOptions false) s1 (React i) = Some s2 /\
       In (WorkerCall j) (trace s2) /\
       exited s2 = Some 1%Z).
Proof.
  intros H.
  pose proof (reachable_inv _ _ _ _ _ _ H) as I.
  pose proof (reachable_live _ _ _ _ _ _ H) as L.
  split; [|split].
  - intros i e Ex Hi. split.
    + apply (history_in _ _ s i _ I). rewrite (phase_lookup _ _ _ Hi). simpl. auto.
    + assert (forall x (s0 : State), trace (Parallel.settle_all tests x s0) = trace s0 /\
                exited (Parallel.settle_all tests x s0) = exited s0) as SA.
      { intros x s0. unfold Parallel.settle_all. destruct (race s0); auto.
        destruct x; auto.
        match goal with |- context [if ?b then _ else _] => destruct b end; auto. }
      unfold step. simpl. unfold Parallel.step. rewrite Ex, Hi. simpl.
      rewrite parallel_chain. destruct e as [|nm ty msg].
      * eexists. eexists. split; [reflexivity|].
        split; [rewrite (proj1 (SA _ _)); reflexivity|].
        split; [intros (? & ? & ?); discriminate|]. intros _. split; [reflexivity|].
        rewrite (proj2 (SA _ _)). exact Ex.
      * unfold fatal. destruct (Parallel.is_fatal ty) eqn:F.
        -- eexists. eexists. split; [reflexivity|]. split; [reflexivity|]. split.
           ++ intros _. split; [|reflexivity].
              unfold escalation. simpl. rewrite Nat.eqb_refl. reflexivity.
           ++ intros N. exfalso.
              assert (fatal (JsError nm ty msg) = true) as F' by exact F.
              apply fatal_tag in F' as (nm' & msg' & E). eapply N. exact E.
        -- eexists. eexists. split; [reflexivity|].
           split; [rewrite (proj1 (SA _ _)); reflexivity|]. split.
           ++ intros (nm' & msg' & [= -> -> ->]). simpl in F. discriminate.
           ++ intros _. split; [reflexivity|]. rewrite (proj2 (SA _ _)). exact Ex.
  - intros c Hin. destruct (exited s) as [c'|] eqn:Ex.
    + destruct (live_exited _ _ _ L c' Ex) as (_ & -> & tr & i & e & F & T & C & Hi).
      assert (In (WorkerCall i) tr) as J.
      { assert (In (WorkerCall i) (trace s)) as J.
        { apply (history_in _ _ s i _ I). rewrite (phase_lookup _ _ _ Hi). simpl. auto. }
        rewrite T in J. apply in_app_or in J as [J|J]; auto.
        simpl in J. destruct J as [J|[J|[J|[]]]]; discriminate. }
      rewrite T in Hin. apply in_app_or in Hin as [Hin|Hin].
      * exfalso. exact (count_zero_not_in is_exit tr (Exit c) C eq_refl Hin).
      * split.
        { simpl in Hin. destruct Hin as [Hin|[Hin|[Hin|[]]]]; try discriminate.
          injection Hin as <-. reflexivity. }
        split; [reflexivity|].
        apply fatal_tag in F as (nm & msg & ->). exists i, nm, msg. rewrite T.
        apply (sublist_app [WorkerCall i] tr); [apply in_sublist; exact J|reflexivity].
    + exfalso.
      exact (count_zero_not_in is_exit _ (Exit c) (live_running _ _ _ L Ex) eq_refl Hin).
  - intros i e j q Ex Hi F Q W.
    pose proof F as F0. apply fatal_tag in F0 as (nm & msg & ->).
    assert (Throat.release (gate s) = (Throat.mk (Throat.size (gate s)) q, Some j)) as Rel.
    { unfold Throat.release. rewrite Q. reflexivity. }
    pose proof (release_next _ _ _ _ _ I Rel) as Hj.
    assert (i <> j) as Nij by (intros ->; congruence).
    assert (i < length (tasks s)) as Li by (eapply lookup_lt_Some; eauto).
    assert (j < length (tasks s)) as Lj by (eapply lookup_lt_Some; eauto).
    split.
    + intros Hin. apply (in_history _ _ s j _ I) in Hin; [|simpl; apply Nat.eqb_refl].
      rewrite (phase_lookup _ _ _ Hj) in Hin. exact Hin.
    + unfold step. simpl. unfold Parallel.step at 1. rewrite Ex, Hi. simpl.
      change (gate (upd i (Parallel.mark (Returned (Rejected
                (JsError nm (Some "ProcessTerminatedError") msg)) false false) false true) [] s))
        with (gate s).
      rewrite Rel. unfold Parallel.body. simpl. rewrite W.
      eexists. eexists. split; [reflexivity|].
      unfold Parallel.step. simpl. rewrite Ex.
      rewrite list_lookup_insert_ne by auto.
      rewrite list_lookup_insert_eq by auto. simpl.
      split; [reflexivity|]. simpl. split; [|reflexivity].
      apply in_or_app. left. apply in_or_app. right. simpl. auto.
Qed.

(** C4, the handler of a fatal fault; and the test that is let in after it. *)
Lemma C4_fatal_fault_witness :
  (exists s' evs,
     step two_tests (mkOptions false) fault_pending (React 0) = Some s' /\
     trace s' = trace fault_pending ++ evs /\
     List.filter (escalation 0) evs
     = [EmitFailure 0 fatal_error; ConsoleError Parallel.fatal_message; Exit 1] /\
     exited s' = Some 1%Z) /\
  (exists s1 s2,
     step two_tests (mkOptions false) fault_queued (Release 0) = Some s1 /\
     step two_tests (mkOptions false) s1 (React 0) = Some s2 /\
     In (WorkerCall 1) (trace s2) /\
     exited s2 = Some 1%Z).
Proof.
  destruct (C4_fatal_fault (mkGlobalConfig 2) two_tests false
              [Settle 0 (Rejected fatal_error); Release 0] fault_pending eq_refl)
    as (A & _ & _).
  destruct (C4_fatal_fault (mkGlobalConfig 1) two_tests false
              [Settle 0 (Rejected fatal_error)] fault_queued eq_refl)
    as (_ & _ & B).
  split.
  - destruct (A 0 fatal_error eq_refl eq_refl) as (_ & s' & evs & St & Tr & F & _).
    destruct F as [F1 F2]; [exists "Error", "worker crashed"; reflexivity|].
    exists s', evs. auto.
  - destruct (B 0 fatal_error 1 [] eq_refl eq_refl eq_refl eq_refl eq_refl) as (_ & R).
    exact R.
Defined.

(** C4 as stated fails: with one worker and two tests, the second test is
    handed to the pool after the execution of the first has been rejected
    with a fatal fault, and before the process is ended. *)
Lemma C4_counterexample :
  exists s1 s2,
    runTests (mkGlobalConfig 1) two_tests false (mkOptions false)
      [Settle 0 (Rejected fatal_error)] = Some s1 /\
    fatal fatal_error = true /\
    dispatches (trace s1) = [0] /\
    exec two_tests (mkOptions false) s1 [Release 0; React 0] = Some s2 /\
    dispatches (trace s2) = [0; 1] /\
    exited s2 = Some 1%Z.
Proof.
  eexists. eexists. split; [reflexivity|]. split; [reflexivity|].
  split; [reflexivity|]. split; [reflexivity|]. split; reflexivity.
Qed.

Lemma exec_app tests options acts1 : forall acts2 s s1 s2,
  exec tests options s acts1 = Some s1 ->
  exec tests options s1 acts2 = Some s2 ->
  exec tests options s (acts1 ++ acts2) = Some s2.
Proof.
  induction acts1 as [|a acts1 IH]; simpl; intros acts2 s s1 s2 H1 H2.
  - injection H1 as ->. exact H2.
  - destruct (step tests options s a) as [s0|]; [|discriminate]. eapply IH; eauto.
Qed.

Lemma forallb_false {A} (f : A -> bool) (l : list A) :
  forallb f l = false -> exists i x, l !! i = Some x /\ f x = false.
Proof.
  induction l as [|y l IH]; simpl; [discriminate|].
  destruct (f y) eqn:F; simpl.
  - intros H. destruct (IH H) as (i & x & Hi & Hx). exists (S i), x. auto.
  - intros _. exists 0, y. auto.
Qed.

(** A task that is not idle has something to do next. *)
Lemma busy_task tests options s i p :
  exited s = None -> tasks s !! i = Some p -> wf (serial options) p = true ->
  idle p = false ->
  exists a s', busy a = true /\ step tests options s a = Some s'.
Proof.
  intros Ex Hi Wp Ip.
  assert (forall a, busy a = true -> step tests options s a <> None ->
            exists a s', busy a = true /\ step tests options s a = Some s') as Go.
  { intros a B N. destruct (step tests options s a) as [s'|] eqn:E; [eauto|congruence]. }
  unfold step in *.
  destruct p as [| |re rl|r re rl]; simpl in Ip; try discriminate.
  - apply (Go (Settle i (Fulfilled 0))); [reflexivity|].
    destruct (serial options); unfold InBand.step, Parallel.step;
      rewrite Ex, Hi; discriminate.
  - destruct (serial options); simpl in Wp; destruct re, rl; try discriminate.
    + apply (Go (Release i)); [reflexivity|]. unfold InBand.step. rewrite Ex, Hi.
      cbn [InBand.settled_with].
      destruct (Throat.release _) as [g [j|]]; discriminate.
    + apply (Go (React i)); [reflexivity|]. unfold InBand.step. rewrite Ex, Hi.
      cbn [InBand.settled_with]. rewrite inband_chain. discriminate.
    + apply (Go (React i)); [reflexivity|]. unfold Parallel.step. rewrite Ex, Hi.
      cbn [Parallel.settled_with].
      destruct (Parallel.chain i _) as [evs [v|c]]; discriminate.
    + apply (Go (Release i)); [reflexivity|]. unfold Parallel.step. rewrite Ex, Hi.
      cbn [Parallel.settled_with].
      destruct (Throat.release _) as [g [j|]]; discriminate.
  - destruct (serial options); simpl in Wp; destruct re, rl; try discriminate.
    + apply (Go (Release i)); [reflexivity|]. unfold InBand.step. rewrite Ex, Hi.
      cbn [InBand.settled_with].
      destruct (Throat.release _) as [g [j|]]; discriminate.
    + apply (Go (React i)); [reflexivity|]. unfold InBand.step. rewrite Ex, Hi.
      cbn [InBand.settled_with]. rewrite inband_chain. discriminate.
    + apply (Go (React i)); [reflexivity|]. unfold Parallel.step. rewrite Ex, Hi.
      cbn [Parallel.settled_with].
      destruct (Parallel.chain i r) as [evs [v|c]]; discriminate.
    + apply (Go (Release i)); [reflexivity|]. unfold Parallel.step. rewrite Ex, Hi.
      cbn [Parallel.settled_with].
      destruct (Throat.release _) as [g [j|]]; discriminate.
Qed.

(** With a gate of positive width, a run that has not dealt with every
    test and was not ended by [exit] can go on. *)
Lemma progress K tests options s k :
  Inv (serial options) K s -> Wf (serial options) s ->
  Live (serial options) (length tests) s -> 1 <= K -> exited s = None ->
  k < length tests -> reacted (phase s k) = false ->
  exists a s', busy a = true /\ step tests options s a = Some s'.
Proof.
  intros I W L HK Ex Hk R.
  destruct (forallb idle (tasks s)) eqn:Idle.
  - exfalso.
    assert (forall i p, tasks s !! i = Some p -> idle p = true) as Id.
    { rewrite forallb_forall in Idle. intros i p Hi. apply Idle.
      apply list_elem_of_In. eapply list_elem_of_lookup_2; eauto. }
    assert (holding s = 0) as H0.
    { apply filter_length_zero. intros j p Hj. apply idle_not_holds. eauto. }
    destruct I as [Hh Hl Hq Hd Hs Hf Ha Hst Hdi].
    assert (Throat.queue (gate s) = []) as Q0.
    { destruct (Throat.queue (gate s)) eqn:E; auto.
      assert (Throat.size (gate s) = 0) by (apply Hf; discriminate). lia. }
    assert (k < length (tasks s)) as Lk by (rewrite (live_len _ _ _ L); exact Hk).
    destruct (lookup_lt_is_Some_2 _ _ Lk) as [p Hp].
    rewrite (phase_lookup _ _ _ Hp) in R. pose proof (Id _ _ Hp) as Ip.
    destruct p as [| |re rl|r re rl]; simpl in *; try discriminate.
    + assert (turns s <= k) as C by (apply (Hd _ _ Hp); reflexivity).
      unfold turns in C. rewrite Q0 in C. simpl in C. lia.
    + subst re. discriminate.
    + subst re. discriminate.
  - apply forallb_false in Idle as (i & p & Hi & Ip).
    eapply busy_task; eauto.
Qed.

Lemma history_execution ser i p :
  count (is_execution i) (history ser i p) = if started p then 1 else 0.
Proof.
  destruct ser, p as [| |[|] rl|[a|e] [|] rl]; hist_compute; reflexivity.
Qed.

(** C8.  In both strategies, when the execution of a test is rejected with
    an error object that is not a fatal pool fault, the handlers attached to
    it emit the failure event of that test with that error and fulfil the
    promise of the test: the process goes on, the promise of the run is not
    rejected, the gate and the other tests are left as they were.  And the
    run goes on with the other tests: however it continues, the promise of
    the run is not rejected; as long as the process is not ended and a test
    of the list lacks its terminal event, something is left to do; and when
    nothing is left to do, the watcher has been polled for every test of the
    list, in order, and every test has its terminal event, having been
    started and executed unless the watcher was found interrupted at its
    turn. *)
Theorem C8_ordinary_failure gc tests w options acts s i e :
  runTests gc tests w options acts = Some s ->
  exited s = None ->
  tasks s !! i = Some (Returned (Rejected e) false (negb (serial options))) ->
  ordinary e = true ->
  exists s',
    step tests options s (React i) = Some s' /\
    trace s' = trace s ++ [EmitFailure i e] /\
    tasks s' = <[i := Returned (Rejected e) true (negb (serial options))]> (tasks s) /\
    gate s' = gate s /\ watcher s' = watcher s /\ exited s' = None /\
    (race s' = race s \/ race s' = Some (Fulfilled tt)) /\
    (forall e', run_promise s' <> Some (Rejected e')) /\
    List.filter (is_terminal i) (trace s') = [EmitFailure i e] /\
    forall acts' s'',
      exec tests options s' acts' = Some s'' ->
      1 <= width gc options ->
      exited s'' = None ->
      (forall e', run_promise s'' <> Some (Rejected e')) /\
      (forall k, k < length tests -> count (is_terminal k) (trace s'') = 0 ->
         exists a s3, busy a = true /\ step tests options s'' a = Some s3) /\
      (quiescent tests options s'' ->
       attempts (trace s'') = seq 0 (length tests) /\
       forall k, k < length tests ->
         count (is_terminal k) (trace s'') = 1 /\
         (~ In (IsInterrupted k true) (trace s'') ->
          count (is_start k) (trace s'') = 1 /\
          count (is_execution k) (trace s'') = 1)).
Proof.
  intros H Ex Hi O.
  pose proof (reachable_inv _ _ _ _ _ _ H) as I.
  pose proof (reachable_live _ _ _ _ _ _ H) as L.
  assert (List.filter (is_terminal i) (trace s ++ [EmitFailure i e])
          = [EmitFailure i e]) as T.
  { rewrite List.filter_app.
    rewrite (filter_history (is_terminal i) _ _ s i I) by auto with about.
    rewrite (phase_lookup _ _ _ Hi). destruct (serial options); hist_compute; reflexivity. }
  assert (forall e', run_promise s <> Some (Rejected e')) as P.
  { intros e' C. destruct (live_promise _ _ _ L) as [N|N]; rewrite N in C; discriminate. }
  assert (forall s', step tests options s (React i) = Some s' ->
            forall acts' s'',
              exec tests options s' acts' = Some s'' ->
              1 <= width gc options ->
              exited s'' = None ->
              (forall e', run_promise s'' <> Some (Rejected e')) /\
              (forall k, k < length tests -> count (is_terminal k) (trace s'') = 0 ->
                 exists a s3, busy a = true /\ step tests options s'' a = Some s3) /\
              (quiescent tests options s'' ->
               attempts (trace s'') = seq 0 (length tests) /\
               forall k, k < length tests ->
                 count (is_terminal k) (trace s'') = 1 /\
                 (~ In (IsInterrupted k true) (trace s'') ->
                  count (is_start k) (trace s'') = 1 /\
                  count (is_execution k) (trace s'') = 1))) as Go.
  { intros s' St acts' s'' E K Ex''.
    assert (runTests gc tests w options (acts ++ React i :: acts') = Some s'') as H''.
    { unfold runTests in *. eapply exec_app; [exact H|]. simpl. rewrite St. exact E. }
    pose proof (reachable_inv _ _ _ _ _ _ H'') as I''.
    pose proof (reachable_live _ _ _ _ _ _ H'') as L''.
    pose proof (reachable_wf _ _ _ _ _ _ H'') as W''.
    assert (forall k, count (is_terminal k) (trace s'')
                      = if reacted (phase s'' k) then 1 else 0) as Ct.
    { intros k. unfold count.
      rewrite (filter_history (is_terminal k) _ _ s'' k I'') by auto with about.
      apply history_terminal. }
    split; [|split].
    - intros e' C. destruct (live_promise _ _ _ L'') as [N|N]; rewrite N in C; discriminate.
    - intros k Hk C. rewrite Ct in C.
      apply (progress (width gc options) tests options s'' k); auto.
      destruct (reacted (phase s'' k)); [discriminate|reflexivity].
    - intros Q.
      pose proof (quiescent_done _ tests options s'' I'' W'' K Ex'' Q) as D.
      rewrite (live_len _ _ _ L'') in D.
      split.
      + rewrite (inv_attempts _ _ _ I''). f_equal.
        pose proof (quiescent_idle tests options s'' W'' Ex'' Q) as Idle.
        assert (holding s'' = 0) as H0.
        { apply filter_length_zero. intros j p Hj. apply idle_not_holds. eauto. }
        pose proof (inv_slots _ _ _ I'') as Sl.
        assert (Throat.queue (gate s'') = []) as Q0.
        { destruct (Throat.queue (gate s'')) eqn:Eq; auto.
          assert (Throat.size (gate s'') = 0)
            by (apply (inv_full _ _ _ I''); rewrite Eq; discriminate).
          lia. }
        unfold turns. rewrite Q0, (live_len _ _ _ L''). simpl. lia.
      + intros k Hk. specialize (D k Hk). rewrite Ct, D. split; [reflexivity|].
        intros NI. unfold count.
        rewrite (filter_history (is_start k) _ _ s'' k I'') by auto with about.
        rewrite (filter_history (is_execution k) _ _ s'' k I'') by auto with about.
        fold (count (is_start k) (history (serial options) k (phase s'' k))).
        fold (count (is_execution k) (history (serial options) k (phase s'' k))).
        rewrite history_start, history_execution.
        destruct (phase s'' k) as [| |re rl|r re rl] eqn:Ph; simpl in D; try discriminate.
        * exfalso. apply NI. apply (history_in _ _ s'' k _ I''). rewrite Ph. left. reflexivity.
        * split; reflexivity. }
  unfold step in *. destruct (serial options) eqn:Ser; simpl in Hi.
  - unfold InBand.step in *. rewrite Ex, Hi in *. simpl in *.
    eexists. split; [reflexivity|].
    split; [|split; [|split; [|split; [|split; [|split; [|split; [|split]]]]]]];
      try (apply Go; reflexivity);
      match goal with |- context [if ?b then _ else _] => destruct b end;
      simpl; auto; discriminate.
  - unfold Parallel.step in *. rewrite Ex, Hi in *. simpl in *.
    rewrite parallel_chain in *.
    destruct e as [|nm ty msg]; [discriminate|]. simpl in O. unfold fatal in *.
    destruct (Parallel.is_fatal ty); [discriminate|].
    eexists. split; [reflexivity|].
    split; [|split; [|split; [|split; [|split; [|split; [|split; [|split]]]]]]];
      try (apply Go; reflexivity);
      unfold Parallel.settle_all; simpl;
      destruct (race s) eqn:R; simpl; rewrite ?R; auto;
      match goal with |- context [if ?b then _ else _] => destruct b end; simpl;
        rewrite ?R; auto.
Qed.

(** C8, a sequential and a parallel run of two tests, the first of which
    fails, both gone on to their end. *)
Lemma C8_ordinary_failure_witness :
  (exists s',
     step two_tests (mkOptions true) failed_in_band (React 0) = Some s' /\
     trace s' = trace failed_in_band ++ [EmitFailure 0 plain_error] /\
     exited s' = None /\
     exec two_tests (mkOptions true) s'
       [Release 0; Settle 1 (Fulfilled 7); React 1; Release 1] = Some recovered_in_band) /\
  count (is_terminal 1) (trace recovered_in_band) = 1 /\
  count (is_execution 1) (trace recovered_in_band) = 1 /\
  (exists s',
     step two_tests (mkOptions false) failed_parallel (React 0) = Some s' /\
     trace s' = trace failed_parallel ++ [EmitFailure 0 plain_error] /\
     exited s' = None /\
     exec two_tests (mkOptions false) s'
       [Settle 1 (Fulfilled 7); Release 1; React 1; Cleanup] = Some recovered_parallel) /\
  count (is_terminal 1) (trace recovered_parallel) = 1 /\
  count (is_execution 1) (trace recovered_parallel) = 1.
Proof.
  destruct (C8_ordinary_failure (mkGlobalConfig 2) two_tests false (mkOptions true)
              [Settle 0 (Rejected plain_error)] failed_in_band 0 plain_error
              eq_refl eq_refl eq_refl eq_refl)
    as (s1 & A1 & B1 & _ & _ & _ & C1 & _ & _ & _ & G1).
  destruct (C8_ordinary_failure (mkGlobalConfig 2) two_tests false (mkOptions false)
              [Settle 0 (Rejected plain_error); Release 0] failed_parallel 0 plain_error
              eq_refl eq_refl eq_refl eq_refl)
    as (s2 & A2 & B2 & _ & _ & _ & C2 & _ & _ & _ & G2).
  assert (exec two_tests (mkOptions true) s1
            [Release 0; Settle 1 (Fulfilled 7); React 1; Release 1]
          = Some recovered_in_band) as E1.
  { pose proof A1 as A. vm_compute in A. injection A as <-. reflexivity. }
  assert (exec two_tests (mkOptions false) s2
            [Settle 1 (Fulfilled 7); Release 1; React 1; Cleanup]
          = Some recovered_parallel) as E2.
  { pose proof A2 as A. vm_compute in A. injection A as <-. reflexivity. }
  destruct (G1 _ _ E1 (le_n 1) eq_refl) as (_ & _ & Q1).
  destruct (G2 _ _ E2 (Nat.le_succ_diag_r 1) eq_refl) as (_ & _ & Q2).
  destruct Q1 as [_ Q1]; [apply quiescentb_sound; reflexivity|].
  destruct Q2 as [_ Q2]; [apply quiescentb_sound; reflexivity|].
  destruct (Q1 1 (le_n 2)) as [T1 S1].
  destruct (Q2 1 (le_n 2)) as [T2 S2].
  destruct S1 as [_ X1]; [vm_compute; intuition discriminate|].
  destruct S2 as [_ X2]; [vm_compute; intuition discriminate|].
  split; [exists s1; auto|]. split; [exact T1|]. split; [exact X1|].
  split; [exists s2; auto|]. split; [exact T2|exact X2].
Defined.

(** C9.  There is a parallel run in which the watcher becomes interrupted
    while the second test waits at the gate: when the gate lets it in, the
    gated body returns [Promise.reject()]; the error handler then runs with
    [undefined], emits a failure event that carries [undefined], and its
    read of [err.type] throws, so the promise of that test is rejected with
    a [TypeError]. *)
Theorem C9_interrupted_while_queued :
  exists s0 s1 s2,
    runTests (mkGlobalConfig 1) two_tests false (mkOptions false) [] = Some s0 /\
    tasks s0 = [Running; Queued] /\
    exec two_tests (mkOptions false) s0
      [WatcherChange true; Settle 0 (Fulfilled 7); Release 0] = Some s1 /\
    tasks s1 !! 1 = Some (Refused false false) /\
    Parallel.settled_with (Refused false false) = Some (Rejected JsUndefined, false, false) /\
    exec two_tests (mkOptions false) s1 [React 0; Release 1; React 1] = Some s2 /\
    trace s2 = trace s1 ++ [EmitSuccess 0 7; EmitFailure 1 JsUndefined] /\
    get_type JsUndefined = Rejected TypeError /\
    Parallel.onError JsUndefined 1
    = ([EmitFailure 1 JsUndefined], Val (Rejected TypeError)) /\
    count (is_start 1) (trace s2) = 0.
Proof.
  do 3 eexists. split; [reflexivity|]. split; [reflexivity|].
  split; [reflexivity|]. split; [reflexivity|]. split; [reflexivity|].
  split; [reflexivity|]. repeat split.
Qed.

(** ** Every action uses up fuel *)

Lemma sum_insert (l : list Phase) i x y :
  l !! i = Some x ->
  list_sum (map weight (<[i:=y]> l)) + weight x = list_sum (map weight l) + weight y.
Proof.
  revert i. induction l as [|a l IH]; intros [|i] H; simplify_eq/=; try lia.
  specialize (IH _ H). lia.
Qed.

Lemma fuel_upd s i p p' evs :
  tasks s !! i = Some p ->
  fuel (upd i p' evs s) + weight p = fuel s + weight p'.
Proof.
  intros H. unfold fuel. simpl. pose proof (sum_insert _ _ _ p' H). lia.
Qed.

Lemma fuel_enter ser s g j :
  tasks s !! j = Some Queued -> fuel (enter ser j (set_gate g s)) < fuel s.
Proof.
  intros H. rewrite enter_eq. simpl.
  destruct (watcher s);
    match goal with |- fuel (upd ?i ?p ?evs ?s0) < _ =>
      pose proof (fuel_upd s0 i Queued p evs H) as F end;
    simpl in F; unfold fuel in *; simpl in *; lia.
Qed.

Lemma fuel_release ser K s i p p' :
  Inv ser K s -> tasks s !! i = Some p -> p <> Queued -> p' <> Queued ->
  weight p = S (weight p') ->
  fuel (match Throat.release (gate s) with
        | (g, Some j) => enter ser j (set_gate g (upd i p' [] s))
        | (g, None) => set_gate g (upd i p' [] s)
        end) < fuel s.
Proof.
  intros I Hi N N' Wt.
  pose proof (fuel_upd s i p p' [] Hi) as F.
  destruct (Throat.release (gate s)) as [g [j|]] eqn:R.
  - pose proof (release_next _ _ _ _ _ I R) as Hj.
    assert (tasks (upd i p' [] s) !! j = Some Queued) as Hj'.
    { simpl. rewrite list_lookup_insert_ne; auto. intros ->. congruence. }
    pose proof (fuel_enter ser (upd i p' [] s) g j Hj'). lia.
  - change (fuel (set_gate g (upd i p' [] s))) with (fuel (upd i p' [] s)). lia.
Qed.

Lemma fuel_step K tests options s a s' :
  Inv (serial options) K s -> step tests options s a = Some s' ->
  fuel s' + (if busy a then 1 else 0) <= fuel s.
Proof.
  intros I. unfold step. destruct (serial options) eqn:Ser.
  - unfold InBand.step. destruct (exited s); [discriminate|].
    destruct a as [i r|i|i|b|]; try discriminate.
    + destruct (tasks s !! i) as [[]|] eqn:Hi; try discriminate.
      intros [= <-]. pose proof (fuel_upd s i _ (Returned r false false) [] Hi).
      simpl in *. lia.
    + destruct (tasks s !! i) as [p|] eqn:Hi; try discriminate.
      destruct (InBand.settled_with p) as [[[r re] rl]|] eqn:Hs; try discriminate.
      destruct re, rl; try discriminate.
      rewrite inband_chain. intros [= <-].
      pose proof (fuel_upd s i _ (InBand.mark p true false) [terminal i r] Hi) as F.
      assert (weight p = S (weight (InBand.mark p true false))) as Wt
        by (destruct p; simpl in Hs; simplify_eq; reflexivity).
      match goal with |- context [if ?b then _ else _] => destruct b end;
        unfold fuel in *; simpl in *; destruct (run_promise s); lia.
    + destruct (tasks s !! i) as [p|] eqn:Hi; try discriminate.
      destruct (InBand.settled_with p) as [[[r re] rl]|] eqn:Hs; try discriminate.
      destruct re, rl; try discriminate.
      assert (weight p = S (weight (InBand.mark p true true)) /\ p <> Queued /\
              InBand.mark p true true <> Queued) as (Wt & N & N')
        by (destruct p; simpl in Hs; simplify_eq; repeat split; discriminate).
      pose proof (fuel_release true K s i p _ I Hi N N' Wt) as F.
      unfold enter in F. cbv zeta. unfold Parallel.mark.
      change (gate (upd i (InBand.mark p true true) [] s)) with (gate s).
      destruct (Throat.release (gate s)) as [g [j|]]; intros [= <-];
        change (busy (Release i)) with true; cbv iota; lia.
    + intros [= <-]. simpl. unfold fuel. simpl. lia.
  - unfold Parallel.step. destruct (exited s); [discriminate|].
    destruct a as [i r|i|i|b|].
    + destruct (tasks s !! i) as [[]|] eqn:Hi; try discriminate.
      intros [= <-]. pose proof (fuel_upd s i _ (Returned r false false) [] Hi).
      simpl in *. lia.
    + destruct (tasks s !! i) as [p|] eqn:Hi; try discriminate.
      destruct (Parallel.settled_with p) as [[[r re] rl]|] eqn:Hs; try discriminate.
      destruct re, rl; try discriminate.
      assert (weight p = S (weight (InBand.mark p true true))) as Wt
        by (destruct p; simpl in Hs; simplify_eq; reflexivity).
      destruct (Parallel.chain i r) as [evs [v|c]] eqn:Hc; intros [= <-].
      * pose proof (fuel_upd s i _ (InBand.mark p true true) evs Hi) as F.
        assert (fuel (Parallel.settle_all tests v (upd i (Parallel.mark p true true) evs s))
                = fuel (upd i (InBand.mark p true true) evs s)) as ->.
        { unfold Parallel.settle_all, Parallel.mark. destruct (race _); auto.
          destruct v; auto.
          match goal with |- context [if ?b then _ else _] => destruct b end; auto. }
        simpl. lia.
      * pose proof (fuel_upd s i _ (InBand.mark p true true) evs Hi) as F.
        change (fuel (set_exited (Some c) (upd i (Parallel.mark p true true) evs s)))
          with (fuel (upd i (InBand.mark p true true) evs s)).
        simpl. lia.
    + destruct (tasks s !! i) as [p|] eqn:Hi; try discriminate.
      destruct (Parallel.settled_with p) as [[[r re] rl]|] eqn:Hs; try discriminate.
      destruct re, rl; try discriminate.
      assert (weight p = S (weight (InBand.mark p false true)) /\ p <> Queued /\
              InBand.mark p false true <> Queued) as (Wt & N & N')
        by (destruct p; simpl in Hs; simplify_eq; repeat split; discriminate).
      pose proof (fuel_release false K s i p _ I Hi N N' Wt) as F.
      unfold enter in F. cbv zeta. unfold Parallel.mark.
      change (gate (upd i (InBand.mark p false true) [] s)) with (gate s).
      destruct (Throat.release (gate s)) as [g [j|]]; intros [= <-];
        change (busy (Release i)) with true; cbv iota; lia.
    + intros [= <-]. destruct b; simpl; [destruct (race s)|]; unfold fuel; simpl; lia.
    + destruct (race s) as [r|]; try discriminate.
      destruct (run_promise s) eqn:P; try discriminate.
      destruct r; simpl; intros [= <-]; unfold fuel; simpl; rewrite P; lia.
Qed.

Lemma fuel_exec K tests options acts : forall s s',
  Inv (serial options) K s -> exec tests options s acts = Some s' ->
  fuel s' + length (List.filter busy acts) <= fuel s.
Proof.
  induction acts as [|a acts IH]; simpl; intros s s' I H.
  - injection H as <-. lia.
  - destruct (step tests options s a) as [s1|] eqn:E; [|discriminate].
    pose proof (fuel_step _ _ _ _ _ _ I E) as F.
    pose proof (IH _ _ (inv_step _ _ _ _ _ _ I E) H) as G.
    destruct (busy a); simpl in *; lia.
Qed.

Lemma fuel_mutex_call ser s t : fuel (mutex_call ser s t) <= fuel s + 4.
Proof.
  assert (mutex_call ser s t =
          match Throat.run (gate s) (length (tasks s)) with
          | (g, true) => enter ser (length (tasks s)) (set_gate g (push_task s))
          | (g, false) => set_gate g (push_task s)
          end) as -> by (destruct ser; reflexivity).
  assert (fuel (push_task s) = fuel s + 4) as P.
  { unfold fuel. simpl. rewrite map_app, list_sum_app. simpl. lia. }
  destruct (Throat.run (gate s) (length (tasks s))) as [g [|]].
  - assert (tasks (push_task s) !! length (tasks s) = Some Queued) as Hj.
    { simpl. rewrite lookup_app_r by lia. rewrite Nat.sub_diag. reflexivity. }
    pose proof (fuel_enter ser (push_task s) g _ Hj). lia.
  - change (fuel (set_gate g (push_task s))) with (fuel (push_task s)). lia.
Qed.

Lemma fuel_seed {A} (l : list A) s v r :
  fuel (match l with [] => set_run_promise (Some v) s | _ => s end) <= fuel s /\
  fuel (match l with [] => set_race r s | _ => s end) <= fuel s.
Proof.
  destruct l; unfold fuel; simpl; destruct (run_promise s); lia.
Qed.

Lemma fuel_start gc tests w options :
  fuel (start gc tests w options) <= 4 * length tests + 1.
Proof.
  assert (forall ser s, fuel (fold_left (mutex_call ser) tests s)
                        <= fuel s + 4 * length tests) as F.
  { intros ser. induction tests as [|t tests IH]; simpl; intros s; [lia|].
    specialize (IH (mutex_call ser s t)). pose proof (fuel_mutex_call ser s t). lia. }
  unfold start. destruct (serial options).
  - unfold InBand.start. specialize (F true (InBand.init w)).
    change (fuel (InBand.init w)) with 1 in F.
    change InBand.mutex_call with (mutex_call true).
    cbv zeta.
    pose proof (proj1 (fuel_seed tests (fold_left (mutex_call true) tests (InBand.init w))
                         (Fulfilled tt) None)).
    lia.
  - unfold Parallel.start. specialize (F false (Parallel.init gc w)).
    change (fuel (Parallel.init gc w)) with 1 in F.
    change Parallel.mutex_call with (mutex_call false).
    cbv zeta.
    pose proof (proj2 (fuel_seed tests (fold_left (mutex_call false) tests (Parallel.init gc w))
                         (Fulfilled tt) (Some (Fulfilled tt)))).
    lia.
Qed.

(** C5 (as amended).  In both strategies the promise of [runTests] is never
    rejected, so that a cancellation is never surfaced as a failure; it is a
    promise of nothing: the one value it is ever settled with is the fulfilment
    without a value, be the run completed or cancelled.  A run whose process
    was not ended by [exit] and that has nothing left to do has fulfilled it;
    and a run takes at most [4 * n + 1] actions, changes of the watcher apart,
    so it cannot go on for ever without getting there. *)
Theorem C5_run_resolves gc tests w options acts s :
  runTests gc tests w options acts = Some s ->
  1 <= width gc options ->
  (forall e, run_promise s <> Some (Rejected e)) /\
  (forall v, run_promise s = Some v -> v = Fulfilled tt) /\
  (exited s = None -> quiescent tests options s ->
   run_promise s = Some (Fulfilled tt)) /\
  length (List.filter busy acts) <= 4 * length tests + 1.
Proof.
  intros H HK.
  pose proof (reachable_inv _ _ _ _ _ _ H) as I.
  pose proof (reachable_wf _ _ _ _ _ _ H) as W.
  pose proof (reachable_live _ _ _ _ _ _ H) as L.
  assert (forall e, run_promise s <> Some (Rejected e)) as P.
  { intros e C. destruct (live_promise _ _ _ L) as [N|N]; rewrite N in C; discriminate. }
  split; [exact P|]. split; [|split].
  - intros v R. destruct (live_promise _ _ _ L) as [N|N]; rewrite N in R.
    + discriminate.
    + injection R as <-. reflexivity.
  - intros Ex Q.
    assert (run_promise s <> None) as N.
    { pose proof (quiescent_done _ tests options s I W HK Ex Q) as D.
      rewrite (live_len _ _ _ L) in D.
      destruct (serial options) eqn:Ser.
      - apply (live_seq _ _ _ L eq_refl).
        destruct (length tests) as [|n] eqn:E; auto. right. apply D. lia.
      - destruct (live_par _ _ _ L eq_refl) as (_ & _ & P3).
        specialize (P3 Ex D).
        pose proof (Q Cleanup eq_refl) as QC. unfold step in QC. rewrite Ser in QC.
        unfold Parallel.step in QC. rewrite Ex in QC.
        destruct (race s) as [r|]; [|contradiction].
        destruct (run_promise s); [discriminate|]. destruct r; discriminate. }
    destruct (live_promise _ _ _ L); [contradiction | assumption].
  - pose proof (fuel_exec _ _ _ _ _ _ (inv_start gc tests w options) H) as F.
    pose proof (fuel_start gc tests w options). lia.
Qed.

(** C5, three runs that have come to their end. *)
Lemma C5_run_resolves_witness :
  run_promise completed_parallel = Some (Fulfilled tt) /\
  run_promise cancelled_parallel = Some (Fulfilled tt) /\
  run_promise cancelled_in_band = Some (Fulfilled tt).
Proof.
  destruct (C5_run_resolves (mkGlobalConfig 1) two_tests false (mkOptions false)
              [Settle 0 (Fulfilled 7); Release 0; React 0;
               Settle 1 (Rejected plain_error); Release 1; React 1; Cleanup]
              completed_parallel eq_refl (le_n 1)) as (_ & _ & A & _).
  destruct (C5_run_resolves (mkGlobalConfig 1) two_tests false (mkOptions false)
              [WatcherChange true; Cleanup; Settle 0 (Fulfilled 7); Release 0; React 0;
               Release 1; React 1]
              cancelled_parallel eq_refl (le_n 1)) as (_ & _ & B & _).
  destruct (C5_run_resolves (mkGlobalConfig 2) two_tests true (mkOptions true)
              [React 0; Release 0; React 1; Release 1]
              cancelled_in_band eq_refl (le_n 1)) as (_ & _ & C & _).
  split; [|split].
  - apply (A eq_refl). apply quiescentb_sound. reflexivity.
  - apply (B eq_refl). apply quiescentb_sound. reflexivity.
  - apply (C eq_refl). apply quiescentb_sound. reflexivity.
Defined.

(** C5 as stated fails: the promise of [runTests] carries no outcome.  A
    parallel run that completes and one that is cancelled while its second
    test waits at the gate settle it with the same value. *)
Lemma C5_counterexample :
  runTests (mkGlobalConfig 1) two_tests false (mkOptions false)
    [Settle 0 (Fulfilled 7); Release 0; React 0;
     Settle 1 (Rejected plain_error); Release 1; React 1; Cleanup]
  = Some completed_parallel /\
  runTests (mkGlobalConfig 1) two_tests false (mkOptions false)
    [WatcherChange true; Cleanup; Settle 0 (Fulfilled 7); Release 0; React 0;
     Release 1; React 1]
  = Some cancelled_parallel /\
  count (is_start 1) (trace completed_parallel) = 1 /\
  count (is_start 1) (trace cancelled_parallel) = 0 /\
  In (IsInterrupted 1 true) (trace cancelled_parallel) /\
  run_promise completed_parallel = run_promise cancelled_parallel.
Proof.
  split; [reflexivity|]. split; [reflexivity|]. split; [reflexivity|].
  split; [reflexivity|]. split; [|reflexivity].
  vm_compute. intuition.
Qed.

(** ** Further properties of the scheduler *)

Lemma step_cases tests options s a s' :
  step tests options s a = Some s' ->
  exited s = None /\ StepCase (serial options) (length tests) s s' a.
Proof.
  unfold step. destruct (serial options) eqn:Ser.
  - unfold InBand.step. destruct (exited s) eqn:Ex; [discriminate|].
    intros H. split; auto.
    destruct a as [i r|i|i|b|]; try discriminate.
    + destruct (tasks s !! i) as [[]|] eqn:Hi; try discriminate.
      injection H as <-. eapply case_settle; eauto.
    + destruct (tasks s !! i) as [p|] eqn:Hi; try discriminate.
      destruct (InBand.settled_with p) as [[[r re] rl]|] eqn:Hs; try discriminate.
      destruct re, rl; try discriminate.
      rewrite inband_chain in H.
      destruct (Nat.eqb (S i) (length tests)) eqn:E; injection H as <-;
        (eapply (case_react true _ _ _ i p r); eauto;
         unfold handlers; rewrite ?inband_chain, ?E; reflexivity).
    + destruct (tasks s !! i) as [p|] eqn:Hi; try discriminate.
      destruct (InBand.settled_with p) as [[[r re] rl]|] eqn:Hs; try discriminate.
      destruct re, rl; try discriminate.
      eapply (case_release true _ _ _ i p r); eauto.
      simpl in H. change (gate (upd i (InBand.mark p true true) [] s)) with (gate s) in H.
      unfold enter.
      destruct (Throat.release (gate s)) as [g [j|]]; injection H as <-; reflexivity.
    + injection H as <-. apply case_watcher; reflexivity.
  - unfold Parallel.step. destruct (exited s) eqn:Ex; [discriminate|].
    intros H. split; auto.
    destruct a as [i r|i|i|b|].
    + destruct (tasks s !! i) as [[]|] eqn:Hi; try discriminate.
      injection H as <-. eapply case_settle; eauto.
    + destruct (tasks s !! i) as [p|] eqn:Hi; try discriminate.
      destruct (Parallel.settled_with p) as [[[r re] rl]|] eqn:Hs; try discriminate.
      destruct re, rl; try discriminate.
      assert (forall x (s0 : State), tasks (Parallel.settle_all tests x s0) = tasks s0 /\
                trace (Parallel.settle_all tests x s0) = trace s0 /\
                gate (Parallel.settle_all tests x s0) = gate s0 /\
                watcher (Parallel.settle_all tests x s0) = watcher s0 /\
                run_promise (Parallel.settle_all tests x s0) = run_promise s0) as SA.
      { intros x s0. unfold Parallel.settle_all. destruct (race s0); auto.
        destruct x; auto.
        match goal with |- context [if ?b then _ else _] => destruct b end; auto. }
      destruct (Parallel.chain i r) as [evs [v|c]] eqn:Hc; injection H as <-.
      * destruct (SA v (upd i (Parallel.mark p true true) evs s)) as (A1 & A2 & A3 & A4 & A5).
        eapply (case_react false _ _ _ i p r); eauto;
          rewrite ?A1, ?A2, ?A3, ?A4, ?A5; unfold handlers; rewrite ?Hc; reflexivity.
      * eapply (case_react false _ _ _ i p r); eauto;
          unfold handlers; rewrite ?Hc; reflexivity.
    + destruct (tasks s !! i) as [p|] eqn:Hi; try discriminate.
      destruct (Parallel.settled_with p) as [[[r re] rl]|] eqn:Hs; try discriminate.
      destruct re, rl; try discriminate.
      eapply (case_release false _ _ _ i p r); eauto.
      simpl in H.
      change (gate (upd i (Parallel.mark p false true) [] s)) with (gate s) in H.
      unfold enter, Parallel.mark in *.
      destruct (Throat.release (gate s)) as [g [j|]]; injection H as <-; reflexivity.
    + injection H as <-. destruct b; simpl; [destruct (race s)|];
        apply case_watcher; reflexivity.
    + destruct (race s) as [r|]; try discriminate.
      destruct (run_promise s); try discriminate.
      destruct r; simpl in H; injection H as <-; apply case_cleanup; reflexivity.
Qed.

Lemma reachable_ind gc tests w options (P : State -> Prop) :
  P (start gc tests w options) ->
  (forall s a s',
     Inv (serial options) (width gc options) s ->
     Live (serial options) (length tests) s ->
     Wf (serial options) s ->
     P s -> step tests options s a = Some s' -> P s') ->
  forall acts s, runTests gc tests w options acts = Some s -> P s.
Proof.
  intros P0 PS acts. unfold runTests.
  generalize (inv_start gc tests w options) (live_start gc tests w options)
    (wf_start gc tests w options) P0.
  generalize (start gc tests w options).
  induction acts as [|a acts IH]; simpl; intros s0 I L W Q s H.
  - injection H as <-. exact Q.
  - destruct (step tests options s0 a) as [s1|] eqn:E; [|discriminate].
    apply (IH s1); auto.
    + eapply inv_step; eauto.
    + eapply live_step; eauto.
    + eapply wf_step; eauto.
    + eapply PS; eauto.
Qed.

Lemma start_ind gc tests w options (P : State -> Prop) :
  (forall s s', tasks s' = tasks s -> trace s' = trace s -> gate s' = gate s ->
                watcher s' = watcher s -> P s -> P s') ->
  P (if serial options then InBand.init w else Parallel.init gc w) ->
  (forall s t, Inv (serial options) (width gc options) s -> P s ->
               P (mutex_call (serial options) s t)) ->
  P (start gc tests w options).
Proof.
  intros Fr P0 PS.
  assert (forall s, Inv (serial options) (width gc options) s -> P s ->
            P (fold_left (mutex_call (serial options)) tests s)) as F.
  { induction tests as [|t tests IH]; simpl; auto.
    intros s I Q. apply IH; auto. apply inv_mutex_call; auto. }
  unfold start, width in *. destruct (serial options).
  - unfold InBand.start.
    assert (P (fold_left InBand.mutex_call tests (InBand.init w))) as Q
      by (apply F; auto; apply inv_init; reflexivity).
    destruct tests; auto. eapply Fr; [..|exact Q]; reflexivity.
  - unfold Parallel.start.
    assert (P (fold_left Parallel.mutex_call tests (Parallel.init gc w))) as Q
      by (apply F; auto; apply inv_init; reflexivity).
    destruct tests; auto. eapply Fr; [..|exact Q]; reflexivity.
Qed.

Lemma mutex_call_eq ser s t :
  mutex_call ser s t =
  match Throat.run (gate s) (length (tasks s)) with
  | (g, true) => enter ser (length (tasks s)) (set_gate g (push_task s))
  | (g, false) => set_gate g (push_task s)
  end.
Proof. destruct ser; reflexivity. Qed.

Lemma enter_shape ser j s :
  exists p' evs,
    enter ser j s = upd j p' evs s /\
    (p' = Running \/ p' = Refused false false) /\
    Forall (fun e => test_of e = Some j) evs /\
    count is_boot evs = 0.
Proof.
  rewrite enter_eq. destruct (watcher s).
  - exists (Refused false false), [IsInterrupted j true]. repeat split; auto.
  - exists Running, [IsInterrupted j false; EmitStart j; exec_effect ser j].
    repeat split; auto.
    + repeat constructor. destruct ser; reflexivity.
    + destruct ser; reflexivity.
Qed.

Lemma handlers_shape ser i r :
  exists tl, fst (handlers ser i r) = terminal i r :: tl /\
             indices tl = [] /\ count is_boot (terminal i r :: tl) = 0.
Proof.
  unfold handlers. destruct ser.
  - rewrite inband_chain. exists []. destruct r; auto.
  - rewrite parallel_chain. destruct r as [a|[|nm ty msg]]; simpl.
    + exists []. auto.
    + exists []. auto.
    + destruct (Parallel.is_fatal ty); simpl; eexists; split; eauto.
Qed.

(** *** The holder of the one slot *)

Lemma holding_zero s i p :
  holding s = 0 -> tasks s !! i = Some p -> holds p = false.
Proof.
  unfold holding. revert i. induction (tasks s) as [|q l IH]; intros i H Hi.
  - rewrite lookup_nil in Hi. discriminate.
  - simpl in H. destruct (holds q) eqn:Q; [discriminate|].
    destruct i; simpl in Hi; [congruence | eauto].
Qed.

Lemma latest_enter s g j :
  (forall i p, tasks s !! i = Some p -> holds p = false) ->
  j < length (tasks s) ->
  length (tasks s) - length (Throat.queue g) = S j ->
  Latest (enter true j (set_gate g s)).
Proof.
  intros N L T. destruct (enter_shape true j (set_gate g s)) as (p' & evs & -> & _).
  intros k q Hk Hq. unfold turns. simpl in *. rewrite length_insert, T.
  destruct (decide (k = j)) as [->|D]; auto.
  rewrite list_lookup_insert_ne in Hk by auto.
  rewrite (N _ _ Hk) in Hq. discriminate.
Qed.

Lemma latest_mutex_call s t : Inv true 1 s -> Latest s -> Latest (mutex_call true s t).
Proof.
  intros I La. rewrite mutex_call_eq. unfold Throat.run.
  destruct I as [Hh Hl Hq Hd Hs Hf Ha Hst Hdi].
  destruct (Throat.size (gate s)) as [|n'] eqn:Sz.
  - intros k q Hk Hq'. simpl in Hk. apply lookup_push in Hk as [[L Hk]|[-> ->]].
    + rewrite (La _ _ Hk Hq'). unfold turns. simpl. rewrite !length_app. simpl. lia.
    + discriminate.
  - assert (Throat.queue (gate s) = []) as Q.
    { destruct (Throat.queue (gate s)) eqn:E; auto.
      assert (S n' = 0) by (apply Hf; discriminate). discriminate. }
    apply latest_enter.
    + intros i p Hi. simpl in Hi. apply lookup_push in Hi as [[L Hi]|[-> ->]]; auto.
      eapply holding_zero; eauto. lia.
    + simpl. rewrite length_app. simpl. lia.
    + simpl. rewrite length_app, Q. simpl. lia.
Qed.

Lemma latest_step gc tests options s a s' :
  serial options = true ->
  Inv true (width gc options) s -> Latest s ->
  step tests options s a = Some s' -> Latest s'.
Proof.
  intros Ser I La H. apply step_cases in H as [Ex C]. rewrite Ser in C.
  assert (forall s1 : State, gate s1 = gate s -> length (tasks s1) = length (tasks s) ->
            turns s1 = turns s) as T by (intros s1 G L; unfold turns; rewrite G, L; auto).
  destruct C as [i r Hi ->|i p r Hi Hs Ht Htr Hg Hw Hp|i p r Hi Hs ->|b Ht Htr Hg Hw Hp|F Ht Htr Hg Hw].
  - intros k q Hk Hq. rewrite T by (simpl; rewrite ?length_insert; auto).
    simpl in Hk. destruct (decide (k = i)) as [->|D].
    + apply (La _ _ Hi). reflexivity.
    + rewrite list_lookup_insert_ne in Hk by auto. eauto.
  - intros k q Hk Hq. rewrite T by (rewrite ?Ht, ?length_insert; auto).
    rewrite Ht in Hk. destruct (decide (k = i)) as [->|D].
    + apply (La _ _ Hi). apply (settled_with_inv true) in Hs as [[-> _]| ->]; reflexivity.
    + rewrite list_lookup_insert_ne in Hk by auto. eauto.
  - assert (holds p = true) as Hp
      by (apply (settled_with_inv true) in Hs as [[-> _]| ->]; reflexivity).
    assert (forall k q, tasks (upd i (InBand.mark p true true) [] s) !! k = Some q ->
              holds q = false) as N.
    { intros k q Hk. simpl in Hk.
      assert (i < length (tasks s)) by (eapply lookup_lt_Some; eauto).
      destruct (decide (k = i)) as [->|D].
      - rewrite list_lookup_insert_eq in Hk by auto. injection Hk as <-.
        apply (settled_with_inv true) in Hs as [[-> _]| ->]; reflexivity.
      - rewrite list_lookup_insert_ne in Hk by auto.
        destruct (holds q) eqn:Q; auto.
        pose proof (La _ _ Hk Q). pose proof (La _ _ Hi Hp). lia. }
    destruct I as [Hh Hl Hq Hd Hsl Hf Ha Hst Hdi].
    unfold Throat.release. destruct (Throat.queue (gate s)) as [|j q] eqn:Q.
    + intros k q Hk Hq'. rewrite (N _ _ Hk) in Hq'. discriminate.
    + simpl in Hq, Hl. injection Hq as Hj Hq'.
      assert (turns s + S (length q) = length (tasks s)) as Len
        by (unfold turns; rewrite Q; simpl; lia).
      apply latest_enter; auto; simpl; rewrite length_insert; lia.
  - intros k q Hk Hq. rewrite T by (rewrite ?Ht; auto). rewrite Ht in Hk. eauto.
  - discriminate.
Qed.

Theorem reachable_latest gc tests w options acts s :
  serial options = true ->
  runTests gc tests w options acts = Some s -> Latest s.
Proof.
  intros Ser. revert acts s. apply reachable_ind.
  - apply start_ind.
    + intros s s' Ht _ Hg _ La k q Hk Hq. unfold turns. rewrite Hg, Ht.
      rewrite Ht in Hk. apply (La _ _ Hk Hq).
    + rewrite Ser. intros k q Hk. simpl in Hk. rewrite lookup_nil in Hk. discriminate.
    + rewrite Ser. intros s t I La. apply latest_mutex_call; auto.
      unfold width in I. rewrite Ser in I. exact I.
  - intros s a s' I _ _ La H. rewrite Ser in I. eapply latest_step; eauto.
Qed.

(** *** The order of the events of a sequential run *)

Lemma in_indices tr k : In k (indices tr) -> exists e, In e tr /\ test_of e = Some k.
Proof.
  unfold indices. induction tr as [|e tr IH]; simpl; [tauto|].
  destruct (test_of e) as [j|] eqn:E; simpl.
  - intros [<-|H]; eauto. destruct (IH H) as (e' & ? & ?). eauto.
  - intros H. destruct (IH H) as (e' & ? & ?). eauto.
Qed.

Lemma test_of_about e k : test_of e = Some k -> about k e = true.
Proof.
  destruct e; simpl; intros H; try discriminate; injection H as ->; apply Nat.eqb_refl.
Qed.

Lemma index_bound ser K s k : Inv ser K s -> In k (indices (trace s)) -> k < turns s.
Proof.
  intros I H. apply in_indices in H as (e & He & T).
  pose proof (in_history _ _ s k e I He (test_of_about _ _ T)) as Hin.
  unfold phase in Hin. destruct (tasks s !! k) as [p|] eqn:Hk; simpl in Hin; [|tauto].
  destruct (decide (turns s <= k)) as [C|C]; [|lia].
  apply (inv_queued _ _ _ I _ _ Hk) in C. subst p. simpl in Hin. tauto.
Qed.

Lemma sorted_snoc_all (l l' : list nat) x :
  StronglySorted le l -> (forall k, In k l -> k <= x) -> Forall (eq x) l' ->
  StronglySorted le (l ++ l').
Proof.
  intros Sl B F. induction Sl as [|a l Sl IH Fa]; simpl.
  - induction F as [|y l' <- F IH']; constructor; auto.
    clear IH'. induction F as [|z l' <- F IH'']; constructor; auto.
  - constructor.
    + apply IH. intros k Hk. apply B. right. exact Hk.
    + apply Forall_app. split; auto.
      assert (a <= x) by (apply B; left; reflexivity).
      eapply Forall_impl; [exact F|]. simpl. intros y <-. assumption.
Qed.

Lemma indices_all j evs :
  Forall (fun e => test_of e = Some j) evs -> Forall (eq j) (indices evs).
Proof.
  unfold indices. induction 1 as [|e evs He F IH]; simpl; [constructor|].
  rewrite He. simpl. constructor; auto.
Qed.

Lemma ordered_enter ser s g j :
  (forall k, In k (indices (trace s)) -> k <= j) ->
  StronglySorted le (indices (trace s)) ->
  StronglySorted le (indices (trace (enter ser j (set_gate g s)))).
Proof.
  intros B O. destruct (enter_shape ser j (set_gate g s)) as (p' & evs & -> & _ & F & _).
  simpl. unfold indices. rewrite omap_app. apply (sorted_snoc_all _ _ j); auto.
  apply indices_all. exact F.
Qed.

Lemma ordered_step gc tests options s a s' :
  serial options = true ->
  Inv true (width gc options) s -> Latest s ->
  StronglySorted le (indices (trace s)) ->
  step tests options s a = Some s' ->
  StronglySorted le (indices (trace s')).
Proof.
  intros Ser I La O H. apply step_cases in H as [Ex C]. rewrite Ser in C.
  destruct C as [i r Hi ->|i p r Hi Hs Ht Htr Hg Hw Hp|i p r Hi Hs ->|b Ht Htr Hg Hw Hp|F Ht Htr Hg Hw].
  - simpl. rewrite app_nil_r. exact O.
  - rewrite Htr. destruct (handlers_shape true i r) as (tl & -> & Tl & _).
    assert (indices (terminal i r :: tl) = [i]) as E1.
    { change (indices (terminal i r :: tl))
        with (match test_of (terminal i r) with
              | Some y => y :: indices tl
              | None => indices tl
              end).
      rewrite Tl. destruct r; reflexivity. }
    assert (indices (trace s ++ terminal i r :: tl)
            = indices (trace s) ++ indices (terminal i r :: tl)) as ->
      by apply omap_app.
    rewrite E1. apply (sorted_snoc_all _ _ i); auto.
    intros k Hk. pose proof (index_bound _ _ _ _ I Hk) as B.
    assert (S i = turns s) as E.
    { apply (La _ _ Hi). apply (settled_with_inv true) in Hs as [[-> _]| ->]; reflexivity. }
    lia.
  - unfold Throat.release. destruct (Throat.queue (gate s)) as [|j q] eqn:Q.
    + simpl. rewrite app_nil_r. exact O.
    + pose proof (inv_queue _ _ _ I) as Hq. rewrite Q in Hq. simpl in Hq.
      injection Hq as Hj _.
      apply ordered_enter; simpl; rewrite app_nil_r; auto.
      intros k Hk. pose proof (index_bound _ _ _ _ I Hk). lia.
  - rewrite Htr. exact O.
  - discriminate.
Qed.

Lemma ordered_mutex_call s t :
  Inv true 1 s -> StronglySorted le (indices (trace s)) ->
  StronglySorted le (indices (trace (mutex_call true s t))).
Proof.
  intros I O. rewrite mutex_call_eq. unfold Throat.run.
  destruct (Throat.size (gate s)) as [|n'] eqn:Sz; [exact O|].
  apply ordered_enter; auto. simpl.
  intros k Hk. pose proof (index_bound _ _ _ _ I Hk). unfold turns in *. lia.
Qed.

Theorem reachable_ordered gc tests w options acts s :
  serial options = true ->
  runTests gc tests w options acts = Some s ->
  StronglySorted le (indices (trace s)).
Proof.
  intros Ser H.
  assert (Latest s /\ StronglySorted le (indices (trace s))) as [_ O]; [|exact O].
  revert acts s H. apply reachable_ind.
  - split; [apply (reachable_latest gc tests w options []); auto|].
    apply start_ind.
    + intros s s' _ Htr _ _ O. rewrite Htr. exact O.
    + rewrite Ser. simpl. constructor.
    + rewrite Ser. intros s t I O. apply ordered_mutex_call; auto.
      unfold width in I. rewrite Ser in I. exact I.
  - intros s a s' I _ _ [La O] H. rewrite Ser in I. split.
    + eapply latest_step; eauto.
    + eapply ordered_step; eauto.
Qed.

(** *** What the strategies do first *)

Lemma booted_step tests options s a s' e0 :
  (exists tr, trace s = e0 :: tr /\ count is_boot tr = 0) ->
  step tests options s a = Some s' ->
  exists tr, trace s' = e0 :: tr /\ count is_boot tr = 0.
Proof.
  intros (tr & T & B) H. apply step_cases in H as [Ex C].
  assert (forall evs (s1 : State), trace s1 = trace s ++ evs -> count is_boot evs = 0 ->
            exists tr', trace s1 = e0 :: tr' /\ count is_boot tr' = 0) as App.
  { intros evs s1 E C0. exists (tr ++ evs). rewrite E, T. split; auto.
    rewrite count_app. lia. }
  destruct C as [i r Hi ->|i p r Hi Hs Ht Htr Hg Hw Hp|i p r Hi Hs ->|b Ht Htr Hg Hw Hp|F Ht Htr Hg Hw].
  - apply (App []); auto.
  - apply (App _ _ Htr). destruct (handlers_shape (serial options) i r) as (tl & -> & _ & Z).
    exact Z.
  - destruct (Throat.release (gate s)) as [g [j|]].
    + destruct (enter_shape (serial options) j
                  (set_gate g (upd i (InBand.mark p (serial options) true) [] s)))
        as (p' & evs & -> & _ & _ & Z).
      apply (App evs); auto. simpl. rewrite app_nil_r. reflexivity.
    + apply (App []); auto.
  - apply (App []); auto. rewrite Htr, app_nil_r. reflexivity.
  - apply (App [WorkerEnd]); auto.
Qed.

Lemma booted_mutex_call ser s t e0 :
  (exists tr, trace s = e0 :: tr /\ count is_boot tr = 0) ->
  exists tr, trace (mutex_call ser s t) = e0 :: tr /\ count is_boot tr = 0.
Proof.
  intros (tr & T & B). rewrite mutex_call_eq.
  destruct (Throat.run (gate s) (length (tasks s))) as [g [|]].
  - destruct (enter_shape ser (length (tasks s)) (set_gate g (push_task s)))
      as (p' & evs & -> & _ & _ & Z).
    exists (tr ++ evs). simpl. rewrite T. split; auto. rewrite count_app. lia.
  - exists tr. auto.
Qed.

(** *** Results are handed on as they are *)

Lemma settled_by_enter ser acts s g j :
  Settled_by acts s -> Settled_by acts (enter ser j (set_gate g s)).
Proof.
  intros Sb. destruct (enter_shape ser j (set_gate g s)) as (p' & evs & -> & P & _).
  intros k r re rl Hk. simpl in Hk.
  destruct (decide (j < length (tasks s))) as [L|L].
  - destruct (decide (k = j)) as [->|D].
    + rewrite list_lookup_insert_eq in Hk by auto. destruct P; congruence.
    + rewrite list_lookup_insert_ne in Hk by auto. eauto.
  - rewrite list_insert_ge in Hk by lia. eauto.
Qed.

Lemma settled_by_step tests options acts s a s' :
  Settled_by acts s -> step tests options s a = Some s' ->
  Settled_by (acts ++ [a]) s'.
Proof.
  intros Sb H. apply step_cases in H as [Ex C].
  assert (forall (s1 : State), Settled_by acts s1 -> Settled_by (acts ++ [a]) s1) as Mono.
  { intros s1 S1 k r re rl Hk. apply in_or_app. left. eauto. }
  assert (forall i p re rl, tasks s !! i = Some p ->
            (exists r, settled_with (serial options) p = Some r) ->
            Settled_by acts (upd i (InBand.mark p re rl) [] s)) as Mark.
  { intros i p re rl Hi [x Hx] k r re' rl' Hk. simpl in Hk.
    assert (i < length (tasks s)) by (eapply lookup_lt_Some; eauto).
    destruct (decide (k = i)) as [->|D].
    - rewrite list_lookup_insert_eq in Hk by auto.
      destruct p; simpl in Hk; try discriminate.
      injection Hk as <- <- <-. eauto.
    - rewrite list_lookup_insert_ne in Hk by auto. eauto. }
  destruct C as [i r Hi ->|i p r Hi Hs Ht Htr Hg Hw Hp|i p r Hi Hs ->|b Ht Htr Hg Hw Hp|F Ht Htr Hg Hw].
  - intros k r' re rl Hk. simpl in Hk.
    assert (i < length (tasks s)) by (eapply lookup_lt_Some; eauto).
    apply in_or_app. destruct (decide (k = i)) as [->|D].
    + rewrite list_lookup_insert_eq in Hk by auto. injection Hk as <- _ _.
      right. left. reflexivity.
    + rewrite list_lookup_insert_ne in Hk by auto. left. eauto.
  - apply Mono. intros k r' re rl Hk. rewrite Ht in Hk.
    apply (Mark i p true (negb (serial options)) Hi ltac:(eauto) k r' re rl). exact Hk.
  - apply Mono. destruct (Throat.release (gate s)) as [g [j|]].
    + apply settled_by_enter. apply Mark; eauto.
    + apply (Mark i p (serial options) true Hi ltac:(eauto)).
  - apply Mono. intros k r' re rl Hk. rewrite Ht in Hk. eauto.
  - apply Mono. intros k r' re rl Hk. rewrite Ht in Hk. eauto.
Qed.

Lemma settled_by_exec tests options acts : forall pre s s',
  Settled_by pre s -> exec tests options s acts = Some s' ->
  Settled_by (pre ++ acts) s'.
Proof.
  induction acts as [|a acts IH]; simpl; intros pre s s' Sb H.
  - injection H as <-. rewrite app_nil_r. exact Sb.
  - destruct (step tests options s a) as [s1|] eqn:E; [|discriminate].
    replace (pre ++ a :: acts) with ((pre ++ [a]) ++ acts)
      by (rewrite <- app_assoc; reflexivity).
    eapply IH; [|exact H]. eapply settled_by_step; eauto.
Qed.

Lemma settled_by_start gc tests w options : Settled_by [] (start gc tests w options).
Proof.
  apply start_ind.
  - intros s s' Ht _ _ _ Sb k r re rl Hk. rewrite Ht in Hk. eauto.
  - intros k r re rl Hk. destruct (serial options); simpl in Hk;
      rewrite lookup_nil in Hk; discriminate.
  - intros s t _ Sb. rewrite mutex_call_eq.
    assert (Settled_by [] (push_task s)) as S1.
    { intros k r re rl Hk. simpl in Hk.
      apply lookup_push in Hk as [[_ Hk]|[_ Hk]]; [eauto | discriminate]. }
    destruct (Throat.run (gate s) (length (tasks s))) as [g [|]].
    + apply settled_by_enter. exact S1.
    + exact S1.
Qed.

(** *** The promise of a sequential run *)

Lemma resolved_step gc tests options s a s' :
  serial options = true ->
  Inv true (width gc options) s ->
  (run_promise s <> None ->
   length tests = 0 \/ reacted (phase s (length tests - 1)) = true) ->
  step tests options s a = Some s' ->
  (run_promise s' <> None ->
   length tests = 0 \/ reacted (phase s' (length tests - 1)) = true).
Proof.
  intros Ser I D H. pose proof H as H0. apply step_cases in H as [Ex C]. rewrite Ser in C.
  assert (forall (s1 : State) i p', run_promise s1 = run_promise s ->
            tasks s1 = <[i:=p']> (tasks s) ->
            (reacted (phase s i) = true -> reacted p' = true) ->
            run_promise s1 <> None ->
            length tests = 0 \/ reacted (phase s1 (length tests - 1)) = true) as Keep.
  { intros s1 i p' P T M N. rewrite P in N. destruct (D N) as [Z|R]; auto. right.
    unfold phase in *. rewrite T.
    destruct (decide (i < length (tasks s))) as [L|L].
    - destruct (decide (length tests - 1 = i)) as [E|E].
      + rewrite E in *. rewrite list_lookup_insert_eq by auto. simpl. auto.
      + rewrite list_lookup_insert_ne by auto. exact R.
    - rewrite list_insert_ge by lia. exact R. }
  destruct C as [i r Hi ->|i p r Hi Hs Ht Htr Hg Hw Hp|i p r Hi Hs ->|b Ht Htr Hg Hw Hp|F Ht Htr Hg Hw].
  - apply (Keep _ i (Returned r false false)); auto.
    rewrite (phase_lookup _ _ _ Hi). discriminate.
  - simpl in Ht.
    change (true && Nat.eqb (S i) (length tests)) with (Nat.eqb (S i) (length tests)) in Hp.
    destruct (Nat.eqb (S i) (length tests)) eqn:E.
    + intros _. right. apply Nat.eqb_eq in E.
      unfold phase. rewrite Ht. replace (length tests - 1) with i by lia.
      rewrite list_lookup_insert_eq by (eapply lookup_lt_Some; eauto).
      simpl. apply (settled_with_inv true) in Hs as [[-> _]| ->]; reflexivity.
    + apply (Keep _ i (InBand.mark p true false)); auto. intros _.
      apply (settled_with_inv true) in Hs as [[-> _]| ->]; reflexivity.
  - assert (run_promise
              (match Throat.release (gate s) with
               | (g, Some j) => enter true j (set_gate g (upd i (InBand.mark p true true) [] s))
               | (g, None) => set_gate g (upd i (InBand.mark p true true) [] s)
               end) = run_promise s) as RP.
    { destruct (Throat.release (gate s)) as [g [j|]]; auto.
      destruct (enter_shape true j (set_gate g (upd i (InBand.mark p true true) [] s)))
        as (p' & evs & -> & _). reflexivity. }
    intros N. rewrite RP in N. destruct (D N) as [Z|R]; auto. right.
    assert (reacted (phase (upd i (InBand.mark p true true) [] s) (length tests - 1)) = true) as R1.
    { rewrite phase_upd by (eapply lookup_lt_Some; eauto). case_decide; auto.
      apply (settled_with_inv true) in Hs as [[-> _]| ->]; reflexivity. }
    destruct (Throat.release (gate s)) as [g [j|]] eqn:Rel; auto.
    pose proof (release_next _ _ _ _ _ I Rel) as Hj.
    destruct (enter_shape true j (set_gate g (upd i (InBand.mark p true true) [] s)))
      as (p' & evs & -> & _).
    unfold phase in *. simpl in *.
    destruct (decide (length tests - 1 = j)) as [E|E].
    + rewrite E in R. rewrite Hj in R. discriminate.
    + rewrite list_lookup_insert_ne by auto. exact R1.
  - intros N. rewrite Hp in N. destruct (D N) as [Z|R]; auto. right.
    unfold phase in *. rewrite Ht. exact R.
  - discriminate.
Qed.

Theorem reachable_resolved gc tests w options acts s :
  serial options = true ->
  runTests gc tests w options acts = Some s ->
  run_promise s <> None ->
  length tests = 0 \/ reacted (phase s (length tests - 1)) = true.
Proof.
  intros Ser. revert acts s.
  apply (reachable_ind gc tests w options
           (fun s => run_promise s <> None ->
                     length tests = 0 \/ reacted (phase s (length tests - 1)) = true)).
  - unfold start. rewrite Ser. unfold InBand.start.
    destruct (boot_fold true tests (InBand.init w)) as [B L]; [constructor; auto|].
    destruct tests as [|t tests]; auto.
    intros N. exfalso. apply N. apply (boot_promise _ _ B).
  - intros s a s' I _ _ D H. rewrite Ser in I. eapply resolved_step; eauto.
Qed.

(** ** Properties of the scheduler beyond the claims *)

Lemma phase_tasks s i p : phase s i = p -> p <> Queued -> tasks s !! i = Some p.
Proof.
  unfold phase. destruct (tasks s !! i) as [q|]; simpl; intros <- N; congruence.
Qed.

Lemma phase_outside s i : length (tasks s) <= i -> phase s i = Queued.
Proof.
  intros L. unfold phase. rewrite (lookup_ge_None_2 _ _ L). reflexivity.
Qed.

(** X1.  The events of one test come in a fixed order, in both strategies
    and at every moment of a run: the poll of the watcher, then the start
    event, then the hand-over of the test, then its terminal event; or, when
    the poll finds the watcher interrupted, the poll and then a failure event
    with the reason of the cancellation.  Nothing is ever recorded for an
    index outside the list of tests. *)
Theorem X1_event_order gc tests w options acts s i :
  runTests gc tests w options acts = Some s ->
  ((exists r,
      List.filter (about i) (trace s) `prefix_of`
        [IsInterrupted i false; EmitStart i; exec_effect (serial options) i; terminal i r]) \/
   List.filter (about i) (trace s) `prefix_of`
     [IsInterrupted i true; EmitFailure i (cancel_reason (serial options))]) /\
  (length tests <= i -> List.filter (about i) (trace s) = []).
Proof.
  intros H. pose proof (reachable_inv _ _ _ _ _ _ H) as I.
  pose proof (reachable_live _ _ _ _ _ _ H) as L.
  rewrite (inv_hist _ _ _ I i). split.
  - destruct (phase s i) as [| |re rl|r re rl]; simpl.
    + right. eexists. reflexivity.
    + left. exists (Fulfilled 0). exists [terminal i (Fulfilled 0)]. reflexivity.
    + right. destruct re; [exists []|eexists]; reflexivity.
    + left. exists r. destruct re; [exists []|exists [terminal i r]]; reflexivity.
  - intros Hi. rewrite phase_outside; [reflexivity|].
    rewrite (live_len _ _ _ L). exact Hi.
Qed.

(** X1, the second test of a parallel run that completes. *)
Lemma X1_event_order_witness :
  (exists r,
     List.filter (about 1) (trace completed_parallel) `prefix_of`
       [IsInterrupted 1 false; EmitStart 1; WorkerCall 1; terminal 1 r]) \/
  List.filter (about 1) (trace completed_parallel) `prefix_of`
    [IsInterrupted 1 true; EmitFailure 1 JsUndefined].
Proof.
  exact (proj1 (X1_event_order (mkGlobalConfig 1) two_tests false (mkOptions false)
                  [Settle 0 (Fulfilled 7); Release 0; React 0;
                   Settle 1 (Rejected plain_error); Release 1; React 1; Cleanup]
                  completed_parallel 1 eq_refl)).
Defined.

Lemma settled_by_run gc tests w options acts s :
  runTests gc tests w options acts = Some s -> Settled_by acts s.
Proof.
  intros H. change acts with ([] ++ acts).
  eapply settled_by_exec; [apply settled_by_start|exact H].
Qed.

(** X2.  The handlers hand on what the execution produced and nothing else:
    a success event of a test carries the very result its execution was
    fulfilled with, and a failure event carries the very error its execution
    was rejected with, unless the test was cancelled at its turn, in which
    case it carries the reason of the cancellation. *)
Theorem X2_results_forwarded gc tests w options acts s i :
  runTests gc tests w options acts = Some s ->
  (forall v, In (EmitSuccess i v) (trace s) -> In (Settle i (Fulfilled v)) acts) /\
  (forall e, In (EmitFailure i e) (trace s) ->
     In (Settle i (Rejected e)) acts \/
     (e = cancel_reason (serial options) /\ In (IsInterrupted i true) (trace s))).
Proof.
  intros H. pose proof (reachable_inv _ _ _ _ _ _ H) as I.
  pose proof (settled_by_run _ _ _ _ _ _ H) as Sb.
  assert (forall ev, In ev (trace s) -> is_terminal i ev = true ->
            (exists r re rl, tasks s !! i = Some (Returned r re rl) /\ ev = terminal i r) \/
            (ev = EmitFailure i (cancel_reason (serial options)) /\
             In (IsInterrupted i true) (trace s))) as T.
  { intros ev Hin Ht.
    pose proof (in_history _ _ s i ev I Hin (is_terminal_about _ _ Ht)) as Hh.
    destruct (phase s i) as [| |re rl|r re rl] eqn:P; simpl in Hh.
    - tauto.
    - destruct Hh as [<-|[<-|[<-|[]]]]; try discriminate.
      destruct (serial options); discriminate.
    - right. destruct Hh as [<-|Hh]; [discriminate|].
      destruct re; simpl in Hh; [|tauto]. destruct Hh as [<-|[]]. split; auto.
      eapply history_in; eauto. rewrite P. left. reflexivity.
    - left. exists r, re, rl. split; [apply phase_tasks; auto; discriminate|].
      destruct Hh as [<-|[<-|[<-|Hh]]]; try discriminate.
      + destruct (serial options); discriminate.
      + destruct re; simpl in Hh; [|tauto]. destruct Hh as [<-|[]]. reflexivity. }
  split.
  - intros v Hin. destruct (T _ Hin) as [(r & re & rl & Hi & E)|[E _]].
    + simpl. apply Nat.eqb_refl.
    + destruct r; simpl in E; [|discriminate]. injection E as ->. eauto.
    + discriminate.
  - intros e Hin. destruct (T _ Hin) as [(r & re & rl & Hi & E)|[E Hc]].
    + simpl. apply Nat.eqb_refl.
    + left. destruct r; simpl in E; [discriminate|]. injection E as ->. eauto.
    + right. injection E as ->. auto.
Qed.

(** X2, the two results of a parallel run that completes. *)
Lemma X2_results_forwarded_witness :
  In (Settle 1 (Rejected plain_error))
     [Settle 0 (Fulfilled 7); Release 0; React 0;
      Settle 1 (Rejected plain_error); Release 1; React 1; Cleanup] \/
  (plain_error = JsUndefined /\ In (IsInterrupted 1 true) (trace completed_parallel)).
Proof.
  apply (proj2 (X2_results_forwarded (mkGlobalConfig 1) two_tests false (mkOptions false)
                  [Settle 0 (Fulfilled 7); Release 0; React 0;
                   Settle 1 (Rejected plain_error); Release 1; React 1; Cleanup]
                  completed_parallel 1 eq_refl) plain_error).
  vm_compute. tauto.
Defined.

(** X3.  Each strategy sets itself up first and only once: the sequential
    one sets [JEST_WORKER_ID] before it touches a test, the parallel one
    constructs the pool with [maxWorkers] workers and three retries; neither
    is done again in the course of the run. *)
Theorem X3_set_up_once gc tests w options acts s :
  runTests gc tests w options acts = Some s ->
  exists tl,
    trace s = (if serial options then SetWorkerId else WorkerNew (maxWorkers gc) 3) :: tl /\
    count is_boot tl = 0.
Proof.
  revert acts s.
  apply (reachable_ind gc tests w options
           (fun s => exists tl,
              trace s = (if serial options then SetWorkerId
                         else WorkerNew (maxWorkers gc) 3) :: tl /\
              count is_boot tl = 0)).
  - apply start_ind.
    + intros s s' _ Htr _ _ B. rewrite Htr. exact B.
    + destruct (serial options); exists []; split; reflexivity.
    + intros s t _ B. apply booted_mutex_call. exact B.
  - intros s a s' _ _ _ B H. eapply booted_step; eauto.
Qed.

(** X3, a parallel run on one worker. *)
Lemma X3_set_up_once_witness :
  exists tl, trace completed_parallel = WorkerNew 1 3 :: tl /\ count is_boot tl = 0.
Proof.
  exact (X3_set_up_once (mkGlobalConfig 1) two_tests false (mkOptions false)
           [Settle 0 (Fulfilled 7); Release 0; React 0;
            Settle 1 (Rejected plain_error); Release 1; React 1; Cleanup]
           completed_parallel eq_refl).
Defined.

Lemma empty_run_step gc options s a s' :
  Empty_run gc (serial options) s -> step [] options s a = Some s' ->
  Empty_run gc (serial options) s'.
Proof.
  unfold Empty_run, step. intros (T & Ex & Sq & Pl).
  destruct (serial options) eqn:Ser.
  - destruct (Sq eq_refl) as [Tr Rp]. clear Sq Pl.
    unfold InBand.step. rewrite Ex.
    destruct a as [i r|i|i|b|]; rewrite ?T, ?lookup_nil; try discriminate.
    intros H. injection H as <-. simpl. repeat split; auto; discriminate.
  - destruct (Pl eq_refl) as [Ra D]. clear Sq Pl.
    unfold Parallel.step. rewrite Ex.
    destruct a as [i r|i|i|b|]; rewrite ?T, ?lookup_nil; try discriminate.
    + intros H. injection H as <-.
      destruct b; simpl; rewrite ?Ra; simpl; repeat split; auto; discriminate.
    + rewrite Ra. destruct D as [[Rp Tr]|[Rp Tr]]; rewrite Rp; [|discriminate].
      simpl. intros H. injection H as <-. simpl. rewrite Tr.
      repeat split; auto; try discriminate.
Qed.

(** X4.  A run with no test: the sequential strategy returns a promise that
    is fulfilled from the start and does nothing but set [JEST_WORKER_ID];
    the parallel strategy constructs the pool, its race is won by the empty
    [Promise.all] whatever the watcher does afterwards, and all that can
    still happen is the one call of [worker.end()], after which the promise
    of the run is fulfilled.  No event is emitted and the process is not
    ended. *)
Theorem X4_no_tests gc w options acts s :
  runTests gc [] w options acts = Some s ->
  tasks s = [] /\ exited s = None /\
  (serial options = true ->
   trace s = [SetWorkerId] /\ run_promise s = Some (Fulfilled tt)) /\
  (serial options = false ->
   race s = Some (Fulfilled tt) /\
   ((run_promise s = None /\ trace s = [WorkerNew (maxWorkers gc) 3]) \/
    (run_promise s = Some (Fulfilled tt) /\
     trace s = [WorkerNew (maxWorkers gc) 3; WorkerEnd]))).
Proof.
  unfold runTests.
  assert (Empty_run gc (serial options) (start gc [] w options)) as E0.
  { unfold Empty_run, start. destruct (serial options); simpl;
      repeat split; auto; discriminate. }
  revert E0. generalize (start gc [] w options).
  induction acts as [|a acts IH]; simpl; intros s0 E0 H.
  - injection H as <-. exact E0.
  - destruct (step [] options s0 a) as [s1|] eqn:E; [|discriminate].
    apply (IH s1); auto. eapply empty_run_step; eauto.
Qed.

(** X4, both strategies with the watcher interrupted after the start. *)
Lemma X4_no_tests_witness :
  (trace no_tests_in_band = [SetWorkerId] /\
   run_promise no_tests_in_band = Some (Fulfilled tt)) /\
  race no_tests_parallel = Some (Fulfilled tt).
Proof.
  destruct (X4_no_tests (mkGlobalConfig 2) false (mkOptions true) [WatcherChange true]
              no_tests_in_band eq_refl) as (_ & _ & A & _).
  destruct (X4_no_tests (mkGlobalConfig 2) false (mkOptions false)
              [WatcherChange true; Cleanup] no_tests_parallel eq_refl) as (_ & _ & _ & B).
  split; [exact (A eq_refl)|exact (proj1 (B eq_refl))].
Defined.

Lemma in_band_all_reacted s n :
  Inv true 1 s -> Wf true s -> Latest s -> length (tasks s) = n ->
  reacted (phase s (n - 1)) = true ->
  forall i, i < n -> reacted (phase s i) = true.
Proof.
  intros I W La Len R i Hi.
  assert (n - 1 < length (tasks s)) as Ln by lia.
  destruct (lookup_lt_is_Some_2 _ _ Ln) as [q Hq].
  rewrite (phase_lookup _ _ _ Hq) in R.
  assert (n <= turns s) as Tn.
  { destruct (decide (turns s <= n - 1)) as [C|C]; [|lia].
    apply (inv_queued _ _ _ I _ _ Hq) in C. subst q. discriminate. }
  assert (i < length (tasks s)) as Li by lia.
  destruct (lookup_lt_is_Some_2 _ _ Li) as [p Hp].
  rewrite (phase_lookup _ _ _ Hp).
  destruct (decide (i = n - 1)) as [->|D]; [congruence|].
  pose proof (W _ _ Hp) as Wp. pose proof (La _ _ Hp) as Lp.
  assert (p <> Queued) as NQ.
  { intros ->. assert (turns s <= i) by (apply (inv_queued _ _ _ I _ _ Hp); reflexivity). lia. }
  destruct p as [| |re rl|r re rl]; simpl in *; try congruence.
  - specialize (Lp eq_refl). lia.
  - destruct rl; simpl in *; [destruct re; auto; discriminate|]. specialize (Lp eq_refl). lia.
  - destruct rl; simpl in *; [destruct re; auto; discriminate|]. specialize (Lp eq_refl). lia.
Qed.

(** X5.  The promise of a sequential run is the end of the chain: it is
    settled exactly when every test of the list has had its terminal event,
    success or failure, the cancelled ones included. *)
Theorem X5_in_band_promise gc tests w acts s :
  runTests gc tests w (mkOptions true) acts = Some s ->
  (run_promise s <> None <->
   forall i, i < length tests -> count (is_terminal i) (trace s) = 1).
Proof.
  intros H.
  pose proof (reachable_inv _ _ _ _ _ _ H) as I.
  pose proof (reachable_wf _ _ _ _ _ _ H) as W.
  pose proof (reachable_live _ _ _ _ _ _ H) as L.
  pose proof (reachable_latest gc tests w (mkOptions true) acts s eq_refl H) as La.
  pose proof (reachable_resolved gc tests w (mkOptions true) acts s eq_refl H) as Rs.
  assert (forall i, count (is_terminal i) (trace s) = if reacted (phase s i) then 1 else 0) as C.
  { intros i. unfold count.
    rewrite (filter_history (is_terminal i) _ _ s i I) by auto with about.
    apply history_terminal. }
  split.
  - intros N i Hi. rewrite C.
    destruct (Rs N) as [Z|R]; [lia|].
    rewrite (in_band_all_reacted s (length tests) I W La (live_len _ _ _ L) R i Hi).
    reflexivity.
  - intros A. apply (proj2 (live_seq _ _ _ L eq_refl)).
    destruct (length tests) as [|n] eqn:E; [left; reflexivity|right].
    specialize (A (S n - 1) ltac:(lia)). rewrite C in A.
    destruct (reacted (phase s (S n - 1))); [reflexivity|discriminate].
Qed.

(** X5, a sequential run that was cancelled from the start. *)
Lemma X5_in_band_promise_witness :
  count (is_terminal 0) (trace cancelled_in_band) = 1 /\
  count (is_terminal 1) (trace cancelled_in_band) = 1.
Proof.
  assert (run_promise cancelled_in_band <> None) as N by discriminate.
  pose proof (proj1 (X5_in_band_promise (mkGlobalConfig 2) two_tests true
                       [React 0; Release 0; React 1; Release 1] cancelled_in_band eq_refl)
                N) as A.
  split; apply A; simpl; lia.
Defined.

Lemma sorted_app_inv (l1 l2 : list nat) x :
  StronglySorted le (l1 ++ x :: l2) -> Forall (le x) l2.
Proof.
  induction l1 as [|a l1 IH]; simpl; intros S.
  - apply StronglySorted_inv in S. tauto.
  - apply StronglySorted_inv in S. tauto.
Qed.

Lemma indices_in tr e k : In e tr -> test_of e = Some k -> In k (indices tr).
Proof.
  unfold indices. induction tr as [|e' tr IH]; simpl; [tauto|].
  intros [->|H] T.
  - rewrite T. left. reflexivity.
  - destruct (test_of e'); [right|]; auto.
Qed.

(** X6.  The tests of a sequential run do not overlap: once an effect of
    a test has happened, no effect of an earlier test of the list happens
    any more, be it a poll of the watcher, an event or an execution. *)
Theorem X6_in_band_no_overlap gc tests w acts s tr1 tr2 e1 e2 i j :
  runTests gc tests w (mkOptions true) acts = Some s ->
  trace s = tr1 ++ e1 :: tr2 ->
  In e2 tr2 ->
  test_of e1 = Some i -> test_of e2 = Some j ->
  i <= j.
Proof.
  intros H Tr Hin Ti Tj.
  pose proof (reachable_ordered gc tests w (mkOptions true) acts s eq_refl H) as O.
  rewrite Tr in O. unfold indices in O. rewrite omap_app in O. simpl in O.
  rewrite Ti in O. apply sorted_app_inv in O.
  rewrite Forall_forall in O. apply O.
  apply list_elem_of_In. fold (indices tr2). eapply indices_in; eauto.
Qed.

(** X6, the failure of the first test and the start of the second. *)
Lemma X6_in_band_no_overlap_witness : 0 <= 1.
Proof.
  apply (X6_in_band_no_overlap (mkGlobalConfig 2) two_tests true
           [React 0; Release 0; React 1; Release 1] cancelled_in_band
           [SetWorkerId; IsInterrupted 0 true] [IsInterrupted 1 true; EmitFailure 1 CancelRun]
           (EmitFailure 0 CancelRun) (IsInterrupted 1 true) 0 1 eq_refl eq_refl).
  - left. reflexivity.
  - reflexivity.
  - reflexivity.
Defined.

(** X7.  When a run that was not ended by [exit] has nothing left to do, no
    test holds a slot of the gate and none is executing: the gate is as wide
    as when it was made.  When the gate has a slot at all, no test is left
    waiting at it either. *)
Theorem X7_slots_returned gc tests w options acts s :
  runTests gc tests w options acts = Some s ->
  exited s = None -> quiescent tests options s ->
  holding s = 0 /\ in_flight s = 0 /\
  Throat.size (gate s) = width gc options /\
  (1 <= width gc options -> Throat.queue (gate s) = [] /\ turns s = length tests).
Proof.
  intros H Ex Q.
  pose proof (reachable_inv _ _ _ _ _ _ H) as I.
  pose proof (reachable_wf _ _ _ _ _ _ H) as W.
  pose proof (reachable_live _ _ _ _ _ _ H) as L.
  pose proof (quiescent_idle tests options s W Ex Q) as Idle.
  assert (holding s = 0) as H0.
  { apply filter_length_zero. intros k p Hk. apply idle_not_holds. eauto. }
  pose proof (in_flight_holding s) as F.
  pose proof (inv_slots _ _ _ I) as Sl.
  repeat split; try lia.
  - destruct (Throat.queue (gate s)) eqn:E; auto.
    assert (Throat.size (gate s) = 0) by (apply (inv_full _ _ _ I); rewrite E; discriminate).
    lia.
  - assert (Throat.queue (gate s) = []) as Q0.
    { destruct (Throat.queue (gate s)) eqn:E; auto.
      assert (Throat.size (gate s) = 0) by (apply (inv_full _ _ _ I); rewrite E; discriminate).
      lia. }
    unfold turns. rewrite Q0, (live_len _ _ _ L). simpl. lia.
Qed.

(** X7, a parallel run that completes on its one worker. *)
Lemma X7_slots_returned_witness :
  holding completed_parallel = 0 /\ in_flight completed_parallel = 0 /\
  Throat.size (gate completed_parallel) = 1 /\
  (1 <= 1 -> Throat.queue (gate completed_parallel) = [] /\ turns completed_parallel = 2).
Proof.
  apply (X7_slots_returned (mkGlobalConfig 1) two_tests false (mkOptions false)
           [Settle 0 (Fulfilled 7); Release 0; React 0;
            Settle 1 (Rejected plain_error); Release 1; React 1; Cleanup]
           completed_parallel eq_refl eq_refl).
  apply quiescentb_sound. reflexivity.
Defined.

(** X8.  When a run that was not ended by [exit] has nothing left to do and
    the gate has a slot, every test of the list has been dealt with: the
    watcher was polled once for each test, in the order of the list, and
    each test has exactly one terminal event, which is a success event only
    if the test had its start event. *)
Theorem X8_every_test_reported gc tests w options acts s :
  runTests gc tests w options acts = Some s ->
  1 <= width gc options ->
  exited s = None -> quiescent tests options s ->
  attempts (trace s) = seq 0 (length tests) /\
  forall i, i < length tests ->
    count (is_terminal i) (trace s) = 1 /\
    (count (is_success i) (trace s) = 1 -> count (is_start i) (trace s) = 1).
Proof.
  intros H K Ex Q.
  pose proof (reachable_inv _ _ _ _ _ _ H) as I.
  pose proof (reachable_wf _ _ _ _ _ _ H) as W.
  pose proof (reachable_live _ _ _ _ _ _ H) as L.
  pose proof (quiescent_done _ tests options s I W K Ex Q) as D.
  rewrite (live_len _ _ _ L) in D.
  split.
  - rewrite (inv_attempts _ _ _ I). f_equal.
    pose proof (quiescent_idle tests options s W Ex Q) as Idle.
    assert (holding s = 0) as H0.
    { apply filter_length_zero. intros k p Hk. apply idle_not_holds. eauto. }
    pose proof (inv_slots _ _ _ I) as Sl.
    assert (Throat.queue (gate s) = []) as Q0.
    { destruct (Throat.queue (gate s)) eqn:E; auto.
      assert (Throat.size (gate s) = 0) by (apply (inv_full _ _ _ I); rewrite E; discriminate).
      lia. }
    unfold turns. rewrite Q0, (live_len _ _ _ L). simpl. lia.
  - intros i Hi. specialize (D i Hi). unfold count.
    rewrite (filter_history (is_terminal i) _ _ s i I) by auto with about.
    rewrite (filter_history (is_success i) _ _ s i I) by auto with about.
    rewrite (filter_history (is_start i) _ _ s i I) by auto with about.
    destruct (phase s i) as [| |re rl|r re rl]; simpl in D; try discriminate; subst re.
    + destruct (serial options); hist_compute; split; auto; discriminate.
    + destruct (serial options), r; hist_compute; split; auto.
Qed.

(** X8, a parallel run that is cancelled while its second test waits. *)
Lemma X8_every_test_reported_witness :
  attempts (trace cancelled_parallel) = [0; 1] /\
  count (is_terminal 0) (trace cancelled_parallel) = 1 /\
  count (is_terminal 1) (trace cancelled_parallel) = 1.
Proof.
  destruct (X8_every_test_reported (mkGlobalConfig 1) two_tests false (mkOptions false)
              [WatcherChange true; Cleanup; Settle 0 (Fulfilled 7); Release 0; React 0;
               Release 1; React 1]
              cancelled_parallel eq_refl (le_n 1) eq_refl) as [A B].
  - apply quiescentb_sound. reflexivity.
  - split; [exact A|]. split; apply B; simpl; lia.
Defined.

(** *** The pool is ended last *)

Lemma pending_calm s : Pending s -> Calm s.
Proof.
  intros (W & R & P & T). split; [exact W|]. split; [exact T|].
  split; [left; exact R|]. intros N. congruence.
Qed.

Lemma calm_pending s i p :
  Calm s -> tasks s !! i = Some p -> reacted p = false -> Pending s.
Proof.
  intros (W & T & R & E) Hi Hr.
  assert (race s = None) as R0.
  { destruct R as [R|[_ R]]; auto. rewrite (R _ _ Hi) in Hr. discriminate. }
  repeat split; auto.
  destruct (run_promise s) eqn:P; auto.
  destruct E as [E _]; [discriminate|]. congruence.
Qed.

Lemma pending_upd s i p' evs :
  Pending s -> proper p' = true -> Pending (upd i p' evs s).
Proof.
  intros (W & R & P & T) Hp. repeat split; auto.
  intros k p Hk. simpl in Hk.
  destruct (decide (i < length (tasks s))) as [L|L].
  - destruct (decide (k = i)) as [->|D].
    + rewrite list_lookup_insert_eq in Hk by auto. congruence.
    + rewrite list_lookup_insert_ne in Hk by auto. eauto.
  - rewrite list_insert_ge in Hk by lia. eauto.
Qed.

Lemma pending_body s g j : Pending s -> Pending (Parallel.body j (set_gate g s)).
Proof.
  intros P. assert (Pending (set_gate g s)) as P1 by exact P.
  unfold Parallel.body. destruct P1 as (W & _). rewrite W.
  apply pending_upd; auto.
Qed.

Lemma pending_mutex_call s t : Pending s -> Pending (Parallel.mutex_call s t).
Proof.
  intros P.
  assert (Pending (push_task s)) as P1.
  { destruct P as (W & R & Pr & T). repeat split; auto.
    intros k p Hk. simpl in Hk.
    apply lookup_push in Hk as [[_ Hk]|[_ ->]]; eauto. }
  unfold Parallel.mutex_call.
  destruct (Throat.run (gate (push_task s)) (length (tasks s))) as [g [|]].
  - apply pending_body. exact P1.
  - exact P1.
Qed.

Lemma calm_start gc tests : Calm (Parallel.start gc tests false).
Proof.
  unfold Parallel.start.
  assert (Pending (fold_left Parallel.mutex_call tests (Parallel.init gc false))) as P.
  { assert (Pending (Parallel.init gc false)) as P0.
    { repeat split; auto. intros i p Hi. simpl in Hi. rewrite lookup_nil in Hi. discriminate. }
    revert P0. generalize (Parallel.init gc false).
    induction tests as [|t tests IH]; simpl; auto.
    intros s P. apply IH. apply pending_mutex_call. exact P. }
  destruct tests as [|t tests].
  - simpl. split; [reflexivity|]. split; [|split].
    + intros i p Hi. simpl in Hi. rewrite lookup_nil in Hi. discriminate.
    + right. split; auto. intros i p Hi. simpl in Hi. rewrite lookup_nil in Hi. discriminate.
    + intros N. simpl in N. congruence.
  - apply pending_calm. exact P.
Qed.

Lemma proper_mark p re rl : proper p = true -> proper (InBand.mark p re rl) = true.
Proof. destruct p as [| |a b|[r|[|nm ty msg]] a b]; simpl; auto. Qed.

Lemma calm_step tests s a s' :
  Calm s -> calm a = true -> Parallel.step tests s a = Some s' -> Calm s'.
Proof.
  intros C Ha. unfold Parallel.step. destruct (exited s); [discriminate|].
  destruct a as [i r|i|i|b|].
  - destruct (tasks s !! i) as [[]|] eqn:Hi; try discriminate.
    intros H. injection H as <-. apply pending_calm, pending_upd.
    + eapply calm_pending; eauto.
    + destruct r as [v|[|nm ty msg]]; auto.
  - destruct (tasks s !! i) as [p|] eqn:Hi; try discriminate.
    destruct (Parallel.settled_with p) as [[[r re] rl]|] eqn:Hs; try discriminate.
    destruct re, rl; try discriminate.
    assert (proper p = true) as Pp by (destruct C as (_ & T & _); eauto).
    apply (settled_with_inv false) in Hs as [[-> _]| ->]; [discriminate Pp|].
    assert (Pending s) as P by (apply (calm_pending s i _ C Hi); reflexivity).
    destruct (Parallel.chain i r) as [evs [v|c]] eqn:Hc; intros H; injection H as <-.
    + apply parallel_chain_val in Hc as [-> [->|[-> _]]]; [|discriminate Pp].
      assert (Pending (upd i (Returned r true true) [terminal i r] s)) as P1
        by (apply pending_upd; [exact P|exact Pp]).
      revert P1. generalize (upd i (Returned r true true) [terminal i r] s).
      intros s1 (W1 & R1 & Pr1 & T1). unfold Parallel.settle_all. rewrite R1.
      match goal with |- context [if ?b then _ else _] => destruct b eqn:B end.
      * apply andb_true_iff in B as [_ B]. rewrite forallb_forall in B.
        split; [exact W1|]. split; [exact T1|]. split.
        -- right. split; auto. intros k q Hk. apply B. apply list_elem_of_In.
           eapply list_elem_of_lookup_2; eauto.
        -- intros N. exfalso. apply N. exact Pr1.
      * apply pending_calm. split; [exact W1|]. split; [exact R1|]. split; auto.
    + apply pending_calm.
      assert (Pending (upd i (Returned r true true) evs s)) as P1
        by (apply pending_upd; [exact P|exact Pp]).
      exact P1.
  - destruct (tasks s !! i) as [p|] eqn:Hi; try discriminate.
    destruct (Parallel.settled_with p) as [[[r re] rl]|] eqn:Hs; try discriminate.
    destruct re, rl; try discriminate.
    assert (proper p = true) as Pp by (destruct C as (_ & T & _); eauto).
    assert (Pending s) as P.
    { apply (calm_pending s i p C Hi).
      apply (settled_with_inv false) in Hs as [[-> _]| ->]; reflexivity. }
    assert (Pending (upd i (Parallel.mark p false true) [] s)) as P1
      by (apply pending_upd; auto; apply proper_mark; auto).
    destruct (Throat.release (gate (upd i (Parallel.mark p false true) [] s))) as [g [j|]];
      intros H; injection H as <-; apply pending_calm.
    + apply pending_body. exact P1.
    + exact P1.
  - destruct b; [discriminate|]. intros H. injection H as <-.
    destruct C as (W & T & R & E).
    split; [reflexivity|]. split; [exact T|]. split; [exact R|exact E].
  - destruct C as (W & T & R & E).
    destruct (race s) as [x|] eqn:Rc; try discriminate.
    destruct (run_promise s) eqn:Rp; try discriminate.
    destruct R as [R|[R A]]; [discriminate|]. injection R as ->.
    simpl. intros H. injection H as <-.
    split; [exact W|]. split; [exact T|]. split.
    + right. split; [exact Rc|exact A].
    + intros _. split; [simpl; congruence|]. exists (trace s). reflexivity.
Qed.

Lemma calm_exec tests acts : forall s s',
  Calm s -> forallb calm acts = true ->
  exec tests (mkOptions false) s acts = Some s' -> Calm s'.
Proof.
  induction acts as [|a acts IH]; simpl; intros s s' C F H.
  - injection H as <-. exact C.
  - apply andb_true_iff in F as [Fa F].
    unfold step in H. simpl in H.
    destruct (Parallel.step tests s a) as [s1|] eqn:E; [|discriminate].
    apply (IH s1); auto. eapply calm_step; eauto.
Qed.

(** X9.  In a parallel run during which the watcher is never interrupted and
    no execution is rejected with [undefined], the race can only be won by
    [Promise.all]: once the promise of the run is settled, every test of the
    list has had its start event and its one terminal event, and the call of
    [worker.end()] is the last thing the run has done. *)
Theorem X9_teardown_last gc tests acts s :
  runTests gc tests false (mkOptions false) acts = Some s ->
  forallb calm acts = true ->
  run_promise s <> None ->
  (exists tr, trace s = tr ++ [WorkerEnd]) /\
  forall i, i < length tests ->
    count (is_start i) (trace s) = 1 /\ count (is_terminal i) (trace s) = 1.
Proof.
  intros H F N.
  pose proof (reachable_inv _ _ _ _ _ _ H) as I.
  pose proof (reachable_live _ _ _ _ _ _ H) as L.
  assert (Calm s) as (W & T & R & E).
  { unfold runTests in H. eapply calm_exec; [|exact F|exact H]. apply calm_start. }
  destruct (E N) as [Rn Tr]. split; [exact Tr|].
  destruct R as [R|[_ R]]; [congruence|].
  intros i Hi. rewrite <- (live_len _ _ _ L) in Hi.
  destruct (lookup_lt_is_Some_2 _ _ Hi) as [p Hp].
  pose proof (R _ _ Hp) as Rp. pose proof (T _ _ Hp) as Tp.
  unfold count.
  rewrite (filter_history (is_start i) _ _ s i I) by auto with about.
  rewrite (filter_history (is_terminal i) _ _ s i I) by auto with about.
  rewrite (phase_lookup _ _ _ Hp).
  destruct p as [| |re rl|r re rl]; simpl in Rp, Tp; try discriminate. subst re.
  destruct r; hist_compute; auto.
Qed.

(** X9, a parallel run that completes. *)
Lemma X9_teardown_last_witness :
  (exists tr, trace completed_parallel = tr ++ [WorkerEnd]) /\
  count (is_start 1) (trace completed_parallel) = 1 /\
  count (is_terminal 1) (trace completed_parallel) = 1.
Proof.
  assert (run_promise completed_parallel <> None) as N by discriminate.
  destruct (X9_teardown_last (mkGlobalConfig 1) two_tests
              [Settle 0 (Fulfilled 7); Release 0; React 0;
               Settle 1 (Rejected plain_error); Release 1; React 1; Cleanup]
              completed_parallel eq_refl eq_refl N) as [A B].
  split; [exact A|]. apply B. simpl. lia.
Defined.

(** ** The fake timers *)

Lemma tracks_app st cs1 cs2 :
  FakeTimers.tracks st (cs1 ++ cs2) =
  match FakeTimers.tracks st cs1 with
  | Some st' => FakeTimers.tracks st' cs2
  | None => None
  end.
Proof.
  revert st. induction cs1 as [|c cs1 IH]; simpl; intros st; auto.
  destruct (FakeTimers.track st c); auto.
Qed.

Ltac lolex_answer m :=
  destruct m as [| |[|]|[|]|? [|]|[|]| | | | | |].

Lemma fake_timers_invoke m s :
  FakeTimers.Ok s ->
  exists r s', FakeTimers.invoke m s = Some (r, s') /\ FakeTimers.Ok s' /\
               FakeTimers._maxLoops s' = FakeTimers._maxLoops s /\
               (r = FakeTimers.Throws ->
                FakeTimers.lolex_threw m = true /\ FakeTimers._fakingTime s = true).
Proof.
  intros [T C]. unfold FakeTimers.live in T.
  destruct s as [cl fk mx n cs]. simpl in *.
  destruct fk.
  - destruct cl as [c|]; [|exfalso; apply C; reflexivity].
    lolex_answer m; eexists; eexists; (split; [reflexivity|]);
      unfold FakeTimers.Ok, FakeTimers.live; simpl;
      repeat (rewrite ?tracks_app, ?T, ?Nat.eqb_refl; simpl);
      (split; [split; [reflexivity|intros; congruence]|]);
      (split; [reflexivity|]); intros E; try discriminate E; auto.
  - lolex_answer m; eexists; eexists; (split; [reflexivity|]);
      unfold FakeTimers.Ok, FakeTimers.live; simpl;
      rewrite ?tracks_app, ?T; simpl;
      (split; [split; [reflexivity|intros; congruence]|]);
      (split; [reflexivity|]); intros E; discriminate E.
Qed.

Lemma fake_timers_exec ms : forall s,
  FakeTimers.Ok s ->
  exists s', FakeTimers.exec ms s = Some s' /\ FakeTimers.Ok s' /\
             FakeTimers._maxLoops s' = FakeTimers._maxLoops s.
Proof.
  induction ms as [|m ms IH]; simpl; intros s O.
  - eauto.
  - destruct (fake_timers_invoke m s O) as (r & s1 & -> & O1 & M1 & _).
    destruct (IH s1 O1) as (s' & E & O' & M'). exists s'. rewrite <- M1. auto.
Qed.

Lemma fake_timers_new maxLoops : FakeTimers.Ok (FakeTimers.new maxLoops).
Proof. split; [reflexivity|discriminate]. Qed.

(** X10.  However the methods of a [FakeTimers] object are called after its
    construction, and whatever lolex throws on the way, no method uses
    [_clock] before it is assigned: the [TypeError] of a call on
    [undefined] never arises.  A method call ends with an exception only
    when lolex threw in the call that ran the timers, which takes timers that
    are faked.  The calls the object makes keep a discipline: [install] is
    only called while no clock of the object is installed, every call on a
    clock goes to the clock that is installed at that moment, [uninstall]
    included, and the warning is only issued while none is installed.  The
    flag [_fakingTime] tells whether a clock is installed. *)
Theorem X10_fake_timers_discipline maxLoops ms :
  exists s,
    FakeTimers.exec ms (FakeTimers.new maxLoops) = Some s /\
    FakeTimers.tracks (None, 0) (FakeTimers.calls s)
    = Some (FakeTimers.live s, FakeTimers.clocks s) /\
    (FakeTimers._fakingTime s = true -> FakeTimers._clock s <> None) /\
    forall m, exists r s',
      FakeTimers.invoke m s = Some (r, s') /\
      (r = FakeTimers.Throws ->
       FakeTimers.lolex_threw m = true /\ FakeTimers._fakingTime s = true).
Proof.
  destruct (fake_timers_exec ms _ (fake_timers_new maxLoops)) as (s & E & O & _).
  exists s. split; [exact E|]. split; [apply O|]. split; [apply O|].
  intros m. destruct (fake_timers_invoke m s O) as (r & s' & I & _ & _ & Th).
  exists r, s'. auto.
Qed.

Lemma fake_timers_installs m s r s' :
  FakeTimers.invoke m s = Some (r, s') ->
  FakeTimers._maxLoops s' = FakeTimers._maxLoops s /\
  forall l now, In (FakeTimers.Install l now) (FakeTimers.calls s') ->
    In (FakeTimers.Install l now) (FakeTimers.calls s) \/ l = FakeTimers._maxLoops s.
Proof.
  destruct s as [cl fk mx n cs].
  destruct fk, cl as [c|]; lolex_answer m; simpl; intros H; try discriminate;
    injection H as <- <-; simpl; (split; [reflexivity|]); intros l t0 Hin;
    repeat (apply in_app_or in Hin as [Hin|Hin]); auto;
    simpl in Hin; destruct Hin as [Hin|[]]; try discriminate;
    injection Hin as <- _; auto.
Qed.

Lemma fake_timers_limit ms : forall s s',
  FakeTimers.exec ms s = Some s' ->
  FakeTimers._maxLoops s' = FakeTimers._maxLoops s /\
  forall l now, In (FakeTimers.Install l now) (FakeTimers.calls s') ->
    In (FakeTimers.Install l now) (FakeTimers.calls s) \/ l = FakeTimers._maxLoops s.
Proof.
  induction ms as [|m ms IH]; simpl; intros s s' H.
  - injection H as <-. auto.
  - destruct (FakeTimers.invoke m s) as [[r s1]|] eqn:E; [|discriminate].
    destruct (fake_timers_installs _ _ _ _ E) as [M1 I1].
    destruct (IH _ _ H) as [M2 I2]. split; [congruence|].
    intros l now Hin. destruct (I2 l now Hin) as [Hin'| ->]; auto.
Qed.

(** X11.  Every clock the object installs gets the loop limit chosen at
    construction: the [maxLoops] that was passed, or 100000 when none or 0
    was passed; so lolex is never handed a limit of 0. *)
Theorem X11_fake_timers_loop_limit maxLoops ms s l now :
  FakeTimers.exec ms (FakeTimers.new maxLoops) = Some s ->
  In (FakeTimers.Install l now) (FakeTimers.calls s) ->
  l <> 0%Z /\
  (maxLoops = None \/ maxLoops = Some 0%Z -> l = 100000%Z) /\
  (forall n, maxLoops = Some n -> n <> 0%Z -> l = n).
Proof.
  intros H Hin. destruct (fake_timers_limit _ _ _ H) as [_ I].
  destruct (I l now Hin) as [[]| ->]. simpl.
  destruct maxLoops as [n|].
  - destruct (Z.eqb_spec n 0) as [->|N].
    + repeat split; auto; try discriminate. intros n [= <-] N. congruence.
    + repeat split; auto.
      * intros [E|E]; congruence.
      * intros n' [= <-] _. reflexivity.
  - repeat split; auto; discriminate.
Qed.

(** X11, an object made with [maxLoops: 0] that fakes the timers once and
    runs them, with lolex throwing. *)
Lemma X11_fake_timers_loop_limit_witness :
  100000%Z <> 0%Z /\
  (Some 0%Z = None \/ Some 0%Z = Some 0%Z -> 100000%Z = 100000%Z) /\
  (forall n, Some 0%Z = Some n -> n <> 0%Z -> 100000%Z = n).
Proof.
  apply (X11_fake_timers_loop_limit (Some 0%Z)
           [FakeTimers.UseFakeTimers 5; FakeTimers.RunAllTimers true]
           (FakeTimers.mk (Some 0) true 100000 1
              [FakeTimers.Install 100000 5; FakeTimers.RunAll 0])
           100000%Z 5%Z eq_refl).
  left. reflexivity.
Defined.

(** X12.  While the timers are not faked, every method but [useFakeTimers]
    leaves the object as it is and touches no clock.  The methods that
    advance, count or set the timers log one warning on the console of the
    environment, and [getTimerCount] answers 0; [clearAllTimers],
    [useRealTimers], [dispose] and [getRealSystemTime] are silent. *)
Theorem X12_fake_timers_not_faking s m :
  FakeTimers._fakingTime s = false ->
  (forall now, m <> FakeTimers.UseFakeTimers now) ->
  exists r s',
    FakeTimers.invoke m s = Some (FakeTimers.Returns r, s') /\
    FakeTimers._fakingTime s' = false /\
    FakeTimers._clock s' = FakeTimers._clock s /\
    FakeTimers.clocks s' = FakeTimers.clocks s /\
    FakeTimers._maxLoops s' = FakeTimers._maxLoops s /\
    FakeTimers.calls s'
    = FakeTimers.calls s ++ (if FakeTimers.checks m then [FakeTimers.Warn] else []) /\
    (forall counted, m = FakeTimers.GetTimerCount counted -> r = Some 0%Z).
Proof.
  destruct s as [cl fk mx n cs]. simpl. intros -> N.
  lolex_answer m; try (exfalso; eapply N; reflexivity);
    eexists; eexists; (split; [reflexivity|]); simpl;
    rewrite ?app_nil_r; repeat split; auto; discriminate.
Qed.

(** X12, counting the timers of a fresh object. *)
Lemma X12_fake_timers_not_faking_witness :
  exists r s',
    FakeTimers.invoke (FakeTimers.GetTimerCount 5) (FakeTimers.new None)
    = Some (FakeTimers.Returns r, s') /\
    FakeTimers.calls s' = [FakeTimers.Warn] /\ r = Some 0%Z.
Proof.
  destruct (X12_fake_timers_not_faking (FakeTimers.new None) (FakeTimers.GetTimerCount 5)
              eq_refl) as (r & s' & E & _ & _ & _ & _ & C & R).
  - discriminate.
  - exists r, s'. split; [exact E|]. split; [exact C|]. apply (R 5%Z). reflexivity.
Defined.

(** X13.  Switching is idempotent and undone by [dispose]: on an object
    used in any way since its construction, a second [useFakeTimers] in a
    row is a no-op (no second clock is installed, the time it read is
    dropped), so is a second [useRealTimers], and [useFakeTimers] followed by
    [dispose] leaves no clock installed. *)
Theorem X13_fake_timers_switch maxLoops ms s a b :
  FakeTimers.exec ms (FakeTimers.new maxLoops) = Some s ->
  FakeTimers.exec [FakeTimers.UseFakeTimers a; FakeTimers.UseFakeTimers b] s
  = FakeTimers.exec [FakeTimers.UseFakeTimers a] s /\
  FakeTimers.exec [FakeTimers.UseRealTimers; FakeTimers.UseRealTimers] s
  = FakeTimers.exec [FakeTimers.UseRealTimers] s /\
  exists s',
    FakeTimers.exec [FakeTimers.UseFakeTimers a; FakeTimers.Dispose] s = Some s' /\
    FakeTimers._fakingTime s' = false /\
    FakeTimers.tracks (None, 0) (FakeTimers.calls s') = Some (None, FakeTimers.clocks s').
Proof.
  intros H.
  destruct (fake_timers_exec ms _ (fake_timers_new maxLoops)) as (s0 & E & O & _).
  rewrite H in E. injection E as <-.
  destruct (fake_timers_exec [FakeTimers.UseFakeTimers a; FakeTimers.Dispose] s O)
    as (s' & E' & [T' C'] & _).
  destruct O as [T C]. destruct s as [cl fk mx n cs]. simpl in *.
  split; [|split].
  - destruct fk; reflexivity.
  - destruct fk; [|reflexivity]. destruct cl; reflexivity.
  - exists s'. split; [exact E'|].
    assert (FakeTimers._fakingTime s' = false) as Fk.
    { destruct fk.
      - destruct cl as [c|]; [|exfalso; apply C; reflexivity].
        simpl in E'. injection E' as <-. reflexivity.
      - simpl in E'. injection E' as <-. reflexivity. }
    split; [exact Fk|]. unfold FakeTimers.live in T'. rewrite Fk in T'. exact T'.
Qed.

(** X13, on a fresh object. *)
Lemma X13_fake_timers_switch_witness :
  exists s',
    FakeTimers.exec [FakeTimers.UseFakeTimers 7; FakeTimers.Dispose] (FakeTimers.new None)
    = Some s' /\
    FakeTimers._fakingTime s' = false /\
    FakeTimers.tracks (None, 0) (FakeTimers.calls s') = Some (None, FakeTimers.clocks s').
Proof.
  exact (proj2 (proj2 (X13_fake_timers_switch None [] (FakeTimers.new None) 7%Z 8%Z eq_refl))).
Defined.

(** ** The path of a test file, cut to the width of the terminal *)

Lemma slice_suffix (s : Utils.Str) (b : Z) :
  (0 <= b <= Utils.len s)%Z ->
  Utils.slice s b (Utils.len s) = drop (Z.to_nat b) s /\
  Utils.len (Utils.slice s b (Utils.len s)) = (Utils.len s - b)%Z.
Proof.
  unfold Utils.slice, Utils.len. intros Hb.
  destruct (Z.ltb_spec b 0) as [C|_]; [lia|].
  destruct (Z.ltb_spec (Z.of_nat (length s)) 0) as [C|_]; [lia|].
  rewrite !Z.min_l by lia.
  rewrite take_ge by (rewrite length_drop; lia).
  split; [reflexivity|]. rewrite length_drop. lia.
Qed.

(** X14.  Whenever the whole relative path fits into [columns - pad], or
    the base name leaves room for at least four more code units,
    [FormattedPath] renders a text that fits: the path itself, or, when the
    path is too long, an ellipsis, the end of the directory name, the
    solidus and the whole base name, [columns - pad - 2] code units in all.
    The base name is rendered in full. *)
Theorem X14_formatted_path_fits path_relative path_dirname path_basename slash
    pad config testPath columns :
  let relative := Utils.relativePath path_relative path_dirname path_basename config testPath in
  let basename := fst relative in
  let dirname := slash (snd relative) in
  let maxLength := (columns - pad)%Z in
  let out := Utils.text (Utils.FormattedPath path_relative path_dirname path_basename slash
                           pad config testPath columns) in
  (Utils.len (dirname ++ [Utils.solidus] ++ basename) <= maxLength \/
   Utils.len basename + 4 <= maxLength)%Z ->
  (Utils.len out <= maxLength)%Z /\
  (exists pre, out = pre ++ [Utils.solidus] ++ basename) /\
  ((Utils.len (dirname ++ [Utils.solidus] ++ basename) <= maxLength)%Z ->
   out = dirname ++ [Utils.solidus] ++ basename) /\
  ((maxLength < Utils.len (dirname ++ [Utils.solidus] ++ basename))%Z ->
   Utils.len out = (maxLength - 2)%Z /\
   exists k, out = Utils.ellipsis :: drop k dirname ++ [Utils.solidus] ++ basename).
Proof.
  intros relative basename dirname maxLength out H.
  subst out. unfold Utils.FormattedPath.
  fold relative. fold basename. fold dirname. fold maxLength.
  destruct (Z.leb_spec (Utils.len (dirname ++ [Utils.solidus] ++ basename)) maxLength)
    as [Fit|NoFit].
  - unfold Utils.text. simpl. rewrite app_nil_r, <- app_assoc. simpl.
    split; [exact Fit|]. split; [exists dirname; reflexivity|].
    split; [reflexivity|]. intros C. exfalso. revert C Fit. simpl. lia.
  - destruct H as [H|H]; [lia|].
    assert (Utils.len (dirname ++ [Utils.solidus] ++ basename)
            = (Utils.len dirname + 1 + Utils.len basename)%Z) as L.
    { unfold Utils.len. rewrite !length_app. simpl. lia. }
    destruct (Z.ltb_spec (Utils.len basename + 4) maxLength) as [Lt|Ge].
    + destruct (slice_suffix dirname
                  (Utils.len dirname - (maxLength - 4 - Utils.len basename))%Z)
        as [Sl Ln]; [unfold Utils.len in *; lia|].
      unfold Utils.text. simpl. rewrite app_nil_r, <- app_assoc. simpl.
      rewrite Sl.
      assert (Utils.len (Utils.ellipsis ::
                drop (Z.to_nat (Utils.len dirname - (maxLength - 4 - Utils.len basename)))
                  dirname ++ Utils.solidus :: basename) = (maxLength - 2)%Z) as Len.
      { rewrite Sl in Ln. unfold Utils.len in *. simpl.
        rewrite length_app. simpl. lia. }
      split; [rewrite Len; lia|]. split; [eexists (_ :: _); reflexivity|].
      split; [intros C; exfalso; revert C NoFit; simpl; lia|].
      intros _. split; [exact Len|]. eexists. reflexivity.
    + assert (Utils.len basename + 4 = maxLength)%Z as E by lia.
      destruct (Z.eqb_spec (Utils.len basename + 4) maxLength) as [_|N]; [|lia].
      unfold Utils.text. simpl. rewrite app_nil_r.
      assert (Utils.len (Utils.ellipsis :: Utils.solidus :: basename) = (maxLength - 2)%Z)
        as Len by (unfold Utils.len in *; simpl; lia).
      split; [rewrite Len; lia|]. split; [exists [Utils.ellipsis]; reflexivity|].
      split; [intros C; exfalso; revert C NoFit; simpl; lia|].
      intros _. split; [exact Len|].
      exists (length dirname). rewrite drop_all. reflexivity.
Qed.

(** X14, a path of thirteen code units cut to ten columns. *)
Lemma X14_formatted_path_fits_witness :
  (Utils.len
     (Utils.text
        (Utils.FormattedPath (fun _ p => p)
           (fun _ => [112; 97; 99; 107; 97; 103; 101; 115]%N)
           (fun _ => [97; 46; 106; 115]%N) (fun d => d)
           8 (Utils.mkConfig None []) [] 18)) <= 18 - 8)%Z.
Proof.
  refine (proj1 (X14_formatted_path_fits (fun _ p => p)
                   (fun _ => [112; 97; 99; 107; 97; 103; 101; 115]%N)
                   (fun _ => [97; 46; 106; 115]%N) (fun d => d)
                   8 (Utils.mkConfig None []) [] 18 _)).
  right. unfold Utils.len. simpl. lia.
Defined.

(** X15.  When the base name is too long for what is left ([columns - pad]
    is less than its length plus four, and the whole path does not fit),
    [FormattedPath] renders an ellipsis followed by an end of the base name
    and nothing of the directory.  The cut is not made to the budget: a base
    name of at least [columns - pad + 4] code units is rendered with its
    last [columns - pad + 4] code units, so that the text is five code units
    longer than [columns - pad]. *)
Theorem X15_formatted_path_overflow path_relative path_dirname path_basename slash
    pad config testPath columns :
  let relative := Utils.relativePath path_relative path_dirname path_basename config testPath in
  let basename := fst relative in
  let dirname := slash (snd relative) in
  let maxLength := (columns - pad)%Z in
  let out := Utils.text (Utils.FormattedPath path_relative path_dirname path_basename slash
                           pad config testPath columns) in
  (maxLength < Utils.len (dirname ++ [Utils.solidus] ++ basename))%Z ->
  (maxLength < Utils.len basename + 4)%Z ->
  (exists k, out = Utils.ellipsis :: drop k basename) /\
  ((-4 <= maxLength)%Z -> (maxLength + 4 <= Utils.len basename)%Z ->
   out = Utils.ellipsis :: drop (Z.to_nat (Utils.len basename - maxLength - 4)) basename /\
   Utils.len out = (maxLength + 5)%Z).
Proof.
  intros relative basename dirname maxLength out NoFit Long.
  subst out. unfold Utils.FormattedPath.
  fold relative. fold basename. fold dirname. fold maxLength.
  destruct (Z.leb_spec (Utils.len (dirname ++ [Utils.solidus] ++ basename)) maxLength)
    as [Fit|_]; [lia|].
  destruct (Z.ltb_spec (Utils.len basename + 4) maxLength) as [Lt|_]; [lia|].
  destruct (Z.eqb_spec (Utils.len basename + 4) maxLength) as [E|_]; [lia|].
  unfold Utils.text. simpl. rewrite app_nil_r. split.
  - unfold Utils.slice. eexists. rewrite take_ge; [reflexivity|].
    fold (Utils.len basename). rewrite length_drop.
    destruct (Z.ltb_spec (Utils.len basename - maxLength - 4) 0),
             (Z.ltb_spec (Utils.len basename) 0); unfold Utils.len in *; lia.
  - intros Lo Hi.
    destruct (slice_suffix basename (Utils.len basename - maxLength - 4)%Z) as [Sl Ln];
      [unfold Utils.len in *; lia|].
    rewrite Sl. split; [reflexivity|].
    rewrite Sl in Ln. unfold Utils.len in *. simpl. lia.
Qed.

(** X15, a base name of twelve code units in eight columns. *)
Lemma X15_formatted_path_overflow_witness :
  Utils.len
    (Utils.text
       (Utils.FormattedPath (fun _ p => p) (fun _ => [115; 114; 99]%N)
          (fun _ => [115; 99; 104; 101; 100; 117; 108; 101; 114; 46; 106; 115]%N)
          (fun d => d) 8 (Utils.mkConfig None []) [] 16))
  = (16 - 8 + 5)%Z.
Proof.
  refine (proj2 (proj2 (X15_formatted_path_overflow (fun _ p => p) (fun _ => [115; 114; 99]%N)
                   (fun _ => [115; 99; 104; 101; 100; 117; 108; 101; 114; 46; 106; 115]%N)
                   (fun d => d) 8 (Utils.mkConfig None []) [] 16 _ _) _ _));
    unfold Utils.len; simpl; lia.
Defined.

(** ** Wrapping a string that holds escape sequences *)

Lemma slice_prefix (t : Utils.Str) (k : Z) :
  (0 <= k)%Z -> Utils.slice t 0 k = take (Z.to_nat k) t.
Proof.
  intros Hk. unfold Utils.slice.
  destruct (Z.ltb_spec 0 0) as [C|_]; [lia|].
  destruct (Z.ltb_spec k 0) as [C|_]; [lia|].
  replace (Z.min 0 (Z.of_nat (length t))) with 0%Z by lia.
  rewrite Z.sub_0_r. change (Z.to_nat 0) with 0. rewrite drop_0.
  destruct (Z.le_ge_cases k (Z.of_nat (length t))) as [C|C].
  - rewrite Z.min_l by lia. reflexivity.
  - rewrite Z.min_r by lia. rewrite Nat2Z.id.
    rewrite !take_ge by lia. reflexivity.
Qed.

Lemma slice_from (t : Utils.Str) (k : Z) :
  (0 <= k)%Z -> Utils.slice t k (Utils.len t) = drop (Z.to_nat k) t.
Proof.
  intros Hk. unfold Utils.slice, Utils.len.
  destruct (Z.ltb_spec k 0) as [C|_]; [lia|].
  destruct (Z.ltb_spec (Z.of_nat (length t)) 0) as [C|_]; [lia|].
  rewrite (Z.min_l (Z.of_nat (length t))) by lia.
  destruct (Z.le_ge_cases k (Z.of_nat (length t))) as [C|C].
  - rewrite Z.min_l by lia. apply take_ge. rewrite length_drop. lia.
  - rewrite Z.min_r by lia. rewrite Nat2Z.id.
    rewrite !drop_ge by lia. apply take_nil.
Qed.

Lemma slice_range (s : Utils.Str) (a b : nat) :
  a <= b -> b <= length s ->
  Utils.slice s (Z.of_nat a) (Z.of_nat b) = take (b - a) (drop a s).
Proof.
  intros Hab Hb. unfold Utils.slice.
  destruct (Z.ltb_spec (Z.of_nat a) 0) as [C|_]; [lia|].
  destruct (Z.ltb_spec (Z.of_nat b) 0) as [C|_]; [lia|].
  rewrite !Z.min_l by lia. rewrite Nat2Z.id. f_equal. lia.
Qed.

Lemma slice_back (t : Utils.Str) (k : Z) :
  (k < 0)%Z -> t <> [] ->
  exists n, n < length t /\ Utils.slice t k (Utils.len t) = drop n t.
Proof.
  intros Hk Ht. unfold Utils.slice, Utils.len.
  assert (0 < length t) by (destruct t; simpl; [congruence|lia]).
  destruct (Z.ltb_spec k 0) as [_|C]; [|lia].
  destruct (Z.ltb_spec (Z.of_nat (length t)) 0) as [C|_]; [lia|].
  rewrite (Z.min_l (Z.of_nat (length t))) by lia.
  exists (Z.to_nat (Z.max (Z.of_nat (length t) + k) 0)). split; [lia|].
  apply take_ge. rewrite length_drop. lia.
Qed.

Lemma match_here_bound l n : Wrap.match_here l = Some n -> 1 <= n <= length l.
Proof.
  destruct l as [|e [|b [|d [|x rest]]]]; simpl; try discriminate.
  destruct (_ && _ && _); try discriminate.
  destruct (Wrap.is_digit x).
  - destruct rest as [|m rest]; try discriminate.
    destruct (Wrap.is_m m); intros [= <-]. simpl. lia.
  - destruct (Wrap.is_m x); intros [= <-]. simpl. lia.
Qed.

Lemma match_here_take l n : Wrap.match_here l = Some n -> Wrap.match_here (take n l) = Some n.
Proof.
  destruct l as [|e [|b [|d [|x rest]]]]; simpl; try discriminate.
  destruct (_ && _ && _) eqn:E; try discriminate.
  destruct (Wrap.is_digit x) eqn:Dx.
  - destruct rest as [|m rest]; try discriminate.
    destruct (Wrap.is_m m) eqn:M; intros [= <-]. simpl. rewrite E, Dx, M. reflexivity.
  - destruct (Wrap.is_m x) eqn:M; intros [= <-]. simpl. rewrite E, Dx, M. reflexivity.
Qed.

Lemma search_spec l : forall i j n,
  Wrap.search l i = Some (j, n) ->
  i <= j /\ j + n <= i + length l /\ 1 <= n /\ Wrap.match_here (drop (j - i) l) = Some n.
Proof.
  induction l as [|c l IH]; intros i j n.
  - discriminate.
  - change (Wrap.search (c :: l) i)
      with (match Wrap.match_here (c :: l) with
            | Some n => Some (i, n)
            | None => Wrap.search l (S i)
            end).
    destruct (Wrap.match_here (c :: l)) as [m|] eqn:M.
    + intros [= <- <-]. apply match_here_bound in M as B. simpl in B.
      rewrite Nat.sub_diag. split; [lia|]. split; [simpl; lia|]. split; [lia|]. exact M.
    + intros H. apply IH in H as (A & B & C & D).
      split; [lia|]. split; [simpl; lia|]. split; [lia|].
      replace (j - i) with (S (j - S i)) by lia. exact D.
Qed.

Lemma exec_spec s k index ansi :
  Wrap.exec s k = Some (index, ansi) ->
  k <= index /\ index + length ansi <= length s /\ 1 <= length ansi /\
  ansi = take (length ansi) (drop index s) /\
  Wrap.match_here ansi = Some (length ansi).
Proof.
  unfold Wrap.exec. destruct (Wrap.search (drop k s) k) as [[j n]|] eqn:S; [|discriminate].
  intros [= <- <-]. apply search_spec in S as (A & B & C & D).
  rewrite length_drop in B. rewrite drop_drop in D.
  replace (k + (j - k)) with j in D by lia.
  apply match_here_bound in D as Bd. rewrite length_drop in Bd.
  assert (length (take n (drop j s)) = n) as Ln by (rewrite length_take, length_drop; lia).
  rewrite Ln. repeat split; try lia. apply match_here_take. exact D.
Qed.

Lemma scan_spec fuel (s : Utils.Str) : forall (tokens : list Wrap.Token) k,
  k <= length s -> length s - k < fuel ->
  concat (map snd tokens) = take k s ->
  Forall Wrap.token_ok tokens ->
  exists tokens' k',
    Wrap.scan fuel s tokens k = Some (tokens', k') /\
    k' <= length s /\
    concat (map snd tokens') = take k' s /\
    Forall Wrap.token_ok tokens'.
Proof.
  induction fuel as [|fuel IH]; intros tokens k Hk Hf Hc Ho; [lia|].
  simpl. destruct (Wrap.exec s k) as [[index ansi]|] eqn:E.
  - apply exec_spec in E as (A & B & C & D & M).
    apply IH; try lia.
    + rewrite map_app, concat_app. simpl. rewrite app_nil_r.
      rewrite <- take_take_drop.
      destruct (Nat.eqb_spec index k) as [->|N]; simpl.
      * f_equal; [exact Hc|exact D].
      * rewrite map_app, concat_app. simpl. rewrite app_nil_r.
        f_equal; [|exact D].
        replace (take index s) with (take (k + (index - k)) s) by (f_equal; lia).
        rewrite <- take_take_drop.
        f_equal; [exact Hc|apply slice_range; lia].
    + apply Forall_app. split; [|repeat constructor; exact M].
      destruct (negb _); auto. apply Forall_app. split; auto. repeat constructor.
  - exists tokens, k. auto.
Qed.

Lemma scan_more fuel (s : Utils.Str) : forall (tokens : list Wrap.Token) k r,
  Wrap.scan fuel s tokens k = Some r -> forall fuel', fuel <= fuel' ->
  Wrap.scan fuel' s tokens k = Some r.
Proof.
  induction fuel as [|fuel IH]; intros tokens k r H fuel' Hf; [discriminate|].
  destruct fuel' as [|fuel']; [lia|]. simpl in *.
  destruct (Wrap.exec s k) as [[index ansi]|]; auto.
  eapply IH; eauto. lia.
Qed.

Lemma append_last_snoc (init : list Utils.Str) (l x : Utils.Str) :
  Wrap.append_last (init ++ [l]) x = init ++ [l ++ x].
Proof.
  induction init as [|a init IH]; [reflexivity|].
  change ((a :: init) ++ [l]) with (a :: (init ++ [l])).
  change ((a :: init) ++ [l ++ x]) with (a :: (init ++ [l ++ x])).
  rewrite <- IH. destruct (init ++ [l]) eqn:E; [destruct init; discriminate|reflexivity].
Qed.

Lemma concat_snoc (init : list Utils.Str) (l : Utils.Str) :
  concat (init ++ [l]) = concat init ++ l.
Proof. rewrite concat_app. simpl. rewrite app_nil_r. reflexivity. Qed.

Lemma wrapped_text W (init : list Utils.Str) (l t : Utils.Str) L :
  (0 <= L)%Z -> (L + Utils.len t <= W)%Z ->
  Wrap.Line l L -> Forall (fun x => Wrap.Line x W) init ->
  Wrap.Wrapped W (init ++ [l ++ t]) (L + Utils.len t).
Proof.
  intros B1 B2 Ll Fi. split; [unfold Utils.len in *; lia|].
  exists init, (l ++ t). split; [reflexivity|]. split; [constructor; exact Ll|exact Fi].
Qed.

Lemma fill_spec W fuel : (1 <= W)%Z -> forall (token : Utils.Str) lines L,
  Wrap.Wrapped W lines L -> Wrap.need W token L <= fuel ->
  exists lines' L',
    Wrap.fill fuel W token lines L = Some (lines', L') /\
    Wrap.Wrapped W lines' L' /\ concat lines' = concat lines ++ token /\
    Wrap.text_of W lines' L' = (Wrap.text_of W lines L + Utils.len token)%Z.
Proof.
  intros HW. induction fuel as [|fuel IH]; intros token lines L Wr Hn.
  - unfold Wrap.need in Hn. lia.
  - cbn [Wrap.fill].
    destruct (Nat.eqb_spec (length token) 0) as [Z|NZ].
    + exists lines, L. destruct token; [|discriminate]. rewrite app_nil_r.
      unfold Utils.len. simpl. rewrite Z.add_0_r. auto.
    + destruct Wr as (B & init & l & -> & Ll & Fi).
      rewrite !slice_prefix, !slice_from by lia.
      set (d := Z.to_nat (W - L)).
      rewrite append_last_snoc.
      assert (take d token ++ drop d token = token) as TD by apply take_drop.
      destruct (Nat.eqb_spec (length (drop d token)) 0) as [E|NE]; cbn [negb].
      * rewrite length_drop in E.
        assert (take d token = token) as T by (apply take_ge; lia).
        assert (drop d token = []) as D by (apply drop_ge; lia).
        rewrite T, D.
        destruct (IH [] (init ++ [l ++ token]) (L + Utils.len token)%Z)
          as (lines' & L' & F & Wr' & C & Tx).
        -- apply wrapped_text; auto; try lia. unfold Utils.len. lia.
        -- unfold Wrap.need in *. simpl.
           destruct (_ =? _)%Z; destruct (_ =? _)%Z; lia.
        -- exists lines', L'. split; [exact F|]. split; [exact Wr'|]. split.
           ++ rewrite C, app_nil_r, !concat_snoc, app_assoc. reflexivity.
           ++ rewrite Tx. unfold Wrap.text_of, Utils.len. rewrite !length_app. simpl. lia.
      * rewrite length_drop in NE.
        assert (Utils.len (take d token) = (W - L)%Z) as Lt.
        { unfold Utils.len. rewrite length_take. lia. }
        destruct (IH (drop d token) ((init ++ [l ++ take d token]) ++ [[]]) 0%Z)
          as (lines' & L' & F & Wr' & C & Tx).
        -- split; [lia|]. exists (init ++ [l ++ take d token]), [].
           split; [reflexivity|]. split; [constructor|].
           apply Forall_app. split; [exact Fi|]. constructor; [|constructor].
           replace W with (L + Utils.len (take d token))%Z by lia.
           constructor. exact Ll.
        -- unfold Wrap.need in *. rewrite length_drop.
           destruct (Z.eqb_spec 0 W) as [C0|_]; [lia|].
           destruct (Z.eqb_spec L W) as [C1|C1]; lia.
        -- exists lines', L'. split; [exact F|]. split; [exact Wr'|]. split.
           ++ rewrite C, !concat_snoc, app_nil_r, <- !app_assoc, TD. reflexivity.
           ++ rewrite Tx. unfold Wrap.text_of, Utils.len in *.
              rewrite !length_app, length_drop. rewrite length_take in Lt. simpl. nia.
Qed.

Lemma reducer_spec W fuel (lines : list Utils.Str) L (t : Wrap.Token) :
  (1 <= W)%Z -> Wrap.Wrapped W lines L -> Wrap.token_ok t ->
  2 * length (snd t) + 2 <= fuel ->
  exists lines' L',
    Wrap.reducer fuel W (Some (lines, L)) t = Some (lines', L') /\
    Wrap.Wrapped W lines' L' /\ concat lines' = concat lines ++ snd t /\
    Wrap.text_of W lines' L' = (Wrap.text_of W lines L + Wrap.text_length [t])%Z.
Proof.
  intros HW Wr Ok Hf. destruct t as [[|] token]; simpl in *.
  - rewrite Z.add_0_r.
    destruct (Z.ltb_spec W (L + Utils.len token)) as [Lt|Ge].
    + apply fill_spec; auto. unfold Wrap.need. destruct (_ =? _)%Z; lia.
    + destruct Wr as (B & init & l & -> & Ll & Fi).
      eexists. eexists. split; [reflexivity|]. rewrite append_last_snoc.
      split; [apply wrapped_text; auto; lia|]. split.
      * rewrite !concat_snoc, app_assoc. reflexivity.
      * unfold Wrap.text_of. rewrite !length_app. simpl. lia.
  - destruct Wr as (B & init & l & -> & Ll & Fi).
    eexists. eexists. split; [reflexivity|]. rewrite append_last_snoc.
    split; [|split].
    + split; [exact B|]. exists init, (l ++ token).
      split; [reflexivity|]. split; [|exact Fi]. apply Wrap.line_escape; auto.
    + rewrite !concat_snoc, app_assoc. reflexivity.
    + unfold Wrap.text_of. rewrite !length_app. simpl. lia.
Qed.

Lemma text_length_cons (t : Wrap.Token) (tokens : list Wrap.Token) :
  Wrap.text_length (t :: tokens) = (Wrap.text_length [t] + Wrap.text_length tokens)%Z.
Proof. destruct t as [[|] x]; simpl; lia. Qed.

Lemma fold_spec W fuel : (1 <= W)%Z -> forall (tokens : list Wrap.Token) lines L,
  Wrap.Wrapped W lines L -> Forall Wrap.token_ok tokens ->
  Forall (fun t => 2 * length (snd t) + 2 <= fuel) tokens ->
  exists lines' L',
    fold_left (Wrap.reducer fuel W) tokens (Some (lines, L)) = Some (lines', L') /\
    Wrap.Wrapped W lines' L' /\
    concat lines' = concat lines ++ concat (map snd tokens) /\
    Wrap.text_of W lines' L' = (Wrap.text_of W lines L + Wrap.text_length tokens)%Z.
Proof.
  intros HW. induction tokens as [|t tokens IH]; intros lines L Wr Ok Hf.
  - exists lines, L. simpl. rewrite app_nil_r, Z.add_0_r. auto.
  - apply Forall_cons in Ok as [Ok1 Ok]. apply Forall_cons in Hf as [Hf1 Hf].
    destruct (reducer_spec W fuel lines L t HW Wr Ok1 Hf1)
      as (l1 & L1 & R & W1 & C1 & T1).
    cbn [fold_left]. rewrite R.
    destruct (IH l1 L1 W1 Ok Hf) as (l2 & L2 & F & W2 & C2 & T2).
    exists l2, L2. split; [exact F|]. split; [exact W2|]. split.
    + rewrite C2, C1. simpl. rewrite app_assoc. reflexivity.
    + rewrite T2, T1, (text_length_cons t tokens). lia.
Qed.

Lemma scan_total (s : Utils.Str) :
  exists tokens,
    Wrap.scan (S (length s)) s [] 0 = Some (tokens, Wrap.last_escape_end s) /\
    Wrap.last_escape_end s <= length s /\
    concat (map snd tokens) = take (Wrap.last_escape_end s) s /\
    Forall Wrap.token_ok tokens.
Proof.
  destruct (scan_spec (S (length s)) s [] 0) as (tokens & k & E & B & C & O);
    try lia; auto.
  unfold Wrap.last_escape_end. rewrite E. exists tokens. auto.
Qed.

Lemma length_concat_elem (x : Utils.Str) (l : list Utils.Str) :
  In x l -> length x <= length (concat l).
Proof.
  induction l as [|y l IH]; simpl; [tauto|].
  intros [->|H]; rewrite length_app; [lia|]. apply IH in H. lia.
Qed.

Lemma tokenize_spec fuel (s : Utils.Str) :
  length s < fuel ->
  exists tokens,
    Wrap.tokenize fuel s = Some tokens /\
    concat (map snd tokens) = Wrap.kept s /\
    Forall Wrap.token_ok tokens /\
    Forall (fun t => length (snd t) <= length s) tokens.
Proof.
  intros Hf. destruct (scan_total s) as (tokens & E & B & C & O).
  apply (scan_more _ _ _ _ _ E fuel) in Hf as E'. clear Hf.
  unfold Wrap.tokenize, Wrap.kept. rewrite E'. set (k := Wrap.last_escape_end s) in *.
  assert (forall ts : list Wrap.Token, length (concat (map snd ts)) <= length s ->
            Forall (fun t => length (snd t) <= length s) ts) as Bound.
  { intros ts Hl. apply Forall_forall. intros t Ht.
    apply list_elem_of_In in Ht.
    pose proof (length_concat_elem (snd t) (map snd ts) (in_map snd _ _ Ht)). lia. }
  destruct (Z.eqb_spec (Z.of_nat k) (Utils.len s - 1)) as [Eq|Ne]; cbn [negb].
  - exists tokens. destruct (decide (S k = length s)) as [_|N];
      [|unfold Utils.len in Eq; lia].
    split; [reflexivity|]. split; [exact C|]. split; [exact O|].
    apply Bound. rewrite C, length_take. lia.
  - eexists. split; [reflexivity|].
    destruct (decide (S k = length s)) as [Y|_]; [unfold Utils.len in Ne; lia|].
    assert (concat (map snd (tokens ++ [(Wrap.KString,
              Utils.slice s (Z.of_nat k) (Utils.len s))])) = s) as Cs.
    { rewrite map_app, concat_app. simpl. rewrite app_nil_r.
      rewrite slice_from by lia. rewrite Nat2Z.id.
      transitivity (take k s ++ drop k s); [f_equal; exact C|apply take_drop]. }
    split; [exact Cs|]. split.
    + apply Forall_app. split; [exact O|]. repeat constructor.
    + apply Bound. rewrite Cs. lia.
Qed.

Lemma tokenize_more fuel (s : Utils.Str) ts :
  Wrap.tokenize fuel s = Some ts -> forall fuel', fuel <= fuel' ->
  Wrap.tokenize fuel' s = Some ts.
Proof.
  unfold Wrap.tokenize. intros H fuel' Hf.
  destruct (Wrap.scan fuel s [] 0) as [[tokens k]|] eqn:E; [|discriminate].
  rewrite (scan_more _ _ _ _ _ E fuel' Hf). exact H.
Qed.

Lemma tokenize_same fuel (s : Utils.Str) ts :
  Wrap.tokenize fuel s = Some ts -> ts = Wrap.tokens_of s.
Proof.
  intros H. unfold Wrap.tokens_of.
  destruct (tokenize_spec (S (length s)) s) as (ts' & E & _); [lia|].
  rewrite E. simpl.
  pose proof (tokenize_more _ _ _ H (fuel + S (length s)) ltac:(lia)) as A.
  pose proof (tokenize_more _ _ _ E (fuel + S (length s)) ltac:(lia)) as B.
  congruence.
Qed.

Lemma wrap_spec fuel (s : Utils.Str) W :
  (1 <= W)%Z -> 2 * length s + 2 <= fuel ->
  exists lines L,
    Wrap.wrapAnsiString fuel s W = Some (Wrap.join [Utils.line_feed] lines) /\
    Wrap.Wrapped W lines L /\ concat lines = Wrap.kept s /\
    Wrap.text_of W lines L = Wrap.text_length (Wrap.tokens_of s).
Proof.
  intros HW Hf. unfold Wrap.wrapAnsiString.
  destruct (Z.eqb_spec W 0) as [C|_]; [lia|].
  destruct (tokenize_spec fuel s) as (tokens & E & C & O & B); [lia|].
  rewrite E. apply tokenize_same in E.
  destruct (fold_spec W fuel HW tokens [[]] 0%Z) as (lines & L & F & Wr & Cc & Tx).
  - split; [lia|]. exists [], []. split; [reflexivity|]. split; constructor.
  - exact O.
  - eapply Forall_impl; [exact B|]. simpl. intros t Ht. lia.
  - exists lines, L. split; [|split; [exact Wr|split]]; [| |rewrite Tx, E; reflexivity].
    + assert (forall o : option (list Utils.Str * Z), o = Some (lines, L) ->
                match o with
                | Some (lines, _) => Some (Wrap.join [Utils.line_feed] lines)
                | None => None
                end = Some (Wrap.join [Utils.line_feed] lines)) as A
        by (intros o ->; reflexivity).
      apply A. exact F.
    + transitivity (concat (map snd tokens)); [exact Cc|exact C].
Qed.

(** X16.  For a terminal of width at least 1, [wrapAnsiString] returns (the
    loops end, within [2 * length + 2] rounds each), and what it returns is a
    list of lines joined by line feeds in which every line but the last
    holds exactly [terminalWidth] code units of text and the last one at
    most that many, escape sequences not counted.  The text on the lines
    adds up to the text between the escape sequences of the string: no
    escape sequence is cut in two and counted as text. *)
Theorem X16_wrap_lines fuel (s : Utils.Str) W :
  (1 <= W)%Z -> 2 * length s + 2 <= fuel ->
  exists init l n,
    Wrap.wrapAnsiString fuel s W = Some (Wrap.join [Utils.line_feed] (init ++ [l])) /\
    Forall (fun x => Wrap.Line x W) init /\ Wrap.Line l n /\ (0 <= n <= W)%Z /\
    (Z.of_nat (length init) * W + n)%Z = Wrap.text_length (Wrap.tokens_of s).
Proof.
  intros HW Hf.
  destruct (wrap_spec fuel s W HW Hf)
    as (lines & L & E & (B & init & l & -> & Ll & Fi) & _ & Tx).
  exists init, l, L. repeat split; auto; try lia.
  rewrite <- Tx. unfold Wrap.text_of. rewrite length_app. simpl.
  replace (length init + 1 - 1) with (length init) by lia. reflexivity.
Qed.

(** X16, seven letters in three columns. *)
Lemma X16_wrap_lines_witness :
  exists init l n,
    Wrap.wrapAnsiString 16 [97; 98; 99; 100; 101; 102; 103]%N 3
    = Some (Wrap.join [Utils.line_feed] (init ++ [l])) /\
    Forall (fun x => Wrap.Line x 3) init /\ Wrap.Line l n /\ (0 <= n <= 3)%Z /\
    (Z.of_nat (length init) * 3 + n)%Z = 7%Z.
Proof.
  apply (X16_wrap_lines 16 [97; 98; 99; 100; 101; 102; 103]%N 3); simpl; lia.
Defined.

Lemma no_escape (s : Utils.Str) : Wrap.search s 0 = None -> Wrap.last_escape_end s = 0.
Proof.
  intros H. unfold Wrap.last_escape_end. simpl. unfold Wrap.exec.
  rewrite drop_0, H. reflexivity.
Qed.

(** X17.  For a terminal of width at least 1, taking the line feeds that
    [wrapAnsiString] put in out of its result gives the string back, with
    one exception: when exactly one code unit follows the last escape
    sequence (or the string is one code unit and holds no escape sequence),
    that last code unit is lost. *)
Theorem X17_wrap_content fuel (s : Utils.Str) W :
  (1 <= W)%Z -> 2 * length s + 2 <= fuel ->
  (Wrap.search s 0 = None -> Wrap.last_escape_end s = 0) /\
  exists lines,
    Wrap.wrapAnsiString fuel s W = Some (Wrap.join [Utils.line_feed] lines) /\
    (S (Wrap.last_escape_end s) <> length s -> concat lines = s) /\
    (S (Wrap.last_escape_end s) = length s -> exists c, s = concat lines ++ [c]).
Proof.
  intros HW Hf. split; [apply no_escape|].
  destruct (wrap_spec fuel s W HW Hf) as (lines & L & E & _ & C & _).
  exists lines. split; [exact E|]. unfold Wrap.kept in C.
  destruct (decide (S (Wrap.last_escape_end s) = length s)) as [Y|N].
  - split; [congruence|]. intros _. rewrite C.
    destruct (drop (Wrap.last_escape_end s) s) as [|c [|c' r]] eqn:D.
    + apply (f_equal length) in D. rewrite length_drop in D. simpl in D. lia.
    + exists c. rewrite <- D. symmetry. apply take_drop.
    + apply (f_equal length) in D. rewrite length_drop in D. simpl in D. lia.
  - split; [intros _; exact C|]. intros Y. congruence.
Qed.

(** X17, a string of one letter. *)
Lemma X17_wrap_content_witness :
  exists lines,
    Wrap.wrapAnsiString 4 [97]%N 80 = Some (Wrap.join [Utils.line_feed] lines) /\
    exists c, [97]%N = concat lines ++ [c].
Proof.
  destruct (X17_wrap_content 4 [97]%N 80) as (_ & lines & E & _ & C);
    [lia|simpl; lia|].
  exists lines. split; [exact E|]. apply C. reflexivity.
Defined.

Lemma fill_diverges W fuel : (W < 0)%Z -> forall (token : Utils.Str) lines L,
  (0 <= L)%Z -> token <> [] -> Wrap.fill fuel W token lines L = None.
Proof.
  intros HW. induction fuel as [|fuel IH]; intros token lines L HL Ht; [reflexivity|].
  cbn [Wrap.fill].
  destruct (Nat.eqb_spec (length token) 0) as [Z|_]; [destruct token; [congruence|discriminate]|].
  destruct (slice_back token (W - L)%Z) as (n & Hn & ->); [lia|exact Ht|].
  destruct (Nat.eqb_spec (length (drop n token)) 0) as [Z|_];
    [rewrite length_drop in Z; lia|].
  cbn [negb]. apply IH; [lia|].
  intros E. apply (f_equal length) in E. rewrite length_drop in E. simpl in E. lia.
Qed.

Lemma fold_none fuel W (tokens : list Wrap.Token) :
  fold_left (Wrap.reducer fuel W) tokens None = None.
Proof. induction tokens; simpl; auto. Qed.

Lemma fold_diverges W fuel (t : Utils.Str) : (W < 0)%Z -> t <> [] ->
  forall (tokens : list Wrap.Token) lines L,
  (0 <= L)%Z -> In (Wrap.KString, t) tokens ->
  fold_left (Wrap.reducer fuel W) tokens (Some (lines, L)) = None.
Proof.
  intros HW Ht. induction tokens as [|t0 tokens IH]; intros lines L HL Hin; [destruct Hin|].
  cbn [fold_left]. destruct Hin as [->|Hin].
  - simpl. destruct (Z.ltb_spec W (L + Utils.len t)) as [_|C];
      [|unfold Utils.len in C; lia].
    rewrite fill_diverges by auto. apply fold_none.
  - destruct t0 as [[|] tok]; simpl.
    + destruct (Z.ltb_spec W (L + Utils.len tok)) as [_|C];
        [|unfold Utils.len in C; lia].
      destruct tok as [|c tok].
      * destruct fuel as [|fuel]; simpl; [apply fold_none|apply IH; auto].
      * rewrite fill_diverges by (auto; discriminate). apply fold_none.
    + apply IH; auto.
Qed.

(** X18.  For a negative width the function never returns as soon as the
    string holds any text that is kept: the inner loop cuts a piece off the
    end of the token for ever, whatever the number of rounds it is given. *)
Theorem X18_wrap_negative_width fuel (s : Utils.Str) W (t : Utils.Str) :
  (W < 0)%Z -> In (Wrap.KString, t) (Wrap.tokens_of s) -> t <> [] ->
  Wrap.wrapAnsiString fuel s W = None.
Proof.
  intros HW Hin Ht. unfold Wrap.wrapAnsiString.
  destruct (Z.eqb_spec W 0) as [C|_]; [lia|].
  destruct (Wrap.tokenize fuel s) as [tokens|] eqn:E; [|reflexivity].
  apply tokenize_same in E. subst tokens.
  assert (forall o : option (list Utils.Str * Z), o = None ->
            match o with
            | Some (lines, _) => Some (Wrap.join [Utils.line_feed] lines)
            | None => None
            end = None) as A by (intros o ->; reflexivity).
  apply A. apply (fold_diverges W fuel t); auto. lia.
Qed.

(** X18, two letters and a width of -1, with a thousand rounds. *)
Lemma X18_wrap_negative_width_witness :
  Wrap.wrapAnsiString 1000 [97; 98]%N (-1) = None.
Proof.
  apply (X18_wrap_negative_width 1000 [97; 98]%N (-1) [97; 98]%N).
  - lia.
  - left. reflexivity.
  - discriminate.
Defined.

Lemma text_length_nonneg (tokens : list Wrap.Token) : (0 <= Wrap.text_length tokens)%Z.
Proof.
  induction tokens as [|[[|] x] tokens IH]; simpl; unfold Utils.len; lia.
Qed.

Lemma fold_fits W fuel : forall (tokens : list Wrap.Token) (l : Utils.Str) L,
  (L + Wrap.text_length tokens <= W)%Z ->
  fold_left (Wrap.reducer fuel W) tokens (Some ([l], L))
  = Some ([l ++ concat (map snd tokens)], (L + Wrap.text_length tokens)%Z).
Proof.
  induction tokens as [|[[|] x] tokens IH]; intros l L H; cbn [fold_left]; simpl.
  - rewrite app_nil_r, Z.add_0_r. reflexivity.
  - simpl in H. pose proof (text_length_nonneg tokens).
    destruct (Z.ltb_spec W (L + Utils.len x)) as [C|_]; [lia|].
    rewrite IH by lia. rewrite <- app_assoc, Z.add_assoc. reflexivity.
  - simpl in H. rewrite IH by lia. rewrite <- app_assoc. reflexivity.
Qed.

(** X19.  For a terminal of width at least 1, a string whose text fits
    into the width is returned on one line, as it is but for the code unit
    that the function loses. *)
Theorem X19_wrap_fits fuel (s : Utils.Str) W :
  (1 <= W)%Z -> length s < fuel ->
  (Wrap.text_length (Wrap.tokens_of s) <= W)%Z ->
  Wrap.wrapAnsiString fuel s W = Some (Wrap.kept s).
Proof.
  intros HW Hf Fit. unfold Wrap.wrapAnsiString.
  destruct (Z.eqb_spec W 0) as [C|_]; [lia|].
  destruct (tokenize_spec fuel s Hf) as (tokens & E & C & _).
  rewrite E. apply tokenize_same in E. subst tokens.
  assert (forall (o : option (list Utils.Str * Z)) x n, o = Some ([x], n) ->
            match o with
            | Some (lines, _) => Some (Wrap.join [Utils.line_feed] lines)
            | None => None
            end = Some x) as A by (intros o x n ->; reflexivity).
  rewrite <- C.
  apply (A _ _ (0 + Wrap.text_length (Wrap.tokens_of s))%Z).
  apply (fold_fits W fuel (Wrap.tokens_of s) [] 0%Z). lia.
Qed.

(** X19, three letters, an escape sequence and three letters in six columns. *)
Lemma X19_wrap_fits_witness :
  Wrap.wrapAnsiString 12 [97; 98; 99; 27; 91; 51; 49; 109; 100; 101; 102]%N 6
  = Some [97; 98; 99; 27; 91; 51; 49; 109; 100; 101; 102]%N.
Proof.
  apply (X19_wrap_fits 12 [97; 98; 99; 27; 91; 51; 49; 109; 100; 101; 102]%N 6).
  - lia.
  - simpl. lia.
  - vm_compute. discriminate.
Defined.
